(** * eoos::lib::Heap — a first-fit heap over a caller-supplied memory region

    Shallow embedding of [src/include/public/lib.Heap.hpp].

    Data model.  The target is taken to be LP64: [size_t] and [uintptr_t]
    are 64-bit unsigned integers, modelled as [Z] with the wrap-around
    written out ([wrap]).  (The tag [BLOCK_KEY] that a block keeps in its
    [size_t] field [key_] takes 61 bits.)  [sizeof(Heap)] and
    [sizeof(HeapBlock)] depend on declarations that are not part of the
    sources at hand ([api.SystemHeap.hpp], [Types.hpp]); they are section
    variables, and 48 bytes each, their LP64 values, in the examples.

    Memory is modelled at two granularities:
    - the memory self-test ([Heap::isMemoryAvailable]) works on single
      cells, through an interface [CellMemory] that also admits faulty
      memories;
    - the block chain works on a store of [HeapBlock] headers indexed by
      their address ([gmap Z HeapBlock]).  Headers absorbed by a merge stay
      in the store, as they stay in memory.  Reading an address that holds
      no header is outside the model and yields [None].

    The calls [disable()]/[enable()] of [Heap::allocate] and [Heap::free]
    only act on the external [api::Toggle]; they do not touch the heap data
    and are left out of [Heap_allocate] and [Heap_free].
    [allocate_guarded] and [free_guarded] are the same two functions with
    these calls, over the toggle objects and the pointer variables that
    [data_.toggle] leads to. *)

From Stdlib Require Import ZArith Lia Bool List Permutation.
From stdpp Require Import base option list gmap.

Local Open Scope Z_scope.

(** ** Machine integers *)

(** Arithmetic of [size_t] and [uintptr_t]. *)
Definition wrap (z : Z) : Z := z mod 2 ^ 64.

(** Modelled from the spec: [cell_t] is declared in [Types.hpp], which is
    not among the sources; the spec has the self-test compare bytes, so
    [static_cast<cell_t>(v)] keeps the low eight bits of [v]. *)
Definition to_cell (v : Z) : Z := v mod 256.

Definition NULLPTR : Z := 0.

(** ** Cell memories *)

(** Cell-granular memory as seen by the self-test: [poke m a v] is the
    memory after the store [ptr[a] = v], [peek m a] the value a load
    returns. *)
Class CellMemory (M : Type) := {
  poke : M → Z → Z → M;
  peek : M → Z → Z
}.

(** A memory in which every cell keeps what was stored last. *)
Definition Ram : Type := Z → Z.

#[export] Instance ideal_ram : CellMemory Ram := {|
  poke m a v := λ x, if x =? a then v else m x;
  peek m a := m a
|}.

(** A memory with one cell whose loads always return [stuck_val]. *)
Record StuckRam : Type := mkStuckRam {
  stuck_at : Z;
  stuck_val : Z;
  cells : Z → Z
}.

#[export] Instance stuck_ram : CellMemory StuckRam := {|
  poke m a v :=
    mkStuckRam (stuck_at m) (stuck_val m)
      (λ x, if x =? a then v else cells m x);
  peek m a := if a =? stuck_at m then stuck_val m else cells m a
|}.

(** ** Block headers *)

(** [class HeapBlock], field by field. *)
Record HeapBlock : Type := mkHeapBlock {
  heap_ : Z;   (* api::Heap*  *)
  prev_ : Z;   (* HeapBlock*  *)
  next_ : Z;   (* HeapBlock*  *)
  attr_ : Z;   (* int32_t     *)
  size_ : Z;   (* size_t      *)
  key_  : Z    (* size_t      *)
}.

Definition BLOCK_KEY : Z := 0x1982040120150515.
Definition ATTR_USED : Z := 0x00000001.
Definition NEXT_FREE : Z := 0x00000001.
Definition PREV_FREE : Z := 0x00000002.
Definition HEAP_KEY : Z := 0x19811019.

Definition set_prev_ (v : Z) (b : HeapBlock) : HeapBlock :=
  mkHeapBlock (heap_ b) v (next_ b) (attr_ b) (size_ b) (key_ b).
Definition set_next_ (v : Z) (b : HeapBlock) : HeapBlock :=
  mkHeapBlock (heap_ b) (prev_ b) v (attr_ b) (size_ b) (key_ b).
Definition set_attr_ (v : Z) (b : HeapBlock) : HeapBlock :=
  mkHeapBlock (heap_ b) (prev_ b) (next_ b) v (size_ b) (key_ b).
Definition set_size_ (v : Z) (b : HeapBlock) : HeapBlock :=
  mkHeapBlock (heap_ b) (prev_ b) (next_ b) (attr_ b) v (key_ b).

(** [HeapBlock::isConstructed()] *)
Definition HeapBlock_isConstructed (b : HeapBlock) : bool :=
  key_ b =? BLOCK_KEY.

(** [HeapBlock::isUsed()] *)
Definition isUsed (b : HeapBlock) : bool :=
  negb (Z.land (attr_ b) ATTR_USED =? 0).

(** [attr_ |= ATTR_USED] and [attr_ &= ~ATTR_USED] *)
Definition mark_used (b : HeapBlock) : HeapBlock :=
  set_attr_ (Z.lor (attr_ b) ATTR_USED) b.
Definition mark_free (b : HeapBlock) : HeapBlock :=
  set_attr_ (Z.land (attr_ b) (Z.lnot ATTR_USED)) b.

(** A read-modify-write of the header at [a]. *)
Definition modify (m : gmap Z HeapBlock) (a : Z) (f : HeapBlock → HeapBlock)
  : option (gmap Z HeapBlock) :=
  b ← m !! a; Some (<[a := f b]> m).

(** [struct HeapData] *)
Record HeapData : Type := mkHeapData {
  block : Z;    (* HeapBlock*    *)
  toggle : Z;   (* api::Toggle** *)
  size : Z;     (* size_t        *)
  key : Z       (* int32_t       *)
}.

(** A [Heap] object at address [self], with the headers found in memory. *)
Record Heap : Type := mkHeap {
  self : Z;
  data_ : HeapData;
  blocks : gmap Z HeapBlock
}.

Definition set_blocks (m : gmap Z HeapBlock) (h : Heap) : Heap :=
  mkHeap (self h) (data_ h) m.
Definition set_key (k : Z) (h : Heap) : Heap :=
  mkHeap (self h)
    (mkHeapData (block (data_ h)) (toggle (data_ h)) (size (data_ h)) k)
    (blocks h).
Definition set_block (p : Z) (h : Heap) : Heap :=
  mkHeap (self h)
    (mkHeapData p (toggle (data_ h)) (size (data_ h)) (key (data_ h)))
    (blocks h).

(** The logical view of a chain: the capacity and the used flag of each
    block, in address order. *)
Record ablock : Type := ABlock { a_cap : Z; a_used : bool }.

Definition attr_of (u : bool) : Z := if u then ATTR_USED else 0.

(** No two neighbours are both free. *)
Fixpoint no_adj_free (l : list ablock) : bool :=
  match l with
  | b1 :: l' =>
      match l' with
      | b2 :: _ => (a_used b1 || a_used b2) && no_adj_free l'
      | [] => true
      end
  | [] => true
  end.

(** Is something chained after a segment that is followed by [l]? *)
Definition follows (l : list ablock) (more : bool) : bool :=
  match l with [] => more | _ :: _ => true end.

(** ** The toggle *)

(** Modelled from the spec: [api::Toggle] is declared in [api.Toggle.hpp],
    which is not among the sources.  The spec gives the toggle two
    operations: disable, which returns the prior enablement state, and
    enable, which is handed a prior state to restore.  [T] is the state
    of a toggle object. *)
Class Toggle (T : Type) := {
  toggle_disable : T → bool * T;
  toggle_enable : T → bool → T
}.

(** What [Heap] reaches through [data_.toggle]: the [api::Toggle*]
    variables and the toggle objects, by address. *)
Record World (T : Type) : Type := mkWorld {
  vars : Z → Z;
  objs : Z → T
}.
Arguments mkWorld {T} _ _.
Arguments vars {T} _ _.
Arguments objs {T} _ _.

Definition set_obj {T : Type} (a : Z) (o : T) (w : World T) : World T :=
  mkWorld (vars w) (λ x, if x =? a then o else objs w x).

(** A toggle over one enable bit: disable clears the bit and returns what
    it was, enable sets the bit when it is handed [true]. *)
#[export] Instance enable_bit : Toggle bool := {|
  toggle_disable b := (b, false);
  toggle_enable b status := if status then true else b
|}.

(** ** The padding of [Heap] *)

(** [Aligner<SIZEOF>::SIZE], the number of cells of [Aligner::val_].  It
    is computed in [int32_t], where an overflow has no defined result;
    the arithmetic is that of [Z], for the sizes that do not overflow. *)
Definition Aligner_SIZE (SIZEOF : Z) : Z :=
  Z.land SIZEOF (Z.lnot 0x7) + 0x8 - SIZEOF.

Section Model.
Context {M : Type} `{CellMemory M}.

(** [sizeof(Heap)] and [sizeof(HeapBlock)]. *)
Variable sizeof_Heap sizeof_HeapBlock : Z.

(** ** The memory self-test *)

(** [cell_t mask = -1]. *)
Definition mask : Z := -1.

(** The four patterns, as functions of the loop index. *)
Definition pat_index (i : Z) : Z := to_cell (Z.land i mask).
Definition pat_55 (_ : Z) : Z := to_cell (Z.land 0x55555555 mask).
Definition pat_aa (_ : Z) : Z := to_cell (Z.land 0xaaaaaaaa mask).
Definition pat_zero (_ : Z) : Z := 0x00.

(** [for(size_t i = i0; i < i0 + n; i++) ptr[i] = pat(i);] *)
Fixpoint write_pass (pat : Z → Z) (addr i : Z) (n : nat) (m : M) : M :=
  match n with
  | O => m
  | S n' => write_pass pat addr (i + 1) n' (poke m (addr + i) (pat i))
  end.

(** [for(size_t i = i0; i < i0 + n; i++) if(ptr[i] != pat(i)) return false;] *)
Fixpoint read_pass (pat : Z → Z) (addr i : Z) (n : nat) (m : M) : bool :=
  match n with
  | O => true
  | S n' =>
      if peek m (addr + i) =? pat i
      then read_pass pat addr (i + 1) n' m
      else false
  end.

(** [Heap::isMemoryAvailable(addr, size)]: the verdict and the memory left
    behind. *)
Definition isMemoryAvailable (m : M) (addr size : Z) : bool * M :=
  let n := Z.to_nat size in
  (* Value test *)
  let m1 := write_pass pat_index addr 0 n m in
  if negb (read_pass pat_index addr 0 n m1) then (false, m1) else
  (* 0x55 test *)
  let m2 := write_pass pat_55 addr 0 n m1 in
  if negb (read_pass pat_55 addr 0 n m2) then (false, m2) else
  (* 0xAA test *)
  let m3 := write_pass pat_aa addr 0 n m2 in
  if negb (read_pass pat_aa addr 0 n m3) then (false, m3) else
  (* Zero test *)
  let m4 := write_pass pat_zero addr 0 n m3 in
  if negb (read_pass pat_zero addr 0 n m4) then (false, m4) else
  (true, m4).

(** The cells [addr .. addr + size - 1] of [m] hold the pattern [pat]. *)
Definition holds (pat : Z → Z) (addr size : Z) (m : M) : Prop :=
  ∀ i, 0 ≤ i < size → peek m (addr + i) = pat i.

(** The memory after the first, second, third and fourth write pass. *)
Definition after_index (m : M) (addr size : Z) : M :=
  write_pass pat_index addr 0 (Z.to_nat size) m.
Definition after_55 (m : M) (addr size : Z) : M :=
  write_pass pat_55 addr 0 (Z.to_nat size) (after_index m addr size).
Definition after_aa (m : M) (addr size : Z) : M :=
  write_pass pat_aa addr 0 (Z.to_nat size) (after_55 m addr size).
Definition after_zero (m : M) (addr size : Z) : M :=
  write_pass pat_zero addr 0 (Z.to_nat size) (after_aa m addr size).

(** ** HeapBlock *)

(** [HeapBlock::data()] *)
Definition data (this : Z) : Z := wrap (this + sizeof_HeapBlock).

(** [HeapBlock::next(size)] *)
Definition next (this size : Z) : Z := wrap (this + sizeof_HeapBlock + size).

(** [Heap::heapBlock(data)] *)
Definition heapBlock (p : Z) : Z := wrap (p - sizeof_HeapBlock).

(** [HeapBlock::HeapBlock(heap, size)] *)
Definition HeapBlock_ctor (heap size : Z) : HeapBlock :=
  mkHeapBlock heap NULLPTR NULLPTR 0 (wrap (size - sizeof_HeapBlock)) BLOCK_KEY.

(** [HeapBlock::operator new(size_t, void* ptr)] *)
Definition HeapBlock_operator_new (ptr : Z) : Z :=
  if negb (Z.land sizeof_HeapBlock 0x7 =? 0) then NULLPTR
  else if negb (Z.land ptr 0x7 =? 0) then NULLPTR
  else ptr.

(** [new (ptr) HeapBlock(heap, size)]: no constructor call when the
    operator returns [NULLPTR]. *)
Definition HeapBlock_new (m : gmap Z HeapBlock) (ptr heap size : Z)
  : Z * gmap Z HeapBlock :=
  let memory := HeapBlock_operator_new ptr in
  if memory =? NULLPTR then (NULLPTR, m)
  else (memory, <[memory := HeapBlock_ctor heap size]> m).

(** The alignment of the request in [HeapBlock::alloc]. *)
Definition align8 (size : Z) : Z :=
  if negb (Z.land size 0x7 =? 0)
  then wrap (Z.land size (Z.lnot 0x7) + 0x8)
  else size.

(** The [while] loop of [HeapBlock::alloc]: [Some curr] when the loop is
    left with [curr], [None] when it runs out of [fuel] or leaves the
    store. *)
Fixpoint scan (fuel : nat) (m : gmap Z HeapBlock) (curr size : Z) : option Z :=
  match fuel with
  | O => None
  | S fuel' =>
      if curr =? NULLPTR then Some NULLPTR else
      c ← m !! curr;
      if isUsed c then scan fuel' m (next_ c) size
      else if size_ c <? size then scan fuel' m (next_ c) size
      else Some curr
  end.

(** [HeapBlock::alloc(size)] on the header at [this].  The loop is given
    one step more than there are headers in the store: a chain without a
    cycle is walked to its end within that. *)
Definition HeapBlock_alloc (m : gmap Z HeapBlock) (this size : Z)
  : option (Z * gmap Z HeapBlock) :=
  if size =? 0 then Some (NULLPTR, m) else
  let size := align8 size in
  curr ← scan (S (base.size m)) m this size;
  if curr =? NULLPTR then Some (NULLPTR, m) else
  c ← m !! curr;
  if wrap (size + sizeof_HeapBlock) <=? size_ c then
    t ← m !! this;
    let '(nxt, m) :=
      HeapBlock_new m (next curr size) (heap_ t) (wrap (size_ c - size)) in
    if nxt =? NULLPTR then Some (NULLPTR, m) else
    c ← m !! curr;
    m ← modify m nxt (set_next_ (next_ c));
    m ← modify m nxt (set_prev_ curr);
    n ← m !! nxt;
    m ← (if negb (next_ n =? NULLPTR)
         then modify m (next_ n) (set_prev_ nxt) else Some m);
    m ← modify m curr (set_next_ nxt);
    m ← modify m curr (set_size_ size);
    m ← modify m curr mark_used;
    Some (data curr, m)
  else
    m ← modify m curr mark_used;
    Some (data curr, m).

(** ** Heap *)

(** [Heap::getFirstBlock()] *)
Definition getFirstBlock (h : Heap) : Z := wrap (self h + sizeof_Heap).

(** [Heap::isConstructed()] *)
Definition Heap_isConstructed (h : Heap) : option bool :=
  if negb (key (data_ h) =? HEAP_KEY) then Some false else
  b ← blocks h !! getFirstBlock h;
  if negb (HeapBlock_isConstructed b) then Some false else Some true.

(** [HeapBlock::canDelete()].  The store holds one [Heap] object; a
    [heap_] pointing elsewhere is outside the model. *)
Definition canDelete (h : Heap) (this : Z) : option bool :=
  t ← blocks h !! this;
  if negb (HeapBlock_isConstructed t) then Some false else
  if heap_ t =? self h then
    c ← Heap_isConstructed h;
    if negb c then Some false else Some true
  else None.

(** Is the neighbour at [p] present and free? *)
Definition neighbour_free (m : gmap Z HeapBlock) (p : Z) : option bool :=
  if negb (p =? NULLPTR) then b ← m !! p; Some (negb (isUsed b))
  else Some false.

(** [HeapBlock::free()] on the header at [this]. *)
Definition HeapBlock_free (h : Heap) (this : Z) : option Heap :=
  ok ← canDelete h this;
  if negb ok then Some h else
  let m := blocks h in
  t ← m !! this;
  pf ← neighbour_free m (prev_ t);
  nf ← neighbour_free m (next_ t);
  let sibling :=
    Z.lor (if pf : bool then PREV_FREE else 0)
          (if nf : bool then NEXT_FREE else 0) in
  m ← (if sibling =? Z.lor PREV_FREE NEXT_FREE then
         p ← m !! prev_ t;
         n ← m !! next_ t;
         m ← modify m (prev_ t)
               (set_size_ (wrap (size_ p
                  + wrap (wrap (2 * sizeof_HeapBlock + size_ t) + size_ n))));
         t ← m !! this;
         n ← m !! next_ t;
         m ← modify m (prev_ t) (set_next_ (next_ n));
         t ← m !! this;
         p ← m !! prev_ t;
         if negb (next_ p =? NULLPTR)
         then modify m (next_ p) (set_prev_ (prev_ t)) else Some m
       else if sibling =? PREV_FREE then
         p ← m !! prev_ t;
         m ← modify m (prev_ t)
               (set_size_ (wrap (size_ p + wrap (sizeof_HeapBlock + size_ t))));
         t ← m !! this;
         m ← modify m (prev_ t) (set_next_ (next_ t));
         t ← m !! this;
         if negb (next_ t =? NULLPTR)
         then modify m (next_ t) (set_prev_ (prev_ t)) else Some m
       else if sibling =? NEXT_FREE then
         n ← m !! next_ t;
         m ← modify m this
               (set_size_ (wrap (size_ t + wrap (sizeof_HeapBlock + size_ n))));
         t ← m !! this;
         n ← m !! next_ t;
         m ← modify m this (set_next_ (next_ n));
         t ← m !! this;
         m ← (if negb (next_ t =? NULLPTR)
              then modify m (next_ t) (set_prev_ this) else Some m);
         modify m this mark_free
       else
         modify m this mark_free);
  Some (set_blocks m h).

(** [Heap::allocate(size, ptr)] *)
Definition Heap_allocate (h : Heap) (size ptr : Z) : option (Z * Heap) :=
  c ← Heap_isConstructed h;
  if negb c then Some (NULLPTR, h) else
  if negb (ptr =? NULLPTR) then Some (ptr, h) else
  r ← HeapBlock_alloc (blocks h) (getFirstBlock h) size;
  Some (r.1, set_blocks r.2 h).

(** [Heap::free(ptr)] *)
Definition Heap_free (h : Heap) (ptr : Z) : option Heap :=
  if ptr =? NULLPTR then Some h else
  c ← Heap_isConstructed h;
  if negb c then Some h else
  HeapBlock_free h (heapBlock ptr).

(** [HeapData::HeapData(isize)] and [HeapData::HeapData(isize, itoggle)];
    the first one leaves [toggle] at [NULLPTR]. *)
Definition HeapData_ctor (isize itoggle : Z) : HeapData :=
  mkHeapData NULLPTR itoggle
    (wrap (Z.land isize (Z.lnot 0x7) - sizeof_Heap)) HEAP_KEY.

(** [Heap::setConstructed(flag)] *)
Definition setConstructed (flag : bool) (h : Heap) : Heap :=
  if key (data_ h) =? HEAP_KEY
  then set_key (if flag then HEAP_KEY else 0) h
  else h.

(** [Heap::construct()].  The cells that the self-test writes are kept
    apart from the fields of the object and from the headers, and their
    addresses are not wrapped.  For a usable range that lies behind the
    object and within the address space, as it does in a region that
    holds the object, nothing else is tested; a range that wraps around
    would take in the object itself. *)
Definition construct (ram : M) (h : Heap) : bool * M * Heap :=
  if wrap (sizeof_HeapBlock + 16) >? size (data_ h) then (false, ram, h) else
  if negb (Z.land sizeof_Heap 0x7 =? 0) then (false, ram, h) else
  if negb (Z.land sizeof_HeapBlock 0x7 =? 0) then (false, ram, h) else
  let addr := wrap (self h + sizeof_Heap) in
  let '(ok, ram) := isMemoryAvailable ram addr (size (data_ h)) in
  if negb ok then (false, ram, h) else
  let '(p, m) :=
    HeapBlock_new (blocks h) (getFirstBlock h) (self h) (size (data_ h)) in
  let h := set_block p (set_blocks m h) in
  (negb (block (data_ h) =? NULLPTR), ram, h).

(** [Heap::Heap(size)] and [Heap::Heap(size, toggle)] for an object placed
    at [this], over the headers [m0] found in memory. *)
Definition Heap_ctor (ram : M) (m0 : gmap Z HeapBlock) (this isize itoggle : Z)
  : M * Heap :=
  let h := mkHeap this (HeapData_ctor isize itoggle) m0 in
  let '(isConstructed, ram, h) := construct ram h in
  (ram, setConstructed isConstructed h).

(** [Heap::setToggle(toggle)] and [Heap::resetToggle()] *)
Definition setToggle (t : Z) (h : Heap) : Heap :=
  mkHeap (self h)
    (mkHeapData (block (data_ h)) t (size (data_ h)) (key (data_ h)))
    (blocks h).
Definition resetToggle (h : Heap) : Heap := setToggle NULLPTR h.

(** [Heap::create(ptr)] *)
Definition create (ram : M) (ptr : Z) : M * Z :=
  let ptr := if negb (Z.land sizeof_Heap 0x7 =? 0) then NULLPTR else ptr in
  let '(ok, ram) := isMemoryAvailable ram ptr sizeof_Heap in
  let ptr := if negb ok then NULLPTR else ptr in
  let ptr := if negb (Z.land ptr 0x7 =? 0) then NULLPTR else ptr in
  (ram, ptr).

(** [Heap::operator new(size_t, uintptr_t ptr)] *)
Definition Heap_operator_new (ram : M) (ptr : Z) : M * Z :=
  if ptr =? NULLPTR then (ram, ptr) else create ram ptr.

(** [new (ptr) Heap(size)].  When the operator returns an address the
    constructor runs there.  When it returns [NULLPTR] the expression has
    no defined result, which is [None]: the operator is not declared
    non-throwing, so the expression does not test what it returns, and
    the constructor is run at the null address.  Nothing is stated about
    that case. *)
Definition Heap_new (ram : M) (m0 : gmap Z HeapBlock) (ptr isize : Z)
  : M * option Heap :=
  let '(ram, memory) := Heap_operator_new ram ptr in
  if memory =? NULLPTR then (ram, None)
  else let '(ram, h) := Heap_ctor ram m0 memory isize NULLPTR in (ram, Some h).

(** ** Sequences of calls *)

(** [allocate(n, NULLPTR)] for each [n] of [sizes], in order: the addresses
    returned and the final heap. *)
Fixpoint allocs (h : Heap) (sizes : list Z) : option (list Z * Heap) :=
  match sizes with
  | [] => Some ([], h)
  | n :: sizes' =>
      r ← Heap_allocate h n NULLPTR;
      r' ← allocs r.2 sizes';
      Some (r.1 :: r'.1, r'.2)
  end.

(** [free(p)] for each [p] of [ps], in order. *)
Fixpoint frees (h : Heap) (ps : list Z) : option Heap :=
  match ps with
  | [] => Some h
  | p :: ps' => h' ← Heap_free h p; frees h' ps'
  end.

(** Any sequence of calls, whatever their arguments. *)
Inductive call : Type :=
  | Allocate (size ptr : Z)
  | Free (ptr : Z).

Fixpoint calls (h : Heap) (cs : list call) : option Heap :=
  match cs with
  | [] => Some h
  | Allocate n p :: cs' => r ← Heap_allocate h n p; calls r.2 cs'
  | Free p :: cs' => h' ← Heap_free h p; calls h' cs'
  end.

(** The heaps a caller can reach, with the addresses of the allocations
    that are outstanding: a region that holds at least the [Heap] object
    and ends within the address space is constructed, then [allocate] is
    called with any arguments, and [free] with [NULLPTR] or with the
    address of an outstanding allocation. *)
Inductive reachable : Heap → list Z → Prop :=
  | reach_new ram m0 ptr isize ram' h :
      0 < sizeof_Heap < 2 ^ 32 →
      0 < sizeof_HeapBlock < 2 ^ 32 →
      0 ≤ ptr → sizeof_Heap ≤ isize → ptr + isize < 2 ^ 64 →
      Heap_new ram m0 ptr isize = (ram', Some h) →
      Heap_isConstructed h = Some true →
      reachable h []
  | reach_allocate h outs n r :
      reachable h outs →
      0 ≤ n < 2 ^ 64 →
      Heap_allocate h n NULLPTR = Some r →
      reachable r.2 (if r.1 =? NULLPTR then outs else r.1 :: outs)
  | reach_allocate_given h outs n p r :
      reachable h outs →
      p ≠ NULLPTR →
      Heap_allocate h n p = Some r →
      reachable r.2 outs
  | reach_free h outs outs' p h' :
      reachable h outs →
      outs ≡ₚ p :: outs' →
      Heap_free h p = Some h' →
      reachable h' outs'
  | reach_free_null h outs h' :
      reachable h outs →
      Heap_free h NULLPTR = Some h' →
      reachable h' outs.

(** ** The chain, as the specification describes it *)

(** The addresses visited from [a] along [next_] up to [NULLPTR]. *)
Inductive path (m : gmap Z HeapBlock) : Z → list Z → Prop :=
  | path_end : path m NULLPTR []
  | path_step a b p :
      a ≠ NULLPTR → m !! a = Some b → path m (next_ b) p →
      path m a (a :: p).

(** The chain of [h] ends, each link leads to a higher address, the flag
    word of a block is either clear or [ATTR_USED], and no block and its
    successor are both free. *)
Definition well_chained (h : Heap) : Prop :=
  ∃ p, path (blocks h) (getFirstBlock h) p ∧ NoDup p ∧
    ∀ a b, a ∈ p → blocks h !! a = Some b →
      (next_ b = NULLPTR ∨ a < next_ b) ∧
      (attr_ b = 0 ∨ attr_ b = ATTR_USED) ∧
      (∀ n, next_ b ≠ NULLPTR → blocks h !! next_ b = Some n →
            isUsed b || isUsed n = true).

(** The chain of [h] is one free block of capacity [c]. *)
Definition single_free_block (h : Heap) (c : Z) : Prop :=
  ∃ b, blocks h !! getFirstBlock h = Some b ∧
       prev_ b = NULLPTR ∧ next_ b = NULLPTR ∧
       isUsed b = false ∧ size_ b = c.

(** ** The chain, as a list *)

(** The bytes a list of blocks takes, headers included. *)
Fixpoint span (l : list ablock) : Z :=
  match l with
  | [] => 0
  | b :: l' => sizeof_HeapBlock + a_cap b + span l'
  end.

(** The header of the block [b] at [a], in the chain of the heap at
    [heap], after the block at [prev] and, when [more], before the block
    that starts where [b] ends. *)
Definition header_of (heap prev a : Z) (b : ablock) (more : bool) : HeapBlock :=
  mkHeapBlock heap prev
    (if more then a + sizeof_HeapBlock + a_cap b else NULLPTR)
    (attr_of (a_used b)) (a_cap b) BLOCK_KEY.

(** The store [m] holds the blocks of [l] back to back from [a] on, linked
    in both directions. *)
Fixpoint seg (m : gmap Z HeapBlock) (heap prev a : Z) (l : list ablock)
    (more : bool) : Prop :=
  match l with
  | [] => True
  | b :: l' =>
      m !! a = Some (header_of heap prev a b (follows l' more)) ∧
      seg m heap a (a + sizeof_HeapBlock + a_cap b) l' more
  end.

(** The address of the last block of [l] laid out from [a], [prev] when
    there is none. *)
Fixpoint last_addr (prev a : Z) (l : list ablock) : Z :=
  match l with
  | [] => prev
  | b :: l' => last_addr a (a + sizeof_HeapBlock + a_cap b) l'
  end.

Definition ok_block (b : ablock) : Prop := 0 ≤ a_cap b ∧ a_cap b mod 8 = 0.

(** The payload addresses of the used blocks of [l] laid out from [a]. *)
Fixpoint used_ptrs (a : Z) (l : list ablock) : list Z :=
  match l with
  | [] => []
  | b :: l' =>
      (if a_used b then [a + sizeof_HeapBlock] else [])
      ++ used_ptrs (a + sizeof_HeapBlock + a_cap b) l'
  end.

(** The first block of the heap. *)
Definition base (h : Heap) : Z := self h + sizeof_Heap.

(** The chain of the constructed heap [h] is [l]; it fills the usable
    range exactly. *)
Definition chain (h : Heap) (l : list ablock) : Prop :=
  key (data_ h) = HEAP_KEY ∧
  0 < sizeof_HeapBlock ∧ sizeof_HeapBlock mod 8 = 0 ∧
  0 < base h ∧ base h mod 8 = 0 ∧
  span l = size (data_ h) ∧ base h + span l < 2 ^ 64 ∧
  l ≠ [] ∧ Forall ok_block l ∧
  seg (blocks h) (self h) NULLPTR (base h) l false.

(** [HeapBlock::alloc] on the list.  The loop passes the blocks that are
    used or smaller than the request [sz]; the block it stops at is marked
    used, and cut when a header fits into the rest. *)
Definition skipped (sz : Z) (b : ablock) : bool :=
  a_used b || (a_cap b <? sz).

Definition cut (sz : Z) (b : ablock) : list ablock :=
  if sz + sizeof_HeapBlock <=? a_cap b
  then [ABlock sz true; ABlock (a_cap b - sz - sizeof_HeapBlock) false]
  else [ABlock (a_cap b) true].

(** [HeapBlock::free] on the list: the block of capacity [c] between [l1]
    and [l2] takes in a free successor, and is taken in by a free
    predecessor. *)
Definition absorb_next (c : Z) (l2 : list ablock) : Z * list ablock :=
  match l2 with
  | ABlock cn false :: l2' => (c + sizeof_HeapBlock + cn, l2')
  | _ => (c, l2)
  end.

Definition coalesce (l1 : list ablock) (c : Z) (l2 : list ablock)
  : list ablock :=
  let '(c', l2') := absorb_next c l2 in
  match last l1 with
  | Some (ABlock cp false) =>
      removelast l1 ++ ABlock (cp + sizeof_HeapBlock + c') false :: l2'
  | _ => l1 ++ ABlock c' false :: l2'
  end.

(** The used flag of the first and of the last block of a list; an absent
    neighbour counts as used. *)
Definition head_used (l : list ablock) : bool :=
  match l with [] => true | b :: _ => a_used b end.

Definition last_used (l : list ablock) : bool :=
  match last l with None => true | Some b => a_used b end.

(** What the callers hold: the chain [l] of [h] has no two free neighbours
    and its used blocks are the outstanding allocations [outs]. *)
Definition inv (h : Heap) (outs : list Z) : Prop :=
  ∃ l, chain h l ∧ no_adj_free l = true ∧ used_ptrs (base h) l ≡ₚ outs.

(** The addresses of the blocks of [l] laid out from [a]. *)
Fixpoint addrs (a : Z) (l : list ablock) : list Z :=
  match l with
  | [] => []
  | b :: l' => a :: addrs (a + sizeof_HeapBlock + a_cap b) l'
  end.

(** The heap [new (ptr) Heap(isize)] builds when it succeeds: one block
    over the usable range. *)
Definition fresh_heap (m0 : gmap Z HeapBlock) (ptr isize : Z) : Heap :=
  let sz := wrap (Z.land isize (Z.lnot 0x7) - sizeof_Heap) in
  let first := wrap (ptr + sizeof_Heap) in
  mkHeap ptr (mkHeapData first NULLPTR sz HEAP_KEY)
    (<[first := HeapBlock_ctor ptr sz]> m0).

(** The payload addresses of the used blocks of [l] laid out from [a],
    each with the capacity of its block. *)
Fixpoint used_blocks (a : Z) (l : list ablock) : list (Z * Z) :=
  match l with
  | [] => []
  | b :: l' =>
      (if a_used b then [(a + sizeof_HeapBlock, a_cap b)] else [])
      ++ used_blocks (a + sizeof_HeapBlock + a_cap b) l'
  end.

(** The payload addresses of blocks of the capacities [caps] laid back to
    back, the first payload at [p]. *)
Fixpoint back_to_back (p : Z) (caps : list Z) : list Z :=
  match caps with
  | [] => []
  | c :: caps' => p :: back_to_back (p + c + sizeof_HeapBlock) caps'
  end.

(** ** The calls on the toggle *)

Context {T : Type} {Tg : Toggle T}.

(** [Heap::disable()] *)
Definition disable (h : Heap) (w : World T) : bool * World T :=
  if toggle (data_ h) =? NULLPTR then (false, w) else
  let t := vars w (toggle (data_ h)) in
  if negb (t =? NULLPTR)
  then let '(status, o) := toggle_disable (objs w t) in
       (status, set_obj t o w)
  else (false, w).

(** [Heap::enable(status)] *)
Definition enable (h : Heap) (status : bool) (w : World T) : World T :=
  if toggle (data_ h) =? NULLPTR then w else
  let t := vars w (toggle (data_ h)) in
  if negb (t =? NULLPTR)
  then set_obj t (toggle_enable (objs w t) status) w
  else w.

(** [Heap::allocate(size, ptr)] and [Heap::free(ptr)] once more, now with
    the world that their calls of [disable()] and [enable()] act on. *)
Definition allocate_guarded (w : World T) (h : Heap) (size ptr : Z)
  : option (Z * Heap * World T) :=
  c ← Heap_isConstructed h;
  if negb c then Some (NULLPTR, h, w) else
  if negb (ptr =? NULLPTR) then Some (ptr, h, w) else
  let '(status, w) := disable h w in
  r ← HeapBlock_alloc (blocks h) (getFirstBlock h) size;
  let w := enable h status w in
  Some (r.1, set_blocks r.2 h, w).

Definition free_guarded (w : World T) (h : Heap) (ptr : Z)
  : option (Heap * World T) :=
  if ptr =? NULLPTR then Some (h, w) else
  c ← Heap_isConstructed h;
  if negb c then Some (h, w) else
  let '(status, w) := disable h w in
  h' ← HeapBlock_free h (heapBlock ptr);
  let w := enable h status w in
  Some (h', w).

(** The toggle object a call reaches: the one the variable behind
    [data_.toggle] points to, [NULLPTR] when there is no such variable. *)
Definition toggle_of (h : Heap) (w : World T) : Z :=
  if toggle (data_ h) =? NULLPTR then NULLPTR else vars w (toggle (data_ h)).

(** A toggle after [disable()] and [enable()] with the status that
    [disable()] returned. *)
Definition bracketed (o : T) : T :=
  toggle_enable (toggle_disable o).2 (toggle_disable o).1.

(** ** Machine arithmetic *)

Lemma wrap_small z : 0 ≤ z < 2 ^ 64 → wrap z = z.
Proof. intros. unfold wrap. by apply Z.mod_small. Qed.

Lemma wrap_range z : 0 ≤ wrap z < 2 ^ 64.
Proof. unfold wrap. apply Z.mod_pos_bound. lia. Qed.

Lemma land_7 z : Z.land z 0x7 = z mod 8.
Proof. change 0x7 with (Z.ones 3). by rewrite Z.land_ones. Qed.

Lemma land_lnot_7 z : Z.land z (Z.lnot 0x7) = z - z mod 8.
Proof.
  rewrite <- Z.ldiff_land. change 0x7 with (Z.ones 3).
  rewrite Z.ldiff_ones_r by lia.
  rewrite Z.shiftl_mul_pow2, Z.shiftr_div_pow2 by lia.
  change (2 ^ 3) with 8. pose proof (Z.div_mod z 8). lia.
Qed.

Lemma aligned_test z : (Z.land z 0x7 =? 0) = bool_decide (z mod 8 = 0).
Proof.
  rewrite land_7. destruct (Z.eqb_spec (z mod 8) 0).
  - by rewrite bool_decide_eq_true_2.
  - by rewrite bool_decide_eq_false_2.
Qed.

Lemma wrap_mod_8 z : wrap z mod 8 = z mod 8.
Proof.
  unfold wrap. apply Z.mod_mod_divide. exists (2 ^ 61). reflexivity.
Qed.

Lemma align8_aligned n : align8 n mod 8 = 0.
Proof.
  unfold align8. rewrite land_7, land_lnot_7.
  destruct (Z.eqb_spec (n mod 8) 0) as [E|E]; simpl; [done|].
  rewrite wrap_mod_8. pose proof (Z.div_mod n 8).
  replace (n - n mod 8 + 8) with ((n / 8 + 1) * 8) by lia.
  by rewrite Z.mod_mul by lia.
Qed.

Lemma align8_range n : 0 ≤ n < 2 ^ 64 → 0 ≤ align8 n < 2 ^ 64.
Proof.
  intros. unfold align8. destruct (negb _); [apply wrap_range | done].
Qed.

(** Within eight of the largest [size_t] the rounding wraps to zero; below,
    it rounds up. *)
Lemma align8_round_up n :
  0 ≤ n ≤ 2 ^ 64 - 8 → n ≤ align8 n < n + 8.
Proof.
  intros. unfold align8. rewrite land_7, land_lnot_7.
  pose proof (Z.mod_pos_bound n 8).
  destruct (Z.eqb_spec (n mod 8) 0) as [E|E]; simpl; [lia|].
  rewrite wrap_small; lia.
Qed.

Lemma align8_wraps n :
  2 ^ 64 - 8 < n < 2 ^ 64 → align8 n = 0.
Proof.
  intros. unfold align8. rewrite land_7, land_lnot_7.
  pose proof (Z.div_mod n 8). pose proof (Z.mod_pos_bound n 8).
  assert (n / 8 = 2 ^ 61 - 1) by lia.
  destruct (Z.eqb_spec (n mod 8) 0) as [E|E]; simpl; [lia|].
  replace (n - n mod 8 + 8) with (2 ^ 64) by lia. reflexivity.
Qed.

(** ** The memory self-test *)

Lemma read_pass_spec pat addr n : ∀ i m,
  read_pass pat addr i n m = true ↔
  ∀ j, i ≤ j < i + Z.of_nat n → peek m (addr + j) = pat j.
Proof.
  induction n as [|n IH]; intros i m; simpl.
  - split; [intros _ j Hj; lia | done].
  - destruct (Z.eqb_spec (peek m (addr + i)) (pat i)) as [Heq|Hne].
    + rewrite IH. split.
      * intros Hall j Hj. destruct (Z.eq_dec j i) as [->|]; [done|].
        apply Hall. lia.
      * intros Hall j Hj. apply Hall. lia.
    + split; [done|]. intros Hall. exfalso. apply Hne, Hall. lia.
Qed.

Lemma read_pass_holds pat addr size m :
  read_pass pat addr 0 (Z.to_nat size) m = true ↔ holds pat addr size m.
Proof.
  rewrite read_pass_spec. unfold holds.
  split; intros Hall j Hj; apply Hall; lia.
Qed.

Lemma read_pass_fails pat addr size m :
  read_pass pat addr 0 (Z.to_nat size) m = false ↔ ¬ holds pat addr size m.
Proof.
  rewrite <- read_pass_holds. by destruct (read_pass _ _ _ _ _).
Qed.

Lemma pat_index_val i : pat_index i = i mod 256.
Proof. unfold pat_index, mask, to_cell. by rewrite Z.land_m1_r. Qed.

Lemma pat_55_val i : pat_55 i = 0x55.
Proof. reflexivity. Qed.

Lemma pat_aa_val i : pat_aa i = 0xAA.
Proof. reflexivity. Qed.

(** A write pass is the stores [ptr[k] = v k], for [k] from [j] on, in
    ascending order. *)
Lemma write_pass_stores pat (v : Z → Z) addr n :
  (∀ i, pat i = v i) → ∀ j m,
  write_pass pat addr (Z.of_nat j) n m
  = fold_left (λ m' k, poke m' (addr + Z.of_nat k) (v (Z.of_nat k)))
      (seq j n) m.
Proof.
  intros Hv. induction n as [|n IH]; intros j m; [done|].
  cbn [write_pass seq fold_left]. rewrite Hv.
  replace (Z.of_nat j + 1) with (Z.of_nat (S j)) by lia. apply IH.
Qed.

(** On a memory in which a load returns what was stored last, a write pass
    leaves its pattern in the cells of its range and the others alone. *)
Lemma write_pass_lawful pat addr n :
  (∀ m a v, peek (poke m a v) a = v) →
  (∀ m a b v, a ≠ b → peek (poke m a v) b = peek m b) →
  ∀ i m x,
  peek (write_pass pat addr i n m) x
  = if (addr + i <=? x) && (x <? addr + i + Z.of_nat n)
    then pat (x - addr) else peek m x.
Proof.
  intros Hsame Hother. induction n as [|n IH]; intros i m x.
  - simpl. destruct (_ && _) eqn:E; [|done].
    apply andb_true_iff in E as [E1%Z.leb_le E2%Z.ltb_lt]. lia.
  - cbn [write_pass]. rewrite IH.
    destruct (Z.leb_spec (addr + (i + 1)) x);
      destruct (Z.ltb_spec x (addr + (i + 1) + Z.of_nat n));
      destruct (Z.leb_spec (addr + i) x);
      destruct (Z.ltb_spec x (addr + i + Z.of_nat (S n)));
      simpl; try done; try lia.
    all: first
      [ apply Hother; lia
      | assert (x = addr + i) as -> by lia; rewrite Hsame; f_equal; lia ].
Qed.

(** C9.  The self-test writes and reads back four patterns in sequence over
    the whole range: the low byte of the index, 0x55, 0xAA (the cell-wide
    part of 0x55555555 and 0xAAAAAAAA) and zero.  Each write pass is the
    stores of its pattern to the cells of the range, one after the other
    from the first cell to the last.  The verdict is [true] exactly when,
    after each write pass, every cell of the range reads back the pattern
    of that pass; and the test stops at the first pass in which a cell
    differs: the memory it leaves is the one after that pass, no later
    pattern is written.  On a memory in which a load returns what was
    stored last, every cell of the range holds the pattern after each
    pass, and at the end zero, and every other cell what it held. *)
Theorem isMemoryAvailable_four_passes (m : M) (addr size : Z) :
  let stores (v : Z → Z) (m0 : M) : M :=
    fold_left (λ m' k, poke m' (addr + Z.of_nat k) (v (Z.of_nat k)))
      (seq 0 (Z.to_nat size)) m0 in
  let P1 := holds pat_index addr size (after_index m addr size) in
  let P2 := holds pat_55 addr size (after_55 m addr size) in
  let P3 := holds pat_aa addr size (after_aa m addr size) in
  let P4 := holds pat_zero addr size (after_zero m addr size) in
  ((isMemoryAvailable m addr size).1 = true ↔ P1 ∧ P2 ∧ P3 ∧ P4) ∧
  (¬ P1 → isMemoryAvailable m addr size = (false, after_index m addr size)) ∧
  (P1 → ¬ P2 →
     isMemoryAvailable m addr size = (false, after_55 m addr size)) ∧
  (P1 → P2 → ¬ P3 →
     isMemoryAvailable m addr size = (false, after_aa m addr size)) ∧
  (P1 → P2 → P3 → ¬ P4 →
     isMemoryAvailable m addr size = (false, after_zero m addr size)) ∧
  (P1 → P2 → P3 → P4 →
     isMemoryAvailable m addr size = (true, after_zero m addr size)) ∧
  (∀ i, pat_index i = i mod 256 ∧ pat_55 i = 0x55 ∧ pat_aa i = 0xAA
        ∧ pat_zero i = 0) ∧
  (after_index m addr size = stores (λ i, i mod 256) m ∧
   after_55 m addr size = stores (λ _, 0x55) (after_index m addr size) ∧
   after_aa m addr size = stores (λ _, 0xAA) (after_55 m addr size) ∧
   after_zero m addr size = stores (λ _, 0) (after_aa m addr size)) ∧
  ((∀ m' a v, peek (poke m' a v) a = v) →
   (∀ m' a b v, a ≠ b → peek (poke m' a v) b = peek m' b) →
   P1 ∧ P2 ∧ P3 ∧ P4 ∧
   ∀ x, peek (after_zero m addr size) x
        = if (addr <=? x) && (x <? addr + size) then 0 else peek m x).
Proof.
  clear sizeof_Heap sizeof_HeapBlock. intros stores P1 P2 P3 P4.
  assert (((isMemoryAvailable m addr size).1 = true ↔ P1 ∧ P2 ∧ P3 ∧ P4) ∧
    (¬ P1 →
       isMemoryAvailable m addr size = (false, after_index m addr size)) ∧
    (P1 → ¬ P2 →
       isMemoryAvailable m addr size = (false, after_55 m addr size)) ∧
    (P1 → P2 → ¬ P3 →
       isMemoryAvailable m addr size = (false, after_aa m addr size)) ∧
    (P1 → P2 → P3 → ¬ P4 →
       isMemoryAvailable m addr size = (false, after_zero m addr size)) ∧
    (P1 → P2 → P3 → P4 →
       isMemoryAvailable m addr size = (true, after_zero m addr size)))
    as (Hiff & H1 & H2 & H3 & H4 & Hall).
  { subst P1 P2 P3 P4.
    unfold isMemoryAvailable, after_zero, after_aa, after_55, after_index.
    set (n := Z.to_nat size).
    set (m1 := write_pass pat_index addr 0 n m).
    set (m2 := write_pass pat_55 addr 0 n m1).
    set (m3 := write_pass pat_aa addr 0 n m2).
    set (m4 := write_pass pat_zero addr 0 n m3).
    pose proof (read_pass_holds pat_index addr size m1) as H1.
    pose proof (read_pass_holds pat_55 addr size m2) as H2.
    pose proof (read_pass_holds pat_aa addr size m3) as H3.
    pose proof (read_pass_holds pat_zero addr size m4) as H4.
    fold n in H1, H2, H3, H4.
    destruct (read_pass pat_index addr 0 n m1);
      destruct (read_pass pat_55 addr 0 n m2);
      destruct (read_pass pat_aa addr 0 n m3);
      destruct (read_pass pat_zero addr 0 n m4); simpl;
      (split; [|split; [|split; [|split; [|split]]]]);
      intuition (try discriminate; try reflexivity). }
  split; [exact Hiff|]. split; [exact H1|]. split; [exact H2|].
  split; [exact H3|]. split; [exact H4|]. split; [exact Hall|].
  split; [|split].
  - intros i. rewrite pat_index_val, pat_55_val, pat_aa_val. done.
  - unfold after_zero, after_aa, after_55, after_index, stores.
    split; [|split; [|split]].
    + exact (write_pass_stores pat_index (λ i, i mod 256) addr _
               pat_index_val 0%nat m).
    + exact (write_pass_stores pat_55 (λ _, 0x55) addr _
               pat_55_val 0%nat _).
    + exact (write_pass_stores pat_aa (λ _, 0xAA) addr _
               pat_aa_val 0%nat _).
    + exact (write_pass_stores pat_zero (λ _, 0) addr _
               (λ _, eq_refl) 0%nat _).
  - intros Hsame Hother.
    assert (∀ pat m0, holds pat addr size
                        (write_pass pat addr 0 (Z.to_nat size) m0)) as Hh.
    { intros pat m0 i Hi. rewrite (write_pass_lawful _ _ _ Hsame Hother).
      destruct (Z.leb_spec (addr + 0) (addr + i)); [|lia].
      destruct (Z.ltb_spec (addr + i) (addr + 0 + Z.of_nat (Z.to_nat size)));
        [|lia].
      simpl. f_equal. lia. }
    split; [apply Hh|]. split; [apply Hh|]. split; [apply Hh|].
    split; [apply Hh|]. intros x.
    unfold after_zero, after_aa, after_55, after_index.
    rewrite !(write_pass_lawful _ _ _ Hsame Hother). unfold pat_zero.
    destruct (Z.leb_spec (addr + 0) x);
      destruct (Z.ltb_spec x (addr + 0 + Z.of_nat (Z.to_nat size)));
      destruct (Z.leb_spec addr x);
      destruct (Z.ltb_spec x (addr + size)); simpl; try done; lia.
Qed.

(** ** Headers and segments *)

Lemma isUsed_header heap prev a b more :
  isUsed (header_of heap prev a b more) = a_used b.
Proof. by destruct b as [c []]. Qed.

Lemma span_app l1 l2 : span (l1 ++ l2) = span l1 + span l2.
Proof. induction l1 as [|b l1 IH]; simpl; lia. Qed.

Lemma span_nonneg l :
  0 < sizeof_HeapBlock → Forall ok_block l → 0 ≤ span l.
Proof.
  intros HB. induction 1 as [|b l [Hb _] _ IH]; simpl; lia.
Qed.

Lemma follows_app l1 l2 more :
  follows (l1 ++ l2) more = follows l1 (follows l2 more).
Proof. by destruct l1. Qed.

Lemma last_addr_snoc prev a l b :
  last_addr prev a (l ++ [b]) = a + span l.
Proof.
  revert prev a. induction l as [|x l IH]; intros prev a; simpl; [lia|].
  rewrite IH. lia.
Qed.

Lemma seg_app m heap prev a l1 l2 more :
  seg m heap prev a (l1 ++ l2) more ↔
  seg m heap prev a l1 (follows l2 more) ∧
  seg m heap (last_addr prev a l1) (a + span l1) l2 more.
Proof.
  revert prev a. induction l1 as [|b l1 IH]; intros prev a; simpl.
  - rewrite Z.add_0_r. tauto.
  - rewrite IH, follows_app.
    replace (a + sizeof_HeapBlock + a_cap b + span l1)
      with (a + (sizeof_HeapBlock + a_cap b + span l1)) by lia.
    tauto.
Qed.

(** A segment only depends on the headers within its range. *)
Lemma seg_frame m m' heap prev a l more :
  0 < sizeof_HeapBlock → Forall ok_block l →
  (∀ x, a ≤ x < a + span l → m' !! x = m !! x) →
  seg m heap prev a l more → seg m' heap prev a l more.
Proof.
  intros HB Hok. revert prev a.
  induction Hok as [|b l [Hb _] Hok IH]; intros prev a Hsame; simpl; [done|].
  simpl in Hsame. pose proof (span_nonneg l HB Hok).
  intros [Ha Hseg]. split.
  - rewrite Hsame; [done | lia].
  - apply IH; [|done]. intros x Hx. apply Hsame. lia.
Qed.

(** The blocks of a segment are headers of the store: there are no more
    of them than the store holds. *)
Lemma seg_length m heap prev a l more :
  0 < sizeof_HeapBlock → Forall ok_block l →
  seg m heap prev a l more → (length l ≤ base.size m)%nat.
Proof.
  intros HB Hok. revert m prev a.
  induction Hok as [|b l [Hb _] Hok IH]; intros m prev a; simpl; [lia|].
  intros [Ha Hseg].
  assert (seg (delete a m) heap a (a + sizeof_HeapBlock + a_cap b) l more)
    as Hdel.
  { eapply seg_frame; [done..| |done].
    intros x Hx. apply lookup_delete_ne. lia. }
  apply IH in Hdel.
  rewrite (map_size_delete_Some a m) in Hdel by eauto.
  pose proof (map_size_ne_0_lookup_2 m a (ltac:(eauto))). lia.
Qed.

(** The first block of a non-empty segment. *)
Lemma seg_head m heap prev a b l more :
  seg m heap prev a (b :: l) more →
  m !! a = Some (header_of heap prev a b (follows l more)).
Proof. by intros [? _]. Qed.

Lemma span_aligned l :
  sizeof_HeapBlock mod 8 = 0 → Forall ok_block l → span l mod 8 = 0.
Proof.
  intros HB. induction 1 as [|b l [_ Hb] _ IH]; simpl; [done|].
  rewrite <- Z.add_assoc, Z.add_mod, HB by lia.
  rewrite (Z.add_mod (a_cap b)), Hb, IH by lia. reflexivity.
Qed.

Lemma modify_Some (m : gmap Z HeapBlock) a f b :
  m !! a = Some b → modify m a f = Some (<[a := f b]> m).
Proof. intros Hb. unfold modify. by rewrite Hb. Qed.

(** ** The scan of [HeapBlock::alloc] *)

(** The loop passes a run of blocks that are used or too small. *)
Lemma scan_skip m heap sz more l : ∀ prev a k,
  0 < sizeof_HeapBlock → 0 < a → Forall ok_block l →
  Forall (λ b, skipped sz b = true) l → l ≠ [] →
  seg m heap prev a l more →
  scan (length l + k) m a sz
  = scan k m (if more then a + span l else NULLPTR) sz.
Proof.
  induction l as [|b l IH]; intros prev a k HB Ha Hok Hskip Hne; [done|].
  intros [Hb Hseg]. simpl.
  apply Forall_cons in Hok as [[Hcap _] Hok].
  apply Forall_cons in Hskip as [Hsk Hskip].
  destruct (Z.eqb_spec a NULLPTR) as [E|_]; [unfold NULLPTR in E; lia|].
  rewrite Hb. simpl. rewrite isUsed_header.
  unfold skipped in Hsk.
  assert ((if a_used b then scan (length l + k) m
             (if follows l more then a + sizeof_HeapBlock + a_cap b
              else NULLPTR) sz
           else if a_cap b <? sz then scan (length l + k) m
             (if follows l more then a + sizeof_HeapBlock + a_cap b
              else NULLPTR) sz
           else Some a)
          = scan (length l + k) m
             (if follows l more then a + sizeof_HeapBlock + a_cap b
              else NULLPTR) sz) as ->.
  { destruct (a_used b); [done|]. simpl in Hsk. by rewrite Hsk. }
  destruct l as [|b' l].
  - simpl. destruct more; [f_equal; lia | done].
  - change (follows (b' :: l) more) with true. cbv iota.
    rewrite (IH a (a + sizeof_HeapBlock + a_cap b) k) by (done || lia).
    simpl. destruct more; [f_equal; lia | done].
Qed.

(** The loop stops at a free block that is large enough. *)
Lemma scan_stop m heap prev a b more sz k :
  0 < a → skipped sz b = false →
  m !! a = Some (header_of heap prev a b more) →
  scan (S k) m a sz = Some a.
Proof.
  intros Ha Hsk Hb. simpl.
  destruct (Z.eqb_spec a NULLPTR) as [E|_]; [unfold NULLPTR in E; lia|].
  rewrite Hb. simpl. rewrite isUsed_header.
  unfold skipped in Hsk. apply orb_false_elim in Hsk as [-> ->]. done.
Qed.

Arguments wrap : simpl never.

Lemma lookup_insert_at (m : gmap Z HeapBlock) k k' v :
  k = k' → <[k := v]> m !! k' = Some v.
Proof. intros ->. apply lookup_insert_eq. Qed.

(** Symbolic execution of the reads and writes of a header store; the
    addresses are compared by [lia]. *)
Ltac addr := unfold NULLPTR in *; lia.

Ltac exec_store :=
  repeat first
    [ match goal with
      | |- context [<[?k := ?v]> ?m !! ?k'] =>
          first [ rewrite (lookup_insert_at m k k' v) by addr
                | rewrite (lookup_insert_ne m k k' v) by addr ]
      | E : ?m !! ?a = Some _ |- context [?m !! ?a'] =>
          first [ rewrite E | replace a' with a by addr; rewrite E ]
      | |- context [?x =? ?y] =>
          first [ rewrite (proj2 (Z.eqb_eq x y)) by addr
                | rewrite (proj2 (Z.eqb_neq x y)) by addr ]
      end
    | progress unfold modify
    | progress simpl ].

Lemma seg_transfer m m' heap p p' a a' l more :
  seg m heap p a l more →
  0 < sizeof_HeapBlock → Forall ok_block l → p = p' → a = a' →
  (∀ x, a ≤ x < a + span l → m' !! x = m !! x) →
  seg m' heap p' a' l more.
Proof. intros Hseg HB Hok <- <- Hsame. by eapply seg_frame. Qed.

Ltac frame :=
  eapply seg_transfer;
    [ eassumption | done | done | addr | addr
    | let x := fresh "x" in let Hx := fresh "Hx" in
      intros x Hx; simpl in Hx; exec_store; done ].

(** ** [HeapBlock::alloc] on a chain *)

Lemma span_cut sz b : span (cut sz b) = span [b].
Proof. unfold cut. destruct (_ <=? _); simpl; lia. Qed.

Lemma ok_block_cut sz b :
  sizeof_HeapBlock mod 8 = 0 → 0 ≤ sz → sz mod 8 = 0 →
  ok_block b → Forall ok_block (cut sz b).
Proof.
  intros HB Hsz Hal [Hb Hb8]. unfold cut.
  destruct (Z.leb_spec (sz + sizeof_HeapBlock) (a_cap b)).
  - repeat constructor; simpl; try lia.
    rewrite <- Z.sub_add_distr, Zminus_mod, Hb8.
    rewrite Z.add_mod, Hal, HB by lia. reflexivity.
  - repeat constructor; simpl; lia.
Qed.

Ltac hdr_eq :=
  solve
    [ unfold header_of, mark_used, mark_free,
        set_next_, set_prev_, set_size_, set_attr_;
      simpl; repeat (f_equal; try addr);
      try (match goal with
           | |- context [follows ?l ?more] => destruct (follows l more)
           end; addr) ].

Lemma alloc_seg m heap a0 l1 b l2 n :
  0 < sizeof_HeapBlock → sizeof_HeapBlock mod 8 = 0 →
  0 < a0 → a0 mod 8 = 0 → a0 + span (l1 ++ b :: l2) < 2 ^ 64 →
  Forall ok_block (l1 ++ b :: l2) →
  seg m heap NULLPTR a0 (l1 ++ b :: l2) false →
  n ≠ 0 → 0 ≤ n < 2 ^ 64 →
  Forall (λ x, skipped (align8 n) x = true) l1 →
  skipped (align8 n) b = false →
  ∃ m', HeapBlock_alloc m a0 n
        = Some (a0 + span l1 + sizeof_HeapBlock, m') ∧
        seg m' heap NULLPTR a0 (l1 ++ cut (align8 n) b ++ l2) false.
Proof.
  intros HB HB8 Ha0 Ha8 Hend Hok Hseg Hn Hnr Hskip Hfit.
  unfold skipped in Hfit. apply orb_false_elim in Hfit as [Hfree Hbig].
  destruct b as [cap u]. simpl in Hfree, Hbig. subst u.
  apply Z.ltb_ge in Hbig.
  pose proof (align8_range n Hnr) as Hszr.
  pose proof (align8_aligned n) as Hsz8.
  set (sz := align8 n) in *.
  pose proof (seg_length _ _ _ _ _ _ HB Hok Hseg) as Hlen.
  rewrite length_app in Hlen. simpl in Hlen.
  rewrite span_app in Hend. simpl in Hend.
  pose proof Hok as Hok'.
  apply Forall_app in Hok' as [Hok1 Hok2].
  apply Forall_cons in Hok2 as [[Hcap Hcap8] Hok2]. simpl in Hcap, Hcap8.
  pose proof (span_nonneg _ HB Hok1) as Hs1.
  pose proof (span_nonneg _ HB Hok2) as Hs2.
  pose proof (span_aligned _ HB8 Hok1) as Hs18.
  pose proof Hseg as Hseg'.
  apply seg_app in Hseg' as [Hseg1 Hseg2].
  simpl in Hseg2. destruct Hseg2 as [Hc Hseg2].
  change (follows (_ :: l2) false) with true in Hseg1.
  set (curr := a0 + span l1) in *.
  set (pc := last_addr NULLPTR a0 l1) in *.
  (* the first header *)
  assert (∃ t, m !! a0 = Some t ∧ heap_ t = heap) as (t & Ht & Hheap).
  { destruct l1 as [|b1 l1]; simpl in Hseg; destruct Hseg as [Hx _];
      eexists; (split; [exact Hx | done]). }
  (* the loop *)
  assert (scan (S (base.size m)) m a0 sz = Some curr) as Hscan.
  { replace (S (base.size m))
      with (length l1 + S (base.size m - length l1))%nat by lia.
    destruct l1 as [|b1 l1].
    - simpl. subst curr. simpl. rewrite Z.add_0_r in *.
      eapply scan_stop; [lia | | exact Hc].
      unfold skipped. simpl. by apply Z.ltb_ge.
    - rewrite (scan_skip m heap sz true (b1 :: l1) NULLPTR a0) by done.
      eapply scan_stop; [lia | | exact Hc].
      unfold skipped. simpl. by apply Z.ltb_ge. }
  unfold HeapBlock_alloc.
  destruct (Z.eqb_spec n 0) as [|_]; [done|].
  fold sz. rewrite Hscan. simpl.
  destruct (Z.eqb_spec curr NULLPTR) as [E|_]; [unfold NULLPTR in E; lia|].
  rewrite Hc. simpl.
  rewrite (wrap_small (sz + sizeof_HeapBlock)) by lia.
  unfold data. rewrite (wrap_small (curr + sizeof_HeapBlock)) by lia.
  unfold cut. simpl a_cap.
  destruct (Z.leb_spec (sz + sizeof_HeapBlock) cap) as [Hsplit|Hwhole].
  - (* the block is cut *)
    rewrite Ht. simpl. rewrite Hheap.
    unfold next. rewrite (wrap_small (curr + sizeof_HeapBlock + sz)) by lia.
    set (nxt := curr + sizeof_HeapBlock + sz).
    assert (nxt = curr + sizeof_HeapBlock + sz) as Hnxt by done.
    clearbody nxt.
    assert (curr mod 8 = 0) as Hc8.
    { subst curr. rewrite Z.add_mod, Ha8, Hs18 by lia. done. }
    assert (nxt mod 8 = 0) as Hn8.
    { subst nxt. rewrite <- Z.add_assoc, Z.add_mod, Hc8 by lia.
      rewrite (Z.add_mod sizeof_HeapBlock), HB8, Hsz8 by lia. done. }
    unfold HeapBlock_new, HeapBlock_operator_new.
    rewrite !aligned_test, !bool_decide_eq_true_2 by done. simpl.
    rewrite (wrap_small (cap - sz)) by lia.
    assert (HeapBlock_ctor heap (cap - sz)
            = mkHeapBlock heap NULLPTR NULLPTR 0
                (cap - sz - sizeof_HeapBlock) BLOCK_KEY) as ->.
    { unfold HeapBlock_ctor. by rewrite wrap_small by lia. }
    destruct l2 as [|bn l2].
    + exec_store. eexists. split; [reflexivity|].
      apply seg_app. split; [frame|].
      fold curr pc. simpl. exec_store.
      split; [hdr_eq|]. split; [hdr_eq|done].
    + simpl in Hseg2. destruct Hseg2 as [Hnx Hseg2].
      apply Forall_cons in Hok2 as [[Hbn Hbn8] Hok2]. simpl in Hs2.
      pose proof (span_nonneg _ HB Hok2) as Hs2'.
      exec_store. eexists. split; [reflexivity|].
      apply seg_app. split; [frame|].
      fold curr pc. simpl. exec_store.
      split; [hdr_eq|]. split; [hdr_eq|]. split; [hdr_eq|frame].
  - (* the block is taken whole *)
    exec_store. eexists. split; [reflexivity|].
    apply seg_app. split; [frame|].
    fold curr pc. simpl. exec_store. split; [hdr_eq|frame].
Qed.

(** No block fits: the loop runs off the end of the chain. *)
Lemma alloc_none_seg m heap a0 l n :
  0 < sizeof_HeapBlock → 0 < a0 → Forall ok_block l → l ≠ [] →
  seg m heap NULLPTR a0 l false →
  Forall (λ x, skipped (align8 n) x = true) l →
  HeapBlock_alloc m a0 n = Some (NULLPTR, m).
Proof.
  intros HB Ha0 Hok Hne Hseg Hskip.
  pose proof (seg_length _ _ _ _ _ _ HB Hok Hseg) as Hlen.
  unfold HeapBlock_alloc. destruct (n =? 0); [done|].
  replace (S (base.size m))
    with (length l + S (base.size m - length l))%nat by lia.
  rewrite (scan_skip m heap (align8 n) false l NULLPTR a0) by done.
  reflexivity.
Qed.

(** The blocks before the one that fits, if any does. *)
Lemma first_fit sz l :
  Forall (λ x, skipped sz x = true) l ∨
  ∃ l1 b l2, l = l1 ++ b :: l2 ∧
    Forall (λ x, skipped sz x = true) l1 ∧ skipped sz b = false.
Proof.
  induction l as [|b l [IH|(l1 & x & l2 & -> & Hl1 & Hx)]].
  - by left.
  - destruct (skipped sz b) eqn:Hb.
    + left. by constructor.
    + right. by exists [], b, l.
  - destruct (skipped sz b) eqn:Hb.
    + right. exists (b :: l1), x, l2. by repeat constructor.
    + right. by exists [], b, (l1 ++ x :: l2).
Qed.

(** ** [HeapBlock::free] on a chain *)

Lemma snoc_cases (l : list ablock) : l = [] ∨ ∃ l' b, l = l' ++ [b].
Proof.
  induction l as [|x l [->|(l' & b & ->)]].
  - by left.
  - right. by exists [], x.
  - right. by exists (x :: l'), b.
Qed.

Ltac unwrap :=
  repeat match goal with
  | |- context [wrap ?z] => rewrite (wrap_small z) by addr
  end.

Ltac seg_done :=
  simpl; exec_store;
  repeat match goal with |- _ ∧ _ => split end;
  first [ done | hdr_eq | frame ].

Lemma constructed_chain h l :
  chain h l → Heap_isConstructed h = Some true.
Proof.
  intros (Hkey & HB & HB8 & Hb & Hb8 & Hsize & Hend & Hne & Hok & Hseg).
  unfold Heap_isConstructed, getFirstBlock. rewrite Hkey. simpl.
  unfold base in *. pose proof (span_nonneg _ HB Hok).
  rewrite wrap_small by lia.
  destruct l as [|b l]; [done|]. destruct Hseg as [-> _]. done.
Qed.

Lemma free_chain h l1 c l2 :
  chain h (l1 ++ ABlock c true :: l2) →
  ∃ m', HeapBlock_free h (base h + span l1) = Some (set_blocks m' h) ∧
        seg m' (self h) NULLPTR (base h) (coalesce l1 c l2) false.
Proof.
  intros Hchain. pose proof (constructed_chain _ _ Hchain) as Hcons.
  destruct Hchain
    as (Hkey & HB & HB8 & Hb & Hb8 & Hsize & Hend & Hne & Hok & Hseg).
  set (a0 := base h) in *. set (m := blocks h) in *.
  set (heap := self h) in *.
  unfold HeapBlock_free, canDelete, neighbour_free. fold m heap.
  rewrite Hcons. clear Hsize Hne Hcons Hkey.
  apply Forall_app in Hok as [Hok1 Hok2].
  apply Forall_cons in Hok2 as [[Hc _] Hok2]. simpl in Hc.
  rewrite span_app in Hend. simpl in Hend.
  pose proof (span_nonneg _ HB Hok2) as Hs2.
  unfold coalesce.
  destruct (snoc_cases l1) as [->|(l1' & [cp up] & ->)].
  - (* no predecessor *)
    simpl in Hseg, Hend. simpl. rewrite Z.add_0_r. destruct Hseg as [Ht Hseg2].
    destruct l2 as [|[cn un] l2].
    + exec_store. eexists. split; [reflexivity|]. seg_done.
    + simpl in Hseg2, Hend, Hs2. destruct Hseg2 as [Hn Hseg2].
      apply Forall_cons in Hok2 as [[Hcn _] Hok2]. simpl in Hcn.
      pose proof (span_nonneg _ HB Hok2) as Hs2'.
      destruct un.
      * exec_store. eexists. split; [reflexivity|]. seg_done.
      * destruct l2 as [|bnn l2].
        -- exec_store. unwrap. exec_store.
           eexists. split; [reflexivity|]. seg_done.
        -- simpl in Hseg2, Hend, Hs2'. destruct Hseg2 as [Hnn Hseg2].
           apply Forall_cons in Hok2 as [[Hcnn _] Hok2].
           pose proof (span_nonneg _ HB Hok2) as Hs2''.
           exec_store. unwrap. exec_store.
           eexists. split; [reflexivity|]. seg_done.
  - (* a predecessor of capacity [cp] *)
    apply Forall_app in Hok1 as [Hok1 Hcp].
    apply Forall_cons in Hcp as [[Hcp _] _]. simpl in Hcp.
    pose proof (span_nonneg _ HB Hok1) as Hs1.
    rewrite last_snoc, removelast_last.
    rewrite span_app in Hend |- *. simpl in Hend |- *.
    rewrite <- app_assoc in Hseg. apply seg_app in Hseg as [Hseg1 Hseg].
    simpl in Hseg, Hseg1. destruct Hseg as (Hp & Ht & Hseg2).
    set (pp := last_addr NULLPTR a0 l1') in *.
    set (ap := a0 + span l1') in *.
    assert (ap = a0 + span l1') as Hap by done. clearbody ap.
    destruct l2 as [|[cn un] l2].
    + destruct up.
      * exec_store. eexists. split; [reflexivity|].
        rewrite <- app_assoc. apply seg_app. split; [frame|]. seg_done.
      * exec_store. unwrap. exec_store. eexists. split; [reflexivity|].
        apply seg_app. split; [frame|]. seg_done.
    + simpl in Hseg2, Hend, Hs2. destruct Hseg2 as [Hn Hseg2].
      apply Forall_cons in Hok2 as [[Hcn _] Hok2]. simpl in Hcn.
      pose proof (span_nonneg _ HB Hok2) as Hs2'.
      destruct up, un.
      * exec_store. eexists. split; [reflexivity|].
        rewrite <- app_assoc. apply seg_app. split; [frame|]. seg_done.
      * destruct l2 as [|bnn l2].
        -- exec_store. unwrap. exec_store. eexists. split; [reflexivity|].
           rewrite <- app_assoc. apply seg_app. split; [frame|]. seg_done.
        -- simpl in Hseg2, Hend, Hs2'. destruct Hseg2 as [Hnn Hseg2].
           apply Forall_cons in Hok2 as [[Hcnn _] Hok2].
           pose proof (span_nonneg _ HB Hok2) as Hs2''.
           exec_store. unwrap. exec_store. eexists. split; [reflexivity|].
           rewrite <- app_assoc. apply seg_app. split; [frame|]. seg_done.
      * exec_store. unwrap. exec_store. eexists. split; [reflexivity|].
        apply seg_app. split; [frame|]. seg_done.
      * destruct l2 as [|bnn l2].
        -- exec_store. unwrap. exec_store. eexists. split; [reflexivity|].
           apply seg_app. split; [frame|]. seg_done.
        -- simpl in Hseg2, Hend, Hs2'. destruct Hseg2 as [Hnn Hseg2].
           apply Forall_cons in Hok2 as [[Hcnn _] Hok2].
           pose proof (span_nonneg _ HB Hok2) as Hs2''.
           exec_store. unwrap. exec_store. eexists. split; [reflexivity|].
           apply seg_app. split; [frame|]. seg_done.
Qed.

(** ** Lists of blocks *)

Lemma no_adj_free_cons b l :
  no_adj_free (b :: l) = (a_used b || head_used l) && no_adj_free l.
Proof. destruct l; simpl; [by rewrite orb_true_r | done]. Qed.

Lemma no_adj_free_app l1 l2 :
  no_adj_free (l1 ++ l2)
  = no_adj_free l1 && no_adj_free l2 && (last_used l1 || head_used l2).
Proof.
  induction l1 as [|x l1 IH]; [simpl; by rewrite andb_true_r|].
  rewrite <- app_comm_cons, !no_adj_free_cons, IH.
  destruct l1 as [|y l1].
  - unfold last_used. simpl.
    by destruct (a_used x), (head_used l2), (no_adj_free l2).
  - unfold last_used. rewrite last_cons_cons. simpl head_used.
    fold (last_used (y :: l1)).
    by destruct (a_used x), (a_used y), (no_adj_free (y :: l1)),
      (no_adj_free l2), (last_used (y :: l1)), (head_used l2).
Qed.

Lemma last_used_snoc l b : last_used (l ++ [b]) = a_used b.
Proof. unfold last_used. by rewrite last_snoc. Qed.

Lemma used_ptrs_app a l1 l2 :
  used_ptrs a (l1 ++ l2) = used_ptrs a l1 ++ used_ptrs (a + span l1) l2.
Proof.
  revert a. induction l1 as [|b l1 IH]; intros a; simpl.
  - by rewrite Z.add_0_r.
  - rewrite IH, <- app_assoc. do 3 f_equal. lia.
Qed.

(** The used blocks lie within the segment. *)
Lemma used_ptrs_bounds a l x :
  0 < sizeof_HeapBlock → Forall ok_block l →
  x ∈ used_ptrs a l → a < x ≤ a + span l.
Proof.
  intros HB Hok. revert a.
  induction Hok as [|b l [Hb _] Hok IH]; intros a; simpl.
  - by intros ?%elem_of_nil.
  - pose proof (span_nonneg _ HB Hok).
    intros [Hx|Hx]%elem_of_app.
    + destruct (a_used b); [|by apply elem_of_nil in Hx].
      apply list_elem_of_singleton in Hx. lia.
    + apply IH in Hx. lia.
Qed.

(** The block behind an outstanding address. *)
Lemma used_ptrs_split a l p :
  p ∈ used_ptrs a l →
  ∃ l1 c l2, l = l1 ++ ABlock c true :: l2 ∧
             p = a + span l1 + sizeof_HeapBlock.
Proof.
  revert a. induction l as [|[c u] l IH]; intros a; simpl.
  - by intros ?%elem_of_nil.
  - intros [Hx|Hx]%elem_of_app.
    + destruct u; [|by apply elem_of_nil in Hx].
      apply list_elem_of_singleton in Hx.
      exists [], c, l. simpl. split; [done|lia].
    + apply IH in Hx as (l1 & c' & l2 & -> & ->).
      exists (ABlock c u :: l1), c', l2. simpl. split; [done|lia].
Qed.

Lemma span_coalesce l1 c l2 :
  span (coalesce l1 c l2) = span (l1 ++ ABlock c true :: l2).
Proof.
  unfold coalesce.
  destruct (snoc_cases l1) as [->|(l0 & [cp up] & ->)].
  - simpl. destruct l2 as [|[cn []] l2]; simpl; lia.
  - rewrite last_snoc, removelast_last.
    destruct l2 as [|[cn []] l2], up; simpl;
      rewrite ?span_app; simpl; rewrite ?span_app; simpl; lia.
Qed.

Lemma coalesce_nonempty l1 c l2 : coalesce l1 c l2 ≠ [].
Proof.
  unfold coalesce. destruct (absorb_next c l2) as [c' l2'].
  destruct (last l1) as [[cp []]|];
    intros Heq; apply app_eq_nil in Heq as [_ Heq]; discriminate.
Qed.

Lemma ok_block_merge x y :
  sizeof_HeapBlock mod 8 = 0 → 0 < sizeof_HeapBlock →
  (0 ≤ x ∧ x mod 8 = 0) → (0 ≤ y ∧ y mod 8 = 0) →
  0 ≤ x + sizeof_HeapBlock + y ∧ (x + sizeof_HeapBlock + y) mod 8 = 0.
Proof.
  intros HB8 HB [Hx Hx8] [Hy Hy8]. split; [lia|].
  rewrite Z.add_mod, (Z.add_mod x), Hx8, HB8, Hy8 by lia. done.
Qed.

Lemma ok_coalesce l1 c l2 :
  sizeof_HeapBlock mod 8 = 0 → 0 < sizeof_HeapBlock →
  Forall ok_block (l1 ++ ABlock c true :: l2) →
  Forall ok_block (coalesce l1 c l2).
Proof.
  intros HB8 HB Hok. unfold coalesce.
  apply Forall_app in Hok as [Hok1 Hok2].
  apply Forall_cons in Hok2 as [Hc Hok2].
  assert (∀ c' l2', absorb_next c l2 = (c', l2') →
            (0 ≤ c' ∧ c' mod 8 = 0) ∧ Forall ok_block l2') as Hnext.
  { intros c' l2'. destruct l2 as [|[cn []] l2]; simpl; intros [= <- <-];
      try done.
    apply Forall_cons in Hok2 as [Hcn Hok2]. split; [|done].
    by apply ok_block_merge. }
  destruct (absorb_next c l2) as [c' l2'].
  destruct (Hnext c' l2' eq_refl) as [Hc' Hok2'].
  destruct (snoc_cases l1) as [->|(l0 & [cp up] & ->)].
  - simpl. constructor; [exact Hc'|done].
  - rewrite last_snoc, removelast_last.
    apply Forall_app in Hok1 as [Hok0 Hcp].
    apply Forall_cons in Hcp as [Hcp _].
    destruct up.
    + rewrite <- app_assoc. apply Forall_app. split; [done|].
      simpl. constructor; [exact Hcp|]. constructor; [exact Hc'|done].
    + apply Forall_app. split; [done|]. constructor; [|done].
      by apply (ok_block_merge cp c').
Qed.

Ltac naf :=
  repeat progress
    (rewrite ?no_adj_free_app, ?no_adj_free_cons, ?last_used_snoc;
     cbn [a_used head_used app]);
  repeat match goal with
  | |- context [no_adj_free ?l] => is_var l; destruct (no_adj_free l)
  | |- context [last_used ?l] => is_var l; destruct (last_used l)
  | |- context [head_used ?l] => is_var l; destruct (head_used l)
  | |- context [a_used ?b] => is_var b; destruct (a_used b)
  end;
  done.

Lemma no_adj_free_coalesce l1 c l2 :
  no_adj_free (l1 ++ ABlock c true :: l2) = true →
  no_adj_free (coalesce l1 c l2) = true.
Proof.
  unfold coalesce.
  destruct (snoc_cases l1) as [->|(l0 & [cp up] & ->)].
  - destruct l2 as [|[cn []] l2]; cbn [absorb_next last]; naf.
  - rewrite last_snoc, removelast_last, <- app_assoc.
    destruct l2 as [|[cn []] l2], up; cbn [absorb_next]; naf.
Qed.

Lemma used_ptrs_coalesce a l1 c l2 :
  used_ptrs a (coalesce l1 c l2)
  = used_ptrs a l1
    ++ used_ptrs (a + span l1 + sizeof_HeapBlock + c) l2.
Proof.
  unfold coalesce.
  destruct (snoc_cases l1) as [->|(l0 & [cp up] & ->)].
  - simpl. rewrite Z.add_0_r.
    destruct l2 as [|[cn []] l2]; simpl; try done.
    f_equal. lia.
  - rewrite last_snoc, removelast_last.
    destruct l2 as [|[cn []] l2], up; simpl;
      rewrite ?used_ptrs_app; simpl; rewrite ?used_ptrs_app; simpl;
      rewrite ?span_app; simpl; rewrite ?app_nil_r, <- ?app_assoc; simpl;
      repeat (f_equal; try lia).
Qed.

Lemma no_adj_free_cut sz l1 c l2 :
  no_adj_free (l1 ++ ABlock c false :: l2) = true →
  no_adj_free (l1 ++ cut sz (ABlock c false) ++ l2) = true.
Proof.
  unfold cut. destruct (_ <=? _); cbn [app]; naf.
Qed.

Lemma used_ptrs_cut a sz l1 c l2 :
  used_ptrs a (l1 ++ cut sz (ABlock c false) ++ l2)
  = used_ptrs a l1
    ++ (a + span l1 + sizeof_HeapBlock)
    :: used_ptrs (a + span l1 + sizeof_HeapBlock + c) l2.
Proof.
  rewrite used_ptrs_app. f_equal. unfold cut.
  destruct (_ <=? _); simpl; repeat (f_equal; try lia).
Qed.

Lemma used_ptrs_free a l1 c l2 :
  used_ptrs a (l1 ++ ABlock c false :: l2)
  = used_ptrs a l1 ++ used_ptrs (a + span l1 + sizeof_HeapBlock + c) l2.
Proof. rewrite used_ptrs_app. simpl. repeat (f_equal; try lia). Qed.

Lemma used_ptrs_used a l1 c l2 :
  used_ptrs a (l1 ++ ABlock c true :: l2)
  = used_ptrs a l1
    ++ (a + span l1 + sizeof_HeapBlock)
    :: used_ptrs (a + span l1 + sizeof_HeapBlock + c) l2.
Proof. rewrite used_ptrs_app. simpl. repeat (f_equal; try lia). Qed.

Lemma set_blocks_id h : set_blocks (blocks h) h = h.
Proof. by destruct h. Qed.

(** ** The operations of [Heap] on a chain *)

(** [allocate(n, NULLPTR)] on a chain: either no block is free and large
    enough for the aligned request (or [n] is zero), and the call returns
    [NULLPTR] and leaves the heap as it is; or the first such block is cut
    and handed out. *)
Lemma allocate_chain h l n :
  chain h l → 0 ≤ n < 2 ^ 64 →
  (Heap_allocate h n NULLPTR = Some (NULLPTR, h) ∧
   (n = 0 ∨ Forall (λ x, skipped (align8 n) x = true) l)) ∨
  (∃ l1 b l2 h',
     l = l1 ++ b :: l2 ∧ n ≠ 0 ∧
     Forall (λ x, skipped (align8 n) x = true) l1 ∧
     skipped (align8 n) b = false ∧
     Heap_allocate h n NULLPTR
       = Some (base h + span l1 + sizeof_HeapBlock, h') ∧
     chain h' (l1 ++ cut (align8 n) b ++ l2) ∧
     self h' = self h ∧ data_ h' = data_ h).
Proof.
  intros Hchain Hn. pose proof (constructed_chain _ _ Hchain) as Hcons.
  destruct Hchain
    as (Hkey & HB & HB8 & Hb & Hb8 & Hsize & Hend & Hne & Hok & Hseg).
  pose proof (span_nonneg _ HB Hok) as Hs.
  unfold Heap_allocate. rewrite Hcons. simpl.
  unfold getFirstBlock. fold (base h). rewrite (wrap_small (base h)) by lia.
  destruct (Z.eq_dec n 0) as [->|Hn0].
  { left. unfold HeapBlock_alloc. simpl. rewrite set_blocks_id. auto. }
  destruct (first_fit (align8 n) l) as [Hall|(l1 & b & l2 & -> & Hl1 & Hfit)].
  - left. rewrite (alloc_none_seg _ (self h) _ l) by done.
    simpl. rewrite set_blocks_id. auto.
  - right. exists l1, b, l2.
    destruct (alloc_seg _ _ _ l1 b l2 n HB HB8 Hb Hb8 Hend Hok Hseg
                Hn0 Hn Hl1 Hfit) as (m' & Halloc & Hseg').
    exists (set_blocks m' h). rewrite Halloc. simpl.
    unfold chain, base in *. simpl.
    repeat split; try done.
    + rewrite <- Hsize, !span_app, span_cut. simpl. lia.
    + rewrite !span_app, span_cut. rewrite span_app in Hend.
      simpl in *. lia.
    + by destruct l1, (cut (align8 n) b) eqn:E;
        [unfold cut in E; destruct (_ <=? _)|..].
    + apply Forall_app in Hok as [Hok1 Hok2].
      apply Forall_cons in Hok2 as [Hokb Hok2].
      apply Forall_app. split; [done|]. apply Forall_app. split; [|done].
      pose proof (align8_range n Hn). pose proof (align8_aligned n).
      apply ok_block_cut; (done || lia).
Qed.

(** [free] of the payload address of a used block of the chain. *)
Lemma free_chain_ptr h l1 c l2 :
  chain h (l1 ++ ABlock c true :: l2) →
  ∃ h', Heap_free h (base h + span l1 + sizeof_HeapBlock) = Some h' ∧
        chain h' (coalesce l1 c l2) ∧
        self h' = self h ∧ data_ h' = data_ h.
Proof.
  intros Hchain. pose proof (constructed_chain _ _ Hchain) as Hcons.
  destruct (free_chain _ _ _ _ Hchain) as (m' & Hfree & Hseg').
  destruct Hchain
    as (Hkey & HB & HB8 & Hb & Hb8 & Hsize & Hend & Hne & Hok & Hseg).
  apply Forall_app in Hok as Hok'. destruct Hok' as [Hok1 Hok2].
  apply Forall_cons in Hok2 as [[Hc _] Hok2]. simpl in Hc.
  pose proof (span_nonneg _ HB Hok1) as Hs1.
  pose proof (span_nonneg _ HB Hok2) as Hs2.
  pose proof (span_nonneg _ HB Hok) as Hs.
  rewrite span_app in Hs, Hend. simpl in Hs, Hend.
  exists (set_blocks m' h). split; [|split; [|done]].
  - unfold Heap_free.
    destruct (Z.eqb_spec (base h + span l1 + sizeof_HeapBlock) NULLPTR)
      as [E|_]; [unfold NULLPTR in E; lia|].
    rewrite Hcons. simpl. unfold heapBlock.
    replace (base h + span l1 + sizeof_HeapBlock - sizeof_HeapBlock)
      with (base h + span l1) by lia.
    rewrite wrap_small by lia. done.
  - unfold chain, base in *. simpl.
    rewrite span_coalesce, span_app. simpl.
    rewrite span_app in Hsize. simpl in Hsize.
    repeat split; try done.
    + apply coalesce_nonempty.
    + by apply ok_coalesce.
Qed.

(** ** Construction *)

Lemma setConstructed_false h :
  key (data_ (setConstructed false h)) ≠ HEAP_KEY.
Proof.
  unfold setConstructed.
  destruct (Z.eqb_spec (key (data_ h)) HEAP_KEY); simpl; [done|done].
Qed.

Lemma not_constructed_key h :
  key (data_ h) ≠ HEAP_KEY → Heap_isConstructed h = Some false.
Proof.
  intros Hk. unfold Heap_isConstructed.
  by destruct (Z.eqb_spec (key (data_ h)) HEAP_KEY).
Qed.

Lemma round_down_8 isize :
  sizeof_Heap mod 8 = 0 → sizeof_Heap ≤ isize →
  sizeof_Heap ≤ isize - isize mod 8 ≤ isize ∧
  (isize - isize mod 8 - sizeof_Heap) mod 8 = 0.
Proof.
  intros H8 Hle. pose proof (Z.mod_pos_bound isize 8).
  pose proof (Z.div_mod isize 8). pose proof (Z.div_mod sizeof_Heap 8).
  split; [lia|].
  replace (isize - isize mod 8 - sizeof_Heap)
    with ((isize / 8 - sizeof_Heap / 8) * 8) by lia.
  by rewrite Z.mod_mul by lia.
Qed.

(** A region that holds the [Heap] object, lies within the address space
    and is reported constructed carries one free block over its whole
    usable range. *)
Lemma new_chain ram m0 ptr isize ram' h :
  0 < sizeof_Heap < 2 ^ 32 → 0 < sizeof_HeapBlock < 2 ^ 32 →
  0 ≤ ptr → sizeof_Heap ≤ isize → ptr + isize < 2 ^ 64 →
  Heap_new ram m0 ptr isize = (ram', Some h) →
  Heap_isConstructed h = Some true →
  chain h [ABlock (size (data_ h) - sizeof_HeapBlock) false] ∧
  self h = ptr ∧
  size (data_ h) = isize - isize mod 8 - sizeof_Heap ∧
  sizeof_HeapBlock + 16 ≤ size (data_ h).
Proof.
  intros HSH HHB Hptr Hle Hend Hnew Hcons.
  unfold Heap_new, Heap_operator_new in Hnew.
  destruct (Z.eqb_spec ptr NULLPTR) as [->|Hp0]; [done|].
  unfold create in Hnew. rewrite !aligned_test in Hnew.
  destruct (isMemoryAvailable ram _ sizeof_Heap) as [ok1 ram1].
  case_bool_decide as HSH8; simpl in Hnew; [|by destruct ok1].
  destruct ok1; simpl in Hnew; [|done].
  rewrite ?aligned_test in Hnew.
  case_bool_decide as Hp8; simpl in Hnew; [|done].
  destruct (Z.eqb_spec ptr NULLPTR) as [|_]; [done|].
  destruct (Heap_ctor ram1 m0 ptr isize NULLPTR) as [ram2 h2] eqn:Hctor.
  injection Hnew as <- <-.
  unfold Heap_ctor, construct, HeapData_ctor in Hctor. simpl in Hctor.
  rewrite land_lnot_7, !aligned_test in Hctor.
  destruct (round_down_8 isize HSH8 Hle) as [Hsz Hsz8].
  rewrite (wrap_small (isize - isize mod 8 - sizeof_Heap)) in Hctor by lia.
  rewrite (wrap_small (sizeof_HeapBlock + 16)) in Hctor by lia.
  set (sz := isize - isize mod 8 - sizeof_Heap) in *.
  assert (∀ r x, Heap_isConstructed (setConstructed false x) = Some true
                 → r) as Hfail.
  { intros r x Hx.
    by rewrite (not_constructed_key _ (setConstructed_false x)) in Hx. }
  destruct (Z.gtb_spec (sizeof_HeapBlock + 16) sz) as [Hsmall|Hbig].
  { injection Hctor as <- <-. by eapply Hfail. }
  rewrite bool_decide_eq_true_2 in Hctor by done. simpl in Hctor.
  case_bool_decide as HHB8; simpl in Hctor;
    [|injection Hctor as <- <-; by eapply Hfail].
  destruct (isMemoryAvailable ram1 _ sz) as [ok2 ram3].
  destruct ok2; simpl in Hctor;
    [|injection Hctor as <- <-; by eapply Hfail].
  unfold HeapBlock_new, HeapBlock_operator_new, getFirstBlock in Hctor.
  simpl in Hctor. rewrite !aligned_test in Hctor.
  rewrite (wrap_small (ptr + sizeof_Heap)) in Hctor by lia.
  rewrite bool_decide_eq_true_2 in Hctor by done.
  assert ((ptr + sizeof_Heap) mod 8 = 0) as Hb8.
  { rewrite Z.add_mod, Hp8, HSH8 by lia. done. }
  rewrite bool_decide_eq_true_2 in Hctor by done. simpl in Hctor.
  destruct (Z.eqb_spec (ptr + sizeof_Heap) NULLPTR) as [E|_];
    [unfold NULLPTR in E; lia|].
  simpl in Hctor.
  destruct (Z.eqb_spec (ptr + sizeof_Heap) NULLPTR) as [E|_];
    [unfold NULLPTR in E; lia|].
  simpl in Hctor. injection Hctor as <- <-.
  unfold setConstructed. simpl.
  unfold chain, base. simpl.
  repeat split; try lia; try done.
  - repeat constructor; simpl; [lia|].
    rewrite Zminus_mod, Hsz8, HHB8. done.
  - rewrite lookup_insert_eq. unfold HeapBlock_ctor, header_of. simpl.
    by rewrite wrap_small by lia.
Qed.

(** ** The invariant of the reachable heaps *)

Lemma skipped_false sz b :
  skipped sz b = false → b = ABlock (a_cap b) false ∧ sz ≤ a_cap b.
Proof.
  destruct b as [c u]. unfold skipped. simpl.
  intros [-> Hc%Z.ltb_ge]%orb_false_elim. done.
Qed.

Lemma allocate_given h n p :
  Heap_isConstructed h = Some true → p ≠ NULLPTR →
  Heap_allocate h n p = Some (p, h).
Proof.
  intros Hc Hp. unfold Heap_allocate. rewrite Hc. simpl.
  by destruct (Z.eqb_spec p NULLPTR).
Qed.

Lemma free_null h : Heap_free h NULLPTR = Some h.
Proof. reflexivity. Qed.

Lemma inv_allocate h outs n r :
  inv h outs → 0 ≤ n < 2 ^ 64 →
  Heap_allocate h n NULLPTR = Some r →
  inv r.2 (if r.1 =? NULLPTR then outs else r.1 :: outs) ∧
  data_ r.2 = data_ h.
Proof.
  intros (l & Hchain & Hnaf & Hperm) Hn Hr.
  pose proof Hchain
    as (Hkey & HB & HB8 & Hb & Hb8 & Hsize & Hend & Hne & Hok & Hseg).
  destruct (allocate_chain h l n Hchain Hn)
    as [[Hnull _]|(l1 & b & l2 & h' & -> & Hn0 & Hl1 & Hfit & Halloc
                   & Hchain' & Hself & Hdata)].
  - rewrite Hnull in Hr. injection Hr as <-. simpl. split; [|done].
    by exists l.
  - rewrite Halloc in Hr. injection Hr as <-. simpl.
    apply Forall_app in Hok as [Hok1 _].
    pose proof (span_nonneg _ HB Hok1).
    destruct (Z.eqb_spec (base h + span l1 + sizeof_HeapBlock) NULLPTR)
      as [E|_]; [unfold NULLPTR in E; lia|].
    split; [|done].
    apply skipped_false in Hfit as [Hb' _]. rewrite Hb' in *.
    exists (l1 ++ cut (align8 n) (ABlock (a_cap b) false) ++ l2).
    split; [done|]. split; [by apply no_adj_free_cut|].
    unfold base at 1. rewrite Hself. fold (base h).
    rewrite used_ptrs_cut. rewrite used_ptrs_free in Hperm.
    rewrite <- Hperm. symmetry. apply Permutation_middle.
Qed.

Lemma inv_free h outs outs' p :
  inv h outs → outs ≡ₚ p :: outs' →
  ∃ h', Heap_free h p = Some h' ∧ inv h' outs' ∧ data_ h' = data_ h.
Proof.
  intros (l & Hchain & Hnaf & Hperm) Hp.
  assert (p ∈ used_ptrs (base h) l) as Hin.
  { rewrite Hperm, Hp. apply list_elem_of_here. }
  apply used_ptrs_split in Hin as (l1 & c & l2 & -> & ->).
  destruct (free_chain_ptr _ _ _ _ Hchain)
    as (h' & Hfree & Hchain' & Hself & Hdata).
  exists h'. split; [done|]. split; [|done].
  exists (coalesce l1 c l2). split; [done|].
  split; [by apply no_adj_free_coalesce|].
  unfold base at 1. rewrite Hself. fold (base h).
  rewrite used_ptrs_coalesce.
  rewrite used_ptrs_used, Hp in Hperm.
  symmetry in Hperm. apply Permutation_cons_app_inv in Hperm.
  by symmetry.
Qed.

Lemma inv_reachable h outs : reachable h outs → inv h outs.
Proof.
  induction 1 as [ram m0 ptr isize ram' h HSH HHB Hptr Hle Hend Hnew Hcons
                 |h outs n r _ IH Hn Hr
                 |h outs n p r _ IH Hp Hr
                 |h outs outs' p h' _ IH Hp Hfree
                 |h outs h' _ IH Hfree].
  - destruct (new_chain _ _ _ _ _ _ HSH HHB Hptr Hle Hend Hnew Hcons)
      as (Hchain & _).
    by exists [ABlock (size (data_ h) - sizeof_HeapBlock) false].
  - by eapply inv_allocate.
  - destruct IH as (l & Hchain & Hrest).
    rewrite (allocate_given h n p) in Hr
      by (by eapply constructed_chain || done).
    injection Hr as <-. by exists l.
  - destruct (inv_free _ _ _ _ IH Hp) as (h'' & Hfree' & Hinv & _).
    rewrite Hfree in Hfree'. by injection Hfree' as <-.
  - rewrite free_null in Hfree. by injection Hfree as <-.
Qed.

(** ** The chain of a reachable heap *)

Lemma addrs_lower a l x :
  0 < sizeof_HeapBlock → Forall ok_block l → x ∈ addrs a l → a ≤ x.
Proof.
  intros HB Hok. revert a.
  induction Hok as [|b l [Hb _] _ IH]; intros a; simpl.
  - by intros ?%elem_of_nil.
  - intros [->|Hx%IH]%elem_of_cons; lia.
Qed.

Lemma attr_of_cases u : attr_of u = 0 ∨ attr_of u = ATTR_USED.
Proof. destruct u; auto. Qed.

Lemma seg_well m heap l : ∀ prev a,
  0 < sizeof_HeapBlock → 0 < a → Forall ok_block l →
  no_adj_free l = true → seg m heap prev a l false →
  path m (match l with [] => NULLPTR | _ => a end) (addrs a l) ∧
  NoDup (addrs a l) ∧
  ∀ x b, x ∈ addrs a l → m !! x = Some b →
    (next_ b = NULLPTR ∨ x < next_ b) ∧
    (attr_ b = 0 ∨ attr_ b = ATTR_USED) ∧
    (∀ n, next_ b ≠ NULLPTR → m !! next_ b = Some n →
          isUsed b || isUsed n = true).
Proof.
  induction l as [|b l IH]; intros prev a HB Ha Hok Hnaf Hseg.
  - simpl. split; [constructor|]. split; [constructor|].
    by intros x b ?%elem_of_nil.
  - apply Forall_cons in Hok as [[Hcap _] Hok].
    destruct Hseg as [Hb Hseg].
    rewrite no_adj_free_cons in Hnaf.
    apply andb_true_iff in Hnaf as [Hadj Hnaf].
    destruct (IH a (a + sizeof_HeapBlock + a_cap b))
      as (Hpath & Hnd & Hall); [done|lia|done..|].
    simpl addrs. split; [|split].
    + apply path_step with (header_of heap prev a b (follows l false));
        [unfold NULLPTR; lia|done|].
      by destruct l.
    + constructor; [|done].
      intros Hin%addrs_lower; [lia|done..].
    + intros x bx [->|Hx]%elem_of_cons Hbx; [|by apply Hall].
      rewrite Hb in Hbx. injection Hbx as <-. simpl.
      split; [|split; [apply attr_of_cases|]].
      * destruct (follows l false); [right; lia|by left].
      * destruct l as [|b' l]; [done|]. simpl.
        destruct Hseg as [Hb' _]. intros n _ Hn.
        rewrite Hb' in Hn. injection Hn as <-.
        by rewrite !isUsed_header.
Qed.

(** C4, amended.  Over every sequence of calls in which [free] is given
    [NULLPTR] or the address of an outstanding allocation, on a region
    that holds the [Heap] object and lies within the address space: the
    chain ends (it has no cycle), every link leads to a higher address,
    every block is either used or free, and no two neighbours are both
    free, after [free] as after [allocate]. *)
Theorem reachable_well_chained h outs :
  reachable h outs → well_chained h.
Proof.
  intros Hr. destruct (inv_reachable _ _ Hr) as (l & Hchain & Hnaf & _).
  destruct Hchain
    as (Hkey & HB & HB8 & Hb & Hb8 & Hsize & Hend & Hne & Hok & Hseg).
  pose proof (span_nonneg _ HB Hok).
  destruct (seg_well _ _ _ _ _ HB Hb Hok Hnaf Hseg) as (Hpath & Hnd & Hall).
  exists (addrs (base h) l). unfold getFirstBlock. fold (base h).
  rewrite wrap_small by lia. by destruct l.
Qed.

(** ** Freeing everything *)

Lemma inv_perm h outs outs' : inv h outs → outs ≡ₚ outs' → inv h outs'.
Proof.
  intros (l & Hchain & Hnaf & Hperm) Hp. exists l.
  split; [done|]. split; [done|]. by rewrite Hperm.
Qed.

Lemma allocs_inv sizes : ∀ h outs ps h',
  inv h outs → Forall (λ n, 0 ≤ n < 2 ^ 64) sizes →
  allocs h sizes = Some (ps, h') → Forall (λ p, p ≠ NULLPTR) ps →
  inv h' (ps ++ outs) ∧ data_ h' = data_ h.
Proof.
  induction sizes as [|n sizes IH]; intros h outs ps h' Hinv Hsizes Hrun Hps.
  - injection Hrun as <- <-. done.
  - apply Forall_cons in Hsizes as [Hn Hsizes]. simpl in Hrun.
    destruct (Heap_allocate h n NULLPTR) as [r|] eqn:Hr; [|done].
    simpl in Hrun.
    destruct (allocs r.2 sizes) as [r'|] eqn:Hr'; [|done].
    injection Hrun as <- <-.
    apply Forall_cons in Hps as [Hp Hps].
    destruct (inv_allocate _ _ _ _ Hinv Hn Hr) as [Hinv' Hdata].
    destruct (Z.eqb_spec r.1 NULLPTR) as [|_]; [done|].
    destruct r' as [ps' h'']. simpl in *.
    destruct (IH _ _ _ _ Hinv' Hsizes Hr' Hps) as [Hinv'' Hdata'].
    split; [|congruence].
    eapply inv_perm; [exact Hinv''|].
    symmetry. apply Permutation_middle.
Qed.

Lemma frees_inv qs : ∀ h outs,
  inv h outs → outs ≡ₚ qs →
  ∃ h', frees h qs = Some h' ∧ inv h' [] ∧ data_ h' = data_ h.
Proof.
  induction qs as [|q qs IH]; intros h outs Hinv Hperm.
  - exists h. split; [done|]. split; [|done]. by eapply inv_perm.
  - destruct (inv_free _ _ _ _ Hinv Hperm) as (h1 & Hfree & Hinv1 & Hdata1).
    destruct (IH h1 qs Hinv1 (reflexivity _)) as (h2 & Hfrees & Hinv2 & Hdata2).
    exists h2. simpl. rewrite Hfree. simpl.
    split; [done|]. split; [done|congruence].
Qed.

Lemma all_free_single a l :
  no_adj_free l = true → used_ptrs a l = [] → l ≠ [] →
  ∃ c, l = [ABlock c false].
Proof.
  destruct l as [|[c []] [|[c2 []] l]]; simpl; try done.
  intros _ _ _. by exists c.
Qed.

Lemma inv_nil_single h :
  inv h [] → single_free_block h (size (data_ h) - sizeof_HeapBlock).
Proof.
  intros (l & Hchain & Hnaf & Hperm).
  apply Permutation_nil_r in Hperm.
  destruct Hchain
    as (Hkey & HB & HB8 & Hb & Hb8 & Hsize & Hend & Hne & Hok & Hseg).
  destruct (all_free_single _ _ Hnaf Hperm Hne) as [c ->].
  simpl in *. destruct Hseg as [Hfirst _].
  exists (header_of (self h) NULLPTR (base h) (ABlock c false) false).
  unfold getFirstBlock. fold (base h).
  apply Forall_cons in Hok as [[Hc _] _]. simpl in Hc.
  rewrite wrap_small by lia. simpl. repeat split; try done. lia.
Qed.

(** C5.  On a freshly constructed region, after any sequence of successful
    allocations, freeing all the addresses they returned, in any order,
    leaves a chain of exactly one free block, whose capacity is the usable
    size of the region less one header. *)
Theorem coalescing_complete ram m0 ptr isize ram' h0 sizes ps h1 qs :
  0 < sizeof_Heap < 2 ^ 32 → 0 < sizeof_HeapBlock < 2 ^ 32 →
  0 ≤ ptr → sizeof_Heap ≤ isize → ptr + isize < 2 ^ 64 →
  Heap_new ram m0 ptr isize = (ram', Some h0) →
  Heap_isConstructed h0 = Some true →
  Forall (λ n, 0 ≤ n < 2 ^ 64) sizes →
  allocs h0 sizes = Some (ps, h1) →
  Forall (λ p, p ≠ NULLPTR) ps →
  ps ≡ₚ qs →
  ∃ h2, frees h1 qs = Some h2 ∧
        single_free_block h2 (size (data_ h0) - sizeof_HeapBlock).
Proof.
  intros HSH HHB Hptr Hle Hend Hnew Hcons Hsizes Hallocs Hps Hperm.
  assert (inv h0 []) as Hinv0.
  { apply inv_reachable. by eapply reach_new. }
  destruct (allocs_inv _ _ _ _ _ Hinv0 Hsizes Hallocs Hps) as [Hinv1 Hdata1].
  rewrite app_nil_r in Hinv1.
  destruct (frees_inv qs _ _ Hinv1 Hperm) as (h2 & Hfrees & Hinv2 & Hdata2).
  exists h2. split; [done|].
  rewrite <- Hdata1, <- Hdata2. by apply inv_nil_single.
Qed.

(** ** Payload addresses *)

Lemma heapBlock_data a : 0 ≤ a < 2 ^ 64 → heapBlock (data a) = a.
Proof.
  intros Ha. unfold heapBlock, data, wrap.
  rewrite Zminus_mod_idemp_l.
  replace (a + sizeof_HeapBlock - sizeof_HeapBlock) with a by lia.
  by apply Z.mod_small.
Qed.

Lemma data_heapBlock p : 0 ≤ p < 2 ^ 64 → data (heapBlock p) = p.
Proof.
  intros Hp. unfold heapBlock, data, wrap.
  rewrite Zplus_mod_idemp_l.
  replace (p - sizeof_HeapBlock + sizeof_HeapBlock) with p by lia.
  by apply Z.mod_small.
Qed.

Lemma chain_lookup h l1 b l2 :
  chain h (l1 ++ b :: l2) →
  blocks h !! (base h + span l1)
  = Some (header_of (self h) (last_addr NULLPTR (base h) l1)
            (base h + span l1) b (follows l2 false)) ∧
  0 < base h + span l1 ∧
  base h + span l1 + sizeof_HeapBlock + a_cap b < 2 ^ 64.
Proof.
  intros (Hkey & HB & HB8 & Hb & Hb8 & Hsize & Hend & Hne & Hok & Hseg).
  apply seg_app in Hseg as [_ [Hhd _]].
  apply Forall_app in Hok as [Hok1 Hok2].
  apply Forall_cons in Hok2 as [_ Hok2].
  pose proof (span_nonneg _ HB Hok1). pose proof (span_nonneg _ HB Hok2).
  rewrite span_app in Hend. simpl in Hend.
  split; [done|lia].
Qed.

Lemma align8_excess n : 0 ≤ n < 2 ^ 64 → n ≠ 0 → align8 n - n < 8.
Proof.
  intros Hn Hn0. destruct (Z_le_gt_dec n (2 ^ 64 - 8)).
  - pose proof (align8_round_up n). lia.
  - rewrite align8_wraps by lia. lia.
Qed.

(** What a successful [allocate(n, NULLPTR)] leaves at the address it
    returns. *)
Lemma allocate_block h outs n p h' :
  reachable h outs → 0 ≤ n < 2 ^ 64 →
  Heap_allocate h n NULLPTR = Some (p, h') → p ≠ NULLPTR →
  ∃ a b, blocks h' !! a = Some b ∧ isUsed b = true ∧
         0 < a ∧ p = a + sizeof_HeapBlock ∧ p < 2 ^ 64 ∧
         Heap_isConstructed h' = Some true ∧
         align8 n ≤ size_ b ∧ size_ b - n < sizeof_HeapBlock.
Proof.
  intros Hr Hn Halloc Hp.
  destruct (inv_reachable _ _ Hr) as (l & Hchain & _).
  destruct (allocate_chain h l n Hchain Hn)
    as [[Hnull _]|(l1 & b & l2 & h1 & -> & Hn0 & Hl1 & Hfit & Halloc'
                   & Hchain' & Hself & _)].
  { rewrite Hnull in Halloc. by injection Halloc as <- _. }
  rewrite Halloc' in Halloc. injection Halloc as <- <-.
  pose proof (constructed_chain _ _ Hchain') as Hcons.
  pose proof Hchain as (_ & HB & HB8 & _ & _ & _ & _ & _ & Hok & _).
  apply Forall_app in Hok as [_ Hok].
  apply Forall_cons in Hok as [[Hcap Hcap8] _].
  apply skipped_false in Hfit as [Hb Hbig].
  pose proof (align8_excess n Hn Hn0) as Hex.
  pose proof (align8_aligned n) as Hsz8.
  pose proof (proj1 (chain_lookup _ _ _ _ Hchain)) as Hold.
  pose proof (proj2 (chain_lookup _ _ _ _ Hchain)) as [Hpos Hup].
  exists (base h + span l1). unfold cut in Hchain'.
  assert (base h1 = base h) as Hbase by (unfold base; by rewrite Hself).
  destruct (Z.leb_spec (align8 n + sizeof_HeapBlock) (a_cap b)) as [Hc|Hc];
    simpl in Hchain';
    destruct (chain_lookup _ _ _ _ Hchain') as (Hlk & _);
    rewrite Hbase in Hlk; eexists; (split; [exact Hlk|]); simpl;
    repeat split; try done; try lia.
  all: pose proof (Z.div_mod (a_cap b) 8);
    pose proof (Z.div_mod (align8 n) 8);
    pose proof (Z.div_mod sizeof_HeapBlock 8); lia.
Qed.

(** C6.  The block a successful allocation of [n] bytes marks used has a
    capacity that exceeds [n] by less than one header; and it holds [n]
    bytes, unless [n] is within eight of the largest [size_t]. *)
Theorem fragmentation_bound h outs n p h' :
  reachable h outs → 0 ≤ n < 2 ^ 64 →
  Heap_allocate h n NULLPTR = Some (p, h') → p ≠ NULLPTR →
  ∃ b, blocks h' !! heapBlock p = Some b ∧ isUsed b = true ∧
       size_ b - n < sizeof_HeapBlock ∧
       (n ≤ 2 ^ 64 - 8 → n ≤ size_ b).
Proof.
  intros Hr Hn Halloc Hp.
  destruct (allocate_block _ _ _ _ _ Hr Hn Halloc Hp)
    as (a & b & Hb & Hused & Ha & -> & Hlt & _ & Hfit & Hfrag).
  exists b. unfold heapBlock.
  replace (a + sizeof_HeapBlock - sizeof_HeapBlock) with a by lia.
  pose proof (inv_reachable _ _ Hr) as (l & (_ & HB & _) & _).
  rewrite wrap_small by lia. repeat split; try done.
  intros Hsmall. pose proof (align8_round_up n). lia.
Qed.

(** C10.  The address a successful allocation returns is the address of
    the block it marked used plus the header size; [heapBlock] takes it
    back to that block and [data] takes the block to it; so [Heap::free]
    of that address is [HeapBlock::free] on that very block. *)
Theorem payload_and_block_are_inverse h outs n p h' :
  reachable h outs → 0 ≤ n < 2 ^ 64 →
  Heap_allocate h n NULLPTR = Some (p, h') → p ≠ NULLPTR →
  ∃ a b, blocks h' !! a = Some b ∧ isUsed b = true ∧
         p = a + sizeof_HeapBlock ∧
         data a = p ∧ heapBlock p = a ∧
         heapBlock (data a) = a ∧ data (heapBlock p) = p ∧
         Heap_free h' p = HeapBlock_free h' a.
Proof.
  intros Hr Hn Halloc Hp.
  destruct (allocate_block _ _ _ _ _ Hr Hn Halloc Hp)
    as (a & b & Hb & Hused & Ha & -> & Hlt & Hcons & _).
  pose proof (inv_reachable _ _ Hr) as (l & (_ & HB & _) & _).
  assert (data a = a + sizeof_HeapBlock) as Hdata.
  { unfold data. by rewrite wrap_small by lia. }
  assert (heapBlock (a + sizeof_HeapBlock) = a) as Hblock.
  { rewrite <- Hdata. apply heapBlock_data. lia. }
  exists a, b. repeat split; try done.
  - by rewrite Hdata.
  - by rewrite Hblock.
  - unfold Heap_free.
    destruct (Z.eqb_spec (a + sizeof_HeapBlock) NULLPTR) as [|_]; [done|].
    rewrite Hcons. simpl. by rewrite Hblock.
Qed.

(** ** The four outcomes of [HeapBlock::free] *)

Lemma free_block_chain h l1 c l2 :
  chain h (l1 ++ ABlock c true :: l2) →
  ∃ h', HeapBlock_free h (base h + span l1) = Some h' ∧
        chain h' (coalesce l1 c l2).
Proof.
  intros Hchain.
  destruct (free_chain _ _ _ _ Hchain) as (m' & Hfree & Hseg').
  destruct Hchain
    as (Hkey & HB & HB8 & Hb & Hb8 & Hsize & Hend & Hne & Hok & Hseg).
  exists (set_blocks m' h). split; [done|].
  unfold chain, base in *. simpl. rewrite span_coalesce.
  repeat split; try done.
  - apply coalesce_nonempty.
  - by apply ok_coalesce.
Qed.

Lemma coalesce_both l0 cp c cn l3 :
  coalesce (l0 ++ [ABlock cp false]) c (ABlock cn false :: l3)
  = l0 ++ ABlock (cp + c + cn + 2 * sizeof_HeapBlock) false :: l3.
Proof.
  unfold coalesce. simpl. rewrite last_snoc, removelast_last.
  do 3 f_equal. lia.
Qed.

Lemma coalesce_prev l0 cp c l2 :
  head_used l2 = true →
  coalesce (l0 ++ [ABlock cp false]) c l2
  = l0 ++ ABlock (cp + c + sizeof_HeapBlock) false :: l2.
Proof.
  intros Hl2. unfold coalesce.
  destruct l2 as [|[cn []] l2]; try done; simpl;
    rewrite last_snoc, removelast_last; do 3 f_equal; lia.
Qed.

Lemma coalesce_next l1 c cn l3 :
  last_used l1 = true →
  coalesce l1 c (ABlock cn false :: l3)
  = l1 ++ ABlock (c + cn + sizeof_HeapBlock) false :: l3.
Proof.
  unfold coalesce, last_used. simpl.
  destruct (last l1) as [[cp []]|]; try done; intros _; do 3 f_equal; lia.
Qed.

Lemma coalesce_none l1 c l2 :
  last_used l1 = true → head_used l2 = true →
  coalesce l1 c l2 = l1 ++ ABlock c false :: l2.
Proof.
  unfold coalesce, last_used.
  destruct l2 as [|[cn []] l2]; try done; simpl;
    destruct (last l1) as [[cp []]|]; done.
Qed.

(** C2.  [free] on a used block of a chain, of capacity [c], between the
    blocks [l1] and [l2], applies exactly one of four outcomes, by the
    flags of the two neighbours (an absent neighbour counts as used):
    both free, the predecessor takes in the block and its successor, with
    two headers, and is linked to what followed the successor; only the
    predecessor free, it takes in the block with one header; only the
    successor free, the block takes it in with one header and becomes
    free; none free, the block becomes free. *)
Theorem free_four_outcomes h l1 c l2 :
  chain h (l1 ++ ABlock c true :: l2) →
  ∃ h', HeapBlock_free h (base h + span l1) = Some h' ∧
    (∀ l0 cp cn l3,
       l1 = l0 ++ [ABlock cp false] → l2 = ABlock cn false :: l3 →
       chain h' (l0 ++ ABlock (cp + c + cn + 2 * sizeof_HeapBlock) false
                         :: l3)) ∧
    (∀ l0 cp,
       l1 = l0 ++ [ABlock cp false] → head_used l2 = true →
       chain h' (l0 ++ ABlock (cp + c + sizeof_HeapBlock) false :: l2)) ∧
    (∀ cn l3,
       last_used l1 = true → l2 = ABlock cn false :: l3 →
       chain h' (l1 ++ ABlock (c + cn + sizeof_HeapBlock) false :: l3)) ∧
    (last_used l1 = true → head_used l2 = true →
       chain h' (l1 ++ ABlock c false :: l2)).
Proof.
  intros Hchain.
  destruct (free_block_chain _ _ _ _ Hchain) as (h' & Hfree & Hchain').
  exists h'. split; [done|]. split; [|split; [|split]].
  - intros l0 cp cn l3 -> ->. by rewrite coalesce_both in Hchain'.
  - intros l0 cp -> Hl2. by rewrite coalesce_prev in Hchain'.
  - intros cn l3 Hl1 ->. by rewrite coalesce_next in Hchain'.
  - intros Hl1 Hl2. by rewrite coalesce_none in Hchain'.
Qed.

(** ** Calls that change nothing *)

(** C7.  [free] returns with the heap and every block as they were: when
    the address is null; when the region is not constructed; and, in
    [HeapBlock::free], when the tag of the block or the check of the
    owning region fails, also when it is reached through [Heap::free]. *)
Theorem free_is_noop :
  (∀ h, Heap_free h NULLPTR = Some h) ∧
  (∀ h p, Heap_isConstructed h = Some false → Heap_free h p = Some h) ∧
  (∀ h this t,
     blocks h !! this = Some t → HeapBlock_isConstructed t = false →
     HeapBlock_free h this = Some h) ∧
  (∀ h this t,
     blocks h !! this = Some t → heap_ t = self h →
     Heap_isConstructed h = Some false →
     HeapBlock_free h this = Some h) ∧
  (∀ h p t,
     blocks h !! heapBlock p = Some t → HeapBlock_isConstructed t = false →
     Heap_isConstructed h = Some true →
     Heap_free h p = Some h).
Proof.
  split; [done|]. split; [|split; [|split]].
  - intros h p Hc. unfold Heap_free. rewrite Hc.
    by destruct (p =? NULLPTR).
  - intros h this t Ht Hkey. unfold HeapBlock_free, canDelete.
    rewrite Ht. simpl. by rewrite Hkey.
  - intros h this t Ht Hheap Hc. unfold HeapBlock_free, canDelete.
    rewrite Ht. simpl. rewrite Hheap, Z.eqb_refl, Hc.
    by destruct (HeapBlock_isConstructed t).
  - intros h p t Ht Hkey Hc. unfold Heap_free. rewrite Hc. simpl.
    unfold HeapBlock_free, canDelete. rewrite Ht. simpl. rewrite Hkey.
    by destruct (p =? NULLPTR).
Qed.

(** C8, amended.  On a constructed region, [allocate] with a non-null
    pointer argument returns that pointer and the heap as it was,
    whatever the size: no block is changed.  Of the blocks the call reads
    the tag of the first one, in [isConstructed()], and nothing else: it
    returns the same over every other store of blocks whose first block
    carries that tag. *)
Theorem allocate_passes_pointer_through h n p :
  Heap_isConstructed h = Some true → p ≠ NULLPTR →
  Heap_allocate h n p = Some (p, h) ∧
  ∀ m b b',
    blocks h !! getFirstBlock h = Some b →
    m !! getFirstBlock h = Some b' → key_ b' = key_ b →
    Heap_allocate (set_blocks m h) n p = Some (p, set_blocks m h).
Proof.
  intros Hc Hp.
  assert (∀ g, Heap_isConstructed g = Some true →
               Heap_allocate g n p = Some (p, g)) as Hpass.
  { intros g Hg. unfold Heap_allocate.
    rewrite Hg. cbn [mbind option_bind negb].
    destruct (Z.eqb_spec p NULLPTR) as [Hnull|_]; [|reflexivity].
    by destruct Hp. }
  split; [by apply Hpass|].
  intros m b b' Hb Hb' Hkey. apply Hpass.
  unfold Heap_isConstructed in Hc |- *.
  change (key (data_ (set_blocks m h))) with (key (data_ h)).
  change (getFirstBlock (set_blocks m h)) with (getFirstBlock h).
  destruct (negb (key (data_ h) =? HEAP_KEY)); [done|].
  rewrite Hb in Hc. cbn [blocks set_blocks]. rewrite Hb'.
  simpl in Hc |- *. unfold HeapBlock_isConstructed in Hc |- *.
  by rewrite Hkey.
Qed.

(** On a region that is not constructed [allocate] returns [NULLPTR]. *)
Lemma allocate_not_constructed h n p :
  Heap_isConstructed h = Some false →
  Heap_allocate h n p = Some (NULLPTR, h).
Proof. intros Hc. unfold Heap_allocate. by rewrite Hc. Qed.

(** ** First fit *)

(** X1.  [allocate(n, NULLPTR)] on a constructed region whose chain is [l].
    The request is aligned by [align8], which rounds up to a multiple of eight
    unless [n] is within eight of the largest [size_t].  The blocks that
    are used or smaller than the aligned request are passed; when none is
    left the call returns [NULLPTR] and changes nothing; otherwise the
    first other block [b] is marked used and its payload address
    returned, and [b] is cut when its capacity holds the aligned request
    and one header: it keeps the aligned request, and a new free block
    after it takes the rest less one header. *)
Theorem allocate_first_fit h l n :
  chain h l → 0 ≤ n < 2 ^ 64 →
  align8 n mod 8 = 0 ∧
  (n ≤ 2 ^ 64 - 8 → n ≤ align8 n < n + 8) ∧
  ((Heap_allocate h n NULLPTR = Some (NULLPTR, h) ∧
    (n = 0 ∨ Forall (λ x, skipped (align8 n) x = true) l)) ∨
   (∃ l1 b l2 h',
      l = l1 ++ b :: l2 ∧ n ≠ 0 ∧
      Forall (λ x, skipped (align8 n) x = true) l1 ∧
      skipped (align8 n) b = false ∧
      Heap_allocate h n NULLPTR
        = Some (base h + span l1 + sizeof_HeapBlock, h') ∧
      chain h'
        (l1 ++ (if align8 n + sizeof_HeapBlock <=? a_cap b
                then [ABlock (align8 n) true;
                      ABlock (a_cap b - align8 n - sizeof_HeapBlock) false]
                else [ABlock (a_cap b) true]) ++ l2))).
Proof.
  intros Hchain Hn. split; [apply align8_aligned|].
  split; [intros; apply align8_round_up; lia|].
  destruct (allocate_chain h l n Hchain Hn)
    as [Hnull|(l1 & b & l2 & h' & Hl & Hn0 & Hl1 & Hfit & Halloc
               & Hchain' & _)].
  - by left.
  - right. by exists l1, b, l2, h'.
Qed.

(** ** Construction that fails *)

Lemma Heap_ctor_fails ram m0 this isize tg :
  let sz := wrap (Z.land isize (Z.lnot 0x7) - sizeof_Heap) in
  let r := Heap_ctor ram m0 this isize tg in
  self r.2 = this ∧ size (data_ r.2) = sz ∧
  (sz < wrap (sizeof_HeapBlock + 16) →
   Heap_isConstructed r.2 = Some false) ∧
  ((isMemoryAvailable ram (wrap (this + sizeof_Heap)) sz).1 = false →
   Heap_isConstructed r.2 = Some false).
Proof.
  intros sz r. subst r. unfold Heap_ctor, construct, HeapData_ctor.
  simpl. fold sz.
  destruct (Z.gtb_spec (wrap (sizeof_HeapBlock + 16)) sz) as [Hsmall|Hbig];
    [by simpl|].
  destruct (negb (Z.land sizeof_Heap 7 =? 0));
    [simpl; repeat split; (done || lia)|].
  destruct (negb (Z.land sizeof_HeapBlock 7 =? 0));
    [simpl; repeat split; (done || lia)|].
  destruct (isMemoryAvailable ram _ sz) as [ok ram1].
  destruct ok; [|simpl; repeat split; (done || lia)].
  simpl. destruct (HeapBlock_new m0 _ this sz) as [p m1]. simpl.
  destruct (negb (p =? NULLPTR)); simpl; repeat split; (done || lia).
Qed.

(** X2.  Construction fails.  For an address that is not a multiple of
    eight [operator new] returns [NULLPTR].  Where it returns an address
    and the constructor runs, the object is not constructed when the
    usable size the constructor computed is below one header and sixteen
    bytes, or when the self-test of the usable range fails.  On an object
    that is not constructed [allocate] returns [NULLPTR] and [free]
    changes nothing. *)
Theorem construction_failures ram m0 ptr isize :
  let sz := wrap (Z.land isize (Z.lnot 0x7) - sizeof_Heap) in
  (ptr mod 8 ≠ 0 → (Heap_operator_new ram ptr).2 = NULLPTR) ∧
  (∀ h, (Heap_new ram m0 ptr isize).2 = Some h →
     self h = ptr ∧ size (data_ h) = sz ∧
     (sz < wrap (sizeof_HeapBlock + 16) →
      Heap_isConstructed h = Some false) ∧
     ((isMemoryAvailable (create ram ptr).1 (wrap (ptr + sizeof_Heap)) sz).1
        = false →
      Heap_isConstructed h = Some false)) ∧
  (∀ h n p, Heap_isConstructed h = Some false →
     Heap_allocate h n p = Some (NULLPTR, h) ∧ Heap_free h p = Some h).
Proof.
  intros sz. split; [|split].
  - intros Hp. unfold Heap_operator_new, create.
    destruct (Z.eqb_spec ptr NULLPTR) as [->|_]; [done|].
    destruct (isMemoryAvailable ram _ sizeof_Heap) as [ok ram1].
    destruct (negb (Z.land sizeof_Heap 7 =? 0)), ok; simpl; try done.
    rewrite aligned_test, bool_decide_eq_false_2 by done. done.
  - intros h. unfold Heap_new, Heap_operator_new.
    destruct (Z.eqb_spec ptr NULLPTR) as [->|Hp0]; [done|].
    destruct (create ram ptr) as [ram1 mem] eqn:Hcreate.
    destruct (Z.eqb_spec mem NULLPTR) as [|Hmem]; [done|].
    assert (mem = ptr) as ->.
    { unfold create in Hcreate.
      destruct (isMemoryAvailable ram _ sizeof_Heap) as [ok ram2].
      injection Hcreate as _ <-.
      by destruct (negb (Z.land sizeof_Heap 7 =? 0)), ok; simpl in *;
        try done; destruct (negb (Z.land ptr 7 =? 0)). }
    pose proof (Heap_ctor_fails ram1 m0 ptr isize NULLPTR) as Hctor.
    destruct (Heap_ctor ram1 m0 ptr isize NULLPTR) as [ram3 h3].
    simpl in *. intros [= <-]. exact Hctor.
  - intros h n p Hc. split; [by apply allocate_not_constructed|].
    unfold Heap_free. rewrite Hc. by destruct (p =? NULLPTR).
Qed.

(** ** Calls return *)

(** On a reachable heap [allocate] returns for every size and pointer, and
    [free] for [NULLPTR] and for every outstanding address: the scan ends
    and no header is read outside the store. *)
Lemma allocate_returns h outs n p :
  reachable h outs → 0 ≤ n < 2 ^ 64 →
  ∃ r, Heap_allocate h n p = Some r.
Proof.
  intros Hr Hn. destruct (inv_reachable _ _ Hr) as (l & Hchain & _).
  destruct (Z.eq_dec p NULLPTR) as [->|Hp].
  - destruct (allocate_chain h l n Hchain Hn)
      as [[Hnull _]|(l1 & b & l2 & h' & _ & _ & _ & _ & Halloc & _)]; eauto.
  - exists (p, h). apply allocate_given; [|done].
    by eapply constructed_chain.
Qed.

Lemma free_returns h outs p :
  reachable h outs → p = NULLPTR ∨ p ∈ outs →
  ∃ h', Heap_free h p = Some h'.
Proof.
  intros Hr [->|Hin]; [by exists h|].
  apply elem_of_Permutation in Hin as [outs' Houts].
  destruct (inv_free h outs outs' p (inv_reachable _ _ Hr) Houts)
    as (h' & Hfree & _).
  by exists h'.
Qed.

Lemma allocs_return sizes : ∀ h outs,
  inv h outs → Forall (λ n, 0 ≤ n < 2 ^ 64) sizes →
  ∃ r, allocs h sizes = Some r.
Proof.
  induction sizes as [|n sizes IH]; intros h outs Hinv Hsizes; [by eexists|].
  apply Forall_cons in Hsizes as [Hn Hsizes].
  destruct Hinv as (l & Hchain & Hnaf & Hperm).
  assert (∃ r, Heap_allocate h n NULLPTR = Some r) as [r Hr].
  { destruct (allocate_chain h l n Hchain Hn)
      as [[Hnull _]|(l1 & b & l2 & h' & _ & _ & _ & _ & Halloc & _)]; eauto. }
  assert (inv h outs) as Hinv by (by exists l).
  destruct (inv_allocate _ _ _ _ Hinv Hn Hr) as [Hinv' _].
  destruct (IH _ _ Hinv' Hsizes) as [r' Hr'].
  simpl. rewrite Hr. simpl. rewrite Hr'. by eexists.
Qed.

(** ** Construction that succeeds *)


(** ** Outstanding allocations *)

Lemma span_prefix l1 : ∀ b l2 l1' b' l2',
  0 < sizeof_HeapBlock → Forall ok_block (l1 ++ b :: l2) →
  l1 ++ b :: l2 = l1' ++ b' :: l2' →
  span l1 < span l1' →
  span l1 + sizeof_HeapBlock + a_cap b ≤ span l1'.
Proof.
  induction l1 as [|x l1 IH]; intros b l2 l1' b' l2' HB Hok Heq Hlt.
  - destruct l1' as [|x' l1']; simpl in *; [lia|].
    injection Heq as <- ->.
    apply Forall_cons in Hok as [_ Hok].
    apply Forall_app in Hok as [Hok _].
    pose proof (span_nonneg _ HB Hok). lia.
  - simpl in Hok. apply Forall_cons in Hok as [[Hx _] Hok].
    destruct l1' as [|x' l1']; simpl in *.
    + apply Forall_app in Hok as [Hok _].
      pose proof (span_nonneg _ HB Hok). lia.
    + injection Heq as <- Heq.
      pose proof (IH _ _ _ _ _ HB Hok Heq). lia.
Qed.

Lemma used_ptrs_NoDup l : ∀ a,
  0 < sizeof_HeapBlock → Forall ok_block l → NoDup (used_ptrs a l).
Proof.
  induction l as [|b l IH]; intros a HB Hok; simpl; [constructor|].
  apply Forall_cons in Hok as [[Hb _] Hok].
  destruct (a_used b); simpl; [|by apply IH].
  constructor; [|by apply IH].
  intros Hin%used_ptrs_bounds; [lia|done..].
Qed.

(** The header behind an outstanding address. *)
Lemma outstanding_lookup h l p :
  chain h l → p ∈ used_ptrs (base h) l →
  ∃ l1 c l2, l = l1 ++ ABlock c true :: l2 ∧
    p = base h + span l1 + sizeof_HeapBlock ∧
    heapBlock p = base h + span l1 ∧
    blocks h !! heapBlock p
    = Some (header_of (self h) (last_addr NULLPTR (base h) l1)
              (base h + span l1) (ABlock c true) (follows l2 false)) ∧
    0 ≤ span l1 ∧ span l1 mod 8 = 0 ∧ 0 ≤ c ∧
    span l1 + sizeof_HeapBlock + c ≤ span l.
Proof.
  intros Hchain (l1 & c & l2 & -> & ->)%used_ptrs_split.
  destruct (chain_lookup _ _ _ _ Hchain) as (Hlk & Hpos & Hup).
  destruct Hchain
    as (Hkey & HB & HB8 & Hb & Hb8 & Hsize & Hend & Hne & Hok & Hseg).
  apply Forall_app in Hok as [Hok1 Hok2].
  apply Forall_cons in Hok2 as [[Hc _] Hok2]. simpl in Hc.
  pose proof (span_nonneg _ HB Hok1). pose proof (span_nonneg _ HB Hok2).
  assert (heapBlock (base h + span l1 + sizeof_HeapBlock)
          = base h + span l1) as Hhb.
  { unfold heapBlock.
    replace (base h + span l1 + sizeof_HeapBlock - sizeof_HeapBlock)
      with (base h + span l1) by lia.
    apply wrap_small. simpl in Hup. lia. }
  exists l1, c, l2. rewrite Hhb, span_app. simpl.
  repeat split; try done; try lia.
  by apply span_aligned.
Qed.

(** X4.  The outstanding allocations of a reachable heap are distinct;
    each is the payload of a used block, starts at a multiple of eight
    and lies, with the capacity of its block, within the usable range of
    the region; and the payload of one ends before the header of the
    next one starts. *)
Theorem outstanding_disjoint h outs :
  reachable h outs →
  NoDup outs ∧
  (∀ p, p ∈ outs →
     ∃ b, blocks h !! heapBlock p = Some b ∧ isUsed b = true ∧
          p mod 8 = 0 ∧
          getFirstBlock h + sizeof_HeapBlock ≤ p ∧
          p + size_ b ≤ getFirstBlock h + size (data_ h)) ∧
  (∀ p q b, p ∈ outs → q ∈ outs → p < q →
     blocks h !! heapBlock p = Some b → p + size_ b ≤ heapBlock q).
Proof.
  intros Hr. destruct (inv_reachable _ _ Hr) as (l & Hchain & _ & Hperm).
  pose proof Hchain
    as (Hkey & HB & HB8 & Hb & Hb8 & Hsize & Hend & Hne & Hok & Hseg).
  pose proof (span_nonneg _ HB Hok) as Hs.
  assert (getFirstBlock h = base h) as Hfirst.
  { unfold getFirstBlock. fold (base h). apply wrap_small. lia. }
  rewrite Hfirst. split; [|split].
  - rewrite <- Hperm. by apply used_ptrs_NoDup.
  - intros p Hp. rewrite <- Hperm in Hp.
    destruct (outstanding_lookup _ _ _ Hchain Hp)
      as (l1 & c & l2 & -> & -> & _ & Hlk & Hs1 & Hs8 & Hc & Hin).
    eexists. split; [exact Hlk|]. simpl.
    split; [done|]. split; [|lia].
    rewrite <- Z.add_assoc, Z.add_mod, Hb8 by lia.
    rewrite (Z.add_mod (span l1)), Hs8, HB8 by lia. done.
  - intros p q b Hp Hq Hlt Hlk. rewrite <- Hperm in Hp, Hq.
    destruct (outstanding_lookup _ _ _ Hchain Hp)
      as (l1 & c & l2 & Hl & -> & _ & Hlk' & _).
    destruct (outstanding_lookup _ _ _ Hchain Hq)
      as (l1' & c' & l2' & Hl' & -> & -> & _).
    rewrite Hlk' in Hlk. injection Hlk as <-. simpl.
    rewrite Hl in Hok.
    pose proof (span_prefix l1 (ABlock c true) l2 l1' (ABlock c' true) l2'
                  HB Hok) as Hpre.
    simpl in Hpre. rewrite <- Hl, <- Hl' in Hpre.
    specialize (Hpre eq_refl). lia.
Qed.

(** ** The blocks tile the usable range *)

Lemma seg_tiles m heap l : ∀ prev a,
  0 < sizeof_HeapBlock → sizeof_HeapBlock mod 8 = 0 →
  0 < a → a mod 8 = 0 → Forall ok_block l →
  seg m heap prev a l false →
  ∀ x b, x ∈ addrs a l → m !! x = Some b →
    key_ b = BLOCK_KEY ∧ heap_ b = heap ∧
    x mod 8 = 0 ∧ 0 ≤ size_ b ∧ size_ b mod 8 = 0 ∧
    a ≤ x ∧ x + sizeof_HeapBlock + size_ b ≤ a + span l ∧
    (next_ b ≠ NULLPTR →
     next_ b = x + sizeof_HeapBlock + size_ b ∧
     ∃ n, m !! next_ b = Some n ∧ prev_ n = x) ∧
    (next_ b = NULLPTR → x + sizeof_HeapBlock + size_ b = a + span l).
Proof.
  induction l as [|b l IH]; intros prev a HB HB8 Ha Ha8 Hok Hseg x bx Hx Hbx.
  - by apply elem_of_nil in Hx.
  - apply Forall_cons in Hok as [[Hcap Hcap8] Hok].
    pose proof (span_nonneg _ HB Hok).
    destruct Hseg as [Hb Hseg]. simpl in Hx.
    assert ((a + sizeof_HeapBlock + a_cap b) mod 8 = 0) as Hnext8.
    { rewrite Z.add_mod, (Z.add_mod a), Ha8, HB8, Hcap8 by lia. done. }
    apply elem_of_cons in Hx as [->|Hx].
    + rewrite Hb in Hbx. injection Hbx as <-. simpl.
      split_and!; try done; try lia.
      * intros Hn. destruct l as [|b' l]; [done|]. simpl in *.
        destruct Hseg as [Hb' _]. split; [lia|]. eexists. by split.
      * destruct l as [|b' l]; simpl; [lia|]. unfold NULLPTR. lia.
    + destruct (IH a (a + sizeof_HeapBlock + a_cap b) HB HB8
                  ltac:(lia) Hnext8 Hok Hseg x bx Hx Hbx)
        as (? & ? & ? & ? & ? & ? & ? & ? & Hlast).
      simpl. split_and!; (done || lia).
Qed.

(** X5.  In a reachable heap the chain starts at the first block, which has
    no predecessor.  Every block of it carries the block tag and the
    address of its heap; it starts at a multiple of eight, its capacity
    is a multiple of eight, and it lies within the usable range; its
    successor, when it has one, starts where its payload ends and points
    back to it; and the payload of the last block ends where the usable
    range ends. *)
Theorem reachable_tiles_region h outs :
  reachable h outs →
  ∃ p, path (blocks h) (getFirstBlock h) p ∧
    (∃ b, blocks h !! getFirstBlock h = Some b ∧ prev_ b = NULLPTR) ∧
    ∀ a b, a ∈ p → blocks h !! a = Some b →
      key_ b = BLOCK_KEY ∧ heap_ b = self h ∧
      a mod 8 = 0 ∧ 0 ≤ size_ b ∧ size_ b mod 8 = 0 ∧
      getFirstBlock h ≤ a ∧
      data a + size_ b ≤ getFirstBlock h + size (data_ h) ∧
      (next_ b ≠ NULLPTR →
       next_ b = data a + size_ b ∧
       ∃ n, blocks h !! next_ b = Some n ∧ prev_ n = a) ∧
      (next_ b = NULLPTR →
       data a + size_ b = getFirstBlock h + size (data_ h)).
Proof.
  intros Hr. destruct (inv_reachable _ _ Hr) as (l & Hchain & Hnaf & _).
  destruct Hchain
    as (Hkey & HB & HB8 & Hb & Hb8 & Hsize & Hend & Hne & Hok & Hseg).
  pose proof (span_nonneg _ HB Hok) as Hs.
  destruct (seg_well _ _ _ _ _ HB Hb Hok Hnaf Hseg) as (Hpath & _ & _).
  pose proof (seg_tiles _ _ _ _ _ HB HB8 Hb Hb8 Hok Hseg) as Htiles.
  assert (getFirstBlock h = base h) as ->.
  { unfold getFirstBlock. fold (base h). apply wrap_small. lia. }
  exists (addrs (base h) l). split; [by destruct l|]. split.
  - destruct l as [|b l]; [done|]. destruct Hseg as [Hfirst _].
    eexists. by split.
  - intros a b Ha Hlk.
    destruct (Htiles a b Ha Hlk)
      as (? & ? & ? & ? & ? & ? & ? & Hnext & Hlast).
    assert (data a = a + sizeof_HeapBlock) as ->.
    { unfold data. apply wrap_small. lia. }
    rewrite Hsize in Hlast. split_and!; (done || lia).
Qed.

(** ** The used blocks are the outstanding allocations *)

Lemma addrs_app a l1 l2 :
  addrs a (l1 ++ l2) = addrs a l1 ++ addrs (a + span l1) l2.
Proof.
  revert a. induction l1 as [|b l1 IH]; intros a; simpl.
  - by rewrite Z.add_0_r.
  - rewrite IH. do 3 f_equal. lia.
Qed.

Lemma seg_used m heap l : ∀ prev a,
  0 < sizeof_HeapBlock → Forall ok_block l →
  seg m heap prev a l false →
  ∀ x b, x ∈ addrs a l → m !! x = Some b →
    (isUsed b = true ↔ x + sizeof_HeapBlock ∈ used_ptrs a l).
Proof.
  induction l as [|b l IH]; intros prev a HB Hok Hseg x bx Hx Hbx.
  - by apply elem_of_nil in Hx.
  - apply Forall_cons in Hok as Hok'. destruct Hok' as [[Hcap _] Hok'].
    destruct Hseg as [Hb Hseg]. simpl in Hx. simpl used_ptrs.
    rewrite elem_of_app.
    apply elem_of_cons in Hx as [->|Hx].
    + rewrite Hb in Hbx. injection Hbx as <-. rewrite isUsed_header.
      split.
      * intros ->. left. apply list_elem_of_here.
      * intros [Hin|Hin%used_ptrs_bounds]; [|lia|done..].
        destruct (a_used b); [done|by apply elem_of_nil in Hin].
    + rewrite (IH a _ HB Hok' Hseg x bx Hx Hbx).
      pose proof (addrs_lower _ _ _ HB Hok' Hx).
      split; [by right|].
      intros [Hin|Hin]; [|done].
      destruct (a_used b); [|by apply elem_of_nil in Hin].
      apply list_elem_of_singleton in Hin. lia.
Qed.

(** X6.  In a reachable heap a block of the chain is marked used exactly
    when its payload address is outstanding, and the block behind every
    outstanding address is on the chain: nothing the callers hold is
    free, and nothing is used that no caller holds. *)
Theorem used_blocks_are_outstanding h outs :
  reachable h outs →
  ∃ p, path (blocks h) (getFirstBlock h) p ∧
    (∀ a b, a ∈ p → blocks h !! a = Some b →
       (isUsed b = true ↔ data a ∈ outs)) ∧
    (∀ q, q ∈ outs → heapBlock q ∈ p).
Proof.
  intros Hr. destruct (inv_reachable _ _ Hr) as (l & Hchain & Hnaf & Hperm).
  pose proof Hchain
    as (Hkey & HB & HB8 & Hb & Hb8 & Hsize & Hend & Hne & Hok & Hseg).
  pose proof (span_nonneg _ HB Hok) as Hs.
  destruct (seg_well _ _ _ _ _ HB Hb Hok Hnaf Hseg) as (Hpath & _ & _).
  assert (getFirstBlock h = base h) as ->.
  { unfold getFirstBlock. fold (base h). apply wrap_small. lia. }
  exists (addrs (base h) l). split; [by destruct l|]. split.
  - intros a b Ha Hlk.
    destruct (seg_tiles _ _ _ _ _ HB HB8 Hb Hb8 Hok Hseg a b Ha Hlk)
      as (_ & _ & _ & ? & _ & ? & ? & _).
    assert (data a = a + sizeof_HeapBlock) as ->.
    { unfold data. apply wrap_small. lia. }
    rewrite <- Hperm. by eapply seg_used.
  - intros q Hq. rewrite <- Hperm in Hq.
    destruct (outstanding_lookup _ _ _ Hchain Hq)
      as (l1 & c & l2 & -> & _ & -> & _).
    rewrite addrs_app. apply elem_of_app. right. apply list_elem_of_here.
Qed.

(** ** An allocation keeps its block *)

Lemma used_blocks_app a l1 l2 :
  used_blocks a (l1 ++ l2) = used_blocks a l1 ++ used_blocks (a + span l1) l2.
Proof.
  revert a. induction l1 as [|b l1 IH]; intros a; simpl.
  - by rewrite Z.add_0_r.
  - rewrite IH, <- app_assoc. do 3 f_equal. lia.
Qed.

Lemma used_blocks_split a l q c :
  (q, c) ∈ used_blocks a l →
  ∃ l1 l2, l = l1 ++ ABlock c true :: l2 ∧
           q = a + span l1 + sizeof_HeapBlock.
Proof.
  revert a. induction l as [|[c' u] l IH]; intros a; simpl.
  - by intros ?%elem_of_nil.
  - intros [Hx|Hx]%elem_of_app.
    + destruct u; [|by apply elem_of_nil in Hx].
      apply list_elem_of_singleton in Hx. injection Hx as -> ->.
      exists [], l. simpl. split; [done|lia].
    + apply IH in Hx as (l1 & l2 & -> & ->).
      exists (ABlock c' u :: l1), l2. simpl. split; [done|lia].
Qed.

Lemma used_blocks_ptr a l q c :
  (q, c) ∈ used_blocks a l → q ∈ used_ptrs a l.
Proof.
  intros (l1 & l2 & -> & ->)%used_blocks_split.
  rewrite used_ptrs_used. apply elem_of_app. right. apply list_elem_of_here.
Qed.

Lemma used_blocks_cut a sz l1 c l2 :
  used_blocks a (l1 ++ cut sz (ABlock c false) ++ l2)
  = used_blocks a l1
    ++ (a + span l1 + sizeof_HeapBlock,
        if sz + sizeof_HeapBlock <=? c then sz else c)
    :: used_blocks (a + span l1 + sizeof_HeapBlock + c) l2.
Proof.
  rewrite used_blocks_app. f_equal. unfold cut. simpl.
  destruct (_ <=? _); simpl; repeat (f_equal; try lia).
Qed.

Lemma used_blocks_free a l1 c l2 :
  used_blocks a (l1 ++ ABlock c false :: l2)
  = used_blocks a l1 ++ used_blocks (a + span l1 + sizeof_HeapBlock + c) l2.
Proof. rewrite used_blocks_app. simpl. repeat (f_equal; try lia). Qed.

Lemma used_blocks_used a l1 c l2 :
  used_blocks a (l1 ++ ABlock c true :: l2)
  = used_blocks a l1
    ++ (a + span l1 + sizeof_HeapBlock, c)
    :: used_blocks (a + span l1 + sizeof_HeapBlock + c) l2.
Proof. rewrite used_blocks_app. simpl. repeat (f_equal; try lia). Qed.

Lemma used_blocks_coalesce a l1 c l2 :
  used_blocks a (coalesce l1 c l2)
  = used_blocks a l1
    ++ used_blocks (a + span l1 + sizeof_HeapBlock + c) l2.
Proof.
  unfold coalesce.
  destruct (snoc_cases l1) as [->|(l0 & [cp up] & ->)].
  - simpl. rewrite Z.add_0_r.
    destruct l2 as [|[cn []] l2]; simpl; try done.
    f_equal. lia.
  - rewrite last_snoc, removelast_last.
    destruct l2 as [|[cn []] l2], up; simpl;
      rewrite ?used_blocks_app; simpl; rewrite ?used_blocks_app; simpl;
      rewrite ?span_app; simpl; rewrite ?app_nil_r, <- ?app_assoc; simpl;
      repeat (f_equal; try lia).
Qed.

(** The header behind a used block of a chain. *)
Lemma used_blocks_lookup h l q c :
  chain h l → (q, c) ∈ used_blocks (base h) l →
  ∃ b, blocks h !! heapBlock q = Some b ∧ isUsed b = true ∧ size_ b = c.
Proof.
  intros Hchain (l1 & l2 & -> & ->)%used_blocks_split.
  destruct (chain_lookup _ _ _ _ Hchain) as (Hlk & Hpos & Hup).
  destruct Hchain as (_ & HB & _ & _ & _ & _ & _ & _ & Hok & _).
  apply Forall_app in Hok as [_ Hok].
  apply Forall_cons in Hok as [[Hc _] _]. simpl in Hup, Hc.
  unfold heapBlock.
  replace (base h + span l1 + sizeof_HeapBlock - sizeof_HeapBlock)
    with (base h + span l1) by lia.
  rewrite wrap_small by lia. eexists. by split; [exact Hlk|].
Qed.

Lemma lookup_used_blocks h l q b :
  chain h l → q ∈ used_ptrs (base h) l →
  blocks h !! heapBlock q = Some b →
  (q, size_ b) ∈ used_blocks (base h) l.
Proof.
  intros Hchain Hq Hlk.
  destruct (outstanding_lookup _ _ _ Hchain Hq)
    as (l1 & c & l2 & -> & -> & _ & Hlk' & _).
  rewrite Hlk' in Hlk. injection Hlk as <-. simpl.
  rewrite used_blocks_used. apply elem_of_app. right. apply list_elem_of_here.
Qed.

(** X7.  An outstanding allocation keeps its block: after an allocation,
    which returns another address, and after the release of another
    outstanding allocation, the block behind it is marked used and has
    the capacity it had. *)
Theorem allocation_kept h outs q b :
  reachable h outs → q ∈ outs → blocks h !! heapBlock q = Some b →
  (∀ n r, 0 ≤ n < 2 ^ 64 → Heap_allocate h n NULLPTR = Some r →
     r.1 ≠ q ∧
     ∃ b', blocks r.2 !! heapBlock q = Some b' ∧
           isUsed b' = true ∧ size_ b' = size_ b) ∧
  (∀ p h', p ∈ outs → p ≠ q → Heap_free h p = Some h' →
     ∃ b', blocks h' !! heapBlock q = Some b' ∧
           isUsed b' = true ∧ size_ b' = size_ b).
Proof.
  intros Hr Hq Hlk.
  destruct (inv_reachable _ _ Hr) as (l & Hchain & Hnaf & Hperm).
  rewrite <- Hperm in Hq.
  pose proof (lookup_used_blocks _ _ _ _ Hchain Hq Hlk) as Hin.
  pose proof Hchain as (_ & HB & _ & _ & _ & _ & _ & _ & Hok & _).
  split.
  - intros n r Hn Halloc.
    destruct (allocate_chain h l n Hchain Hn)
      as [[Hnull _]|(l1 & b1 & l2 & h1 & -> & Hn0 & Hl1 & Hfit & Halloc'
                     & Hchain' & Hself & _)].
    + rewrite Hnull in Halloc. injection Halloc as <-. simpl. split.
      * apply used_ptrs_bounds in Hq; [|done..].
        destruct Hchain as (_ & _ & _ & Hb & _). unfold NULLPTR. lia.
      * by eapply used_blocks_lookup.
    + rewrite Halloc' in Halloc. injection Halloc as <-. simpl.
      apply skipped_false in Hfit as [Hb1 _]. rewrite Hb1 in *.
      rewrite used_blocks_free in Hin. rewrite used_ptrs_free in Hq.
      split.
      * pose proof Hchain' as (_ & _ & _ & _ & _ & _ & _ & _ & Hok' & _).
        pose proof (used_ptrs_NoDup _ (base h) HB Hok') as Hnd.
        rewrite used_ptrs_cut in Hnd.
        apply NoDup_app in Hnd as (_ & Hnot & Hnd).
        apply NoDup_cons in Hnd as [Hnot' _].
        intros <-. apply elem_of_app in Hq as [Hq|Hq]; [|done].
        apply (Hnot _ Hq). apply list_elem_of_here.
      * apply (used_blocks_lookup h1 _ q (size_ b) Hchain').
        unfold base at 1. rewrite Hself. fold (base h).
        rewrite used_blocks_cut.
        apply elem_of_app in Hin as [Hin|Hin]; apply elem_of_app;
          [by left|right; by apply list_elem_of_further].
  - intros p h' Hp Hpq Hfree. rewrite <- Hperm in Hp.
    apply used_ptrs_split in Hp as (l1 & c & l2 & -> & ->).
    destruct (free_chain_ptr _ _ _ _ Hchain)
      as (h1 & Hfree' & Hchain' & Hself & _).
    rewrite Hfree' in Hfree. injection Hfree as <-.
    apply (used_blocks_lookup h1 _ q (size_ b) Hchain').
    unfold base at 1. rewrite Hself. fold (base h).
    rewrite used_blocks_coalesce. rewrite used_blocks_used in Hin.
    apply elem_of_app in Hin as [Hin|Hin]; apply elem_of_app; [by left|].
    apply elem_of_cons in Hin as [Hin|Hin]; [|by right].
    by injection Hin as -> _.
Qed.

(** ** Allocation and release, one after the other *)

Lemma coalesce_cut l1 sz c l2 :
  no_adj_free (l1 ++ ABlock c false :: l2) = true →
  match cut sz (ABlock c false) with
  | ABlock c' _ :: rest => coalesce l1 c' (rest ++ l2)
  | [] => []
  end = l1 ++ ABlock c false :: l2.
Proof.
  intros Hnaf.
  rewrite no_adj_free_app, no_adj_free_cons in Hnaf.
  apply andb_true_iff in Hnaf as [[_ [Hh _]%andb_true_iff]%andb_true_iff Hl].
  simpl in Hh, Hl. rewrite orb_false_r in Hl.
  unfold cut. simpl. destruct (_ <=? _); simpl.
  - rewrite coalesce_next by done. do 3 f_equal. lia.
  - by rewrite coalesce_none.
Qed.

(** X8.  On a reachable heap, an allocation that succeeds and the release
    of the address it returned leave the chain as it was: the same
    blocks, with the same capacities and flags. *)
Theorem allocate_free_round_trip h outs n p h' :
  reachable h outs → 0 ≤ n < 2 ^ 64 →
  Heap_allocate h n NULLPTR = Some (p, h') → p ≠ NULLPTR →
  ∃ h'' l, Heap_free h' p = Some h'' ∧
           chain h l ∧ chain h'' l ∧
           self h'' = self h ∧ data_ h'' = data_ h.
Proof.
  intros Hr Hn Halloc Hp.
  destruct (inv_reachable _ _ Hr) as (l & Hchain & Hnaf & _).
  destruct (allocate_chain h l n Hchain Hn)
    as [[Hnull _]|(l1 & b & l2 & h1 & -> & Hn0 & Hl1 & Hfit & Halloc'
                   & Hchain' & Hself & Hdata)].
  { rewrite Hnull in Halloc. by injection Halloc as <- _. }
  rewrite Halloc' in Halloc. injection Halloc as <- <-.
  apply skipped_false in Hfit as [Hb _]. rewrite Hb in *.
  pose proof (coalesce_cut l1 (align8 n) (a_cap b) l2 Hnaf) as Hback.
  assert (base h1 = base h) as Hbase by (unfold base; by rewrite Hself).
  destruct (cut (align8 n) (ABlock (a_cap b) false)) as [|[c' u] rest] eqn:Hcut.
  { unfold cut in Hcut. by destruct (_ <=? _). }
  assert (u = true) as ->.
  { unfold cut in Hcut. by destruct (_ <=? _); injection Hcut as _ <- _. }
  rewrite <- app_comm_cons in Hchain'.
  destruct (free_chain_ptr _ _ _ _ Hchain')
    as (h2 & Hfree & Hchain'' & Hself' & Hdata').
  rewrite Hbase in Hfree. rewrite Hback in Hchain''.
  exists h2, (l1 ++ ABlock (a_cap b) false :: l2).
  split; [done|]. split; [done|]. split; [done|]. split; congruence.
Qed.

(** ** Every call on a reachable heap returns *)

(** X9.  A reachable heap is constructed, and on it every call returns:
    [allocate] for every size and pointer, [free] for [NULLPTR] and for
    every outstanding address.  The scan of the chain ends, and no header
    is read outside the store. *)
Theorem reachable_calls_return h outs :
  reachable h outs →
  Heap_isConstructed h = Some true ∧
  (∀ n p, 0 ≤ n < 2 ^ 64 → ∃ r, Heap_allocate h n p = Some r) ∧
  (∀ p, p = NULLPTR ∨ p ∈ outs → ∃ h', Heap_free h p = Some h').
Proof.
  intros Hr. split; [|split].
  - destruct (inv_reachable _ _ Hr) as (l & Hchain & _).
    by eapply constructed_chain.
  - intros n p Hn. by eapply allocate_returns.
  - intros p Hp. by eapply free_returns.
Qed.

(** ** Allocation on a fresh region *)

(** X11.  On a freshly constructed region a request is served exactly when
    it is not zero and its aligned size is at most the usable size less
    one header; the address returned is then the payload of the first
    block, and otherwise the heap is left as it was. *)
Theorem fresh_heap_capacity ram m0 ptr isize ram' h0 n :
  0 < sizeof_Heap < 2 ^ 32 → 0 < sizeof_HeapBlock < 2 ^ 32 →
  0 ≤ ptr → sizeof_Heap ≤ isize → ptr + isize < 2 ^ 64 →
  Heap_new ram m0 ptr isize = (ram', Some h0) →
  Heap_isConstructed h0 = Some true →
  0 ≤ n < 2 ^ 64 →
  let room := isize - isize mod 8 - sizeof_Heap - sizeof_HeapBlock in
  ∃ p h1, Heap_allocate h0 n NULLPTR = Some (p, h1) ∧
    if (n =? 0) || (room <? align8 n)
    then p = NULLPTR ∧ h1 = h0
    else p = ptr + sizeof_Heap + sizeof_HeapBlock.
Proof.
  intros HSH HHB Hptr Hle Hend Hnew Hcons Hn room.
  destruct (new_chain _ _ _ _ _ _ HSH HHB Hptr Hle Hend Hnew Hcons)
    as (Hchain & Hself & Hsize & Hmin).
  assert (size (data_ h0) - sizeof_HeapBlock = room) as Hroom
    by (unfold room; lia).
  rewrite Hroom in Hchain.
  destruct (allocate_chain h0 _ n Hchain Hn)
    as [[Hnull Hwhy]|(l1 & b & l2 & h1 & Hl & Hn0 & Hl1 & Hfit & Halloc & _)].
  - exists NULLPTR, h0. split; [done|].
    destruct Hwhy as [->|Hall]; [done|].
    apply Forall_cons in Hall as [Hskip _]. unfold skipped in Hskip.
    simpl in Hskip. rewrite Hskip. by rewrite orb_true_r.
  - destruct l1 as [|x [|y l1]]; [|by destruct l2|done].
    injection Hl as <- <-. unfold skipped in Hfit. simpl in Hfit.
    rewrite Hfit. destruct (Z.eqb_spec n 0) as [|_]; [done|]. simpl.
    eexists _, h1. split; [exact Halloc|].
    unfold base. simpl. lia.
Qed.

Lemma free_after_used (us : list ablock) : ∀ l1 b l2 t,
  l1 ++ b :: l2 = us ++ [t] →
  Forall (λ x, a_used x = true) us → a_used b = false →
  l1 = us ∧ b = t ∧ l2 = [].
Proof.
  induction us as [|u us IH]; intros l1 b l2 t Heq Hus Hb.
  - destruct l1 as [|x [|y l1]]; simpl in Heq; try done.
    by injection Heq as -> <-.
  - apply Forall_cons in Hus as [Hu Hus].
    destruct l1 as [|x l1]; simpl in Heq; injection Heq as -> Heq.
    + congruence.
    + destruct (IH _ _ _ _ Heq Hus Hb) as (-> & -> & ->). done.
Qed.

(** No allocation succeeds on a chain of used blocks. *)
Lemma allocs_full sizes h us ps h' :
  chain h us → Forall (λ x, a_used x = true) us →
  Forall (λ n, 0 ≤ n < 2 ^ 64) sizes →
  allocs h sizes = Some (ps, h') → Forall (λ p, p ≠ NULLPTR) ps →
  sizes = [] ∧ ps = [].
Proof.
  intros Hchain Hus Hsizes Hrun Hps.
  destruct sizes as [|n sizes]; [by injection Hrun as <- _|].
  apply Forall_cons in Hsizes as [Hn _]. simpl in Hrun.
  destruct (allocate_chain h us n Hchain Hn)
    as [[Hnull _]|(l1 & b & l2 & h1 & -> & _ & _ & Hfit & _)].
  - rewrite Hnull in Hrun. simpl in Hrun.
    destruct (allocs h sizes) as [r'|]; [|done].
    injection Hrun as <- _. by apply Forall_cons in Hps as [? _].
  - apply skipped_false in Hfit as [Hb _].
    apply Forall_app in Hus as [_ Hus].
    apply Forall_cons in Hus as [Hu _]. rewrite Hb in Hu. done.
Qed.

Lemma allocs_bump sizes : ∀ h us r ps h',
  chain h (us ++ [ABlock r false]) → Forall (λ x, a_used x = true) us →
  Forall (λ n, 0 ≤ n < 2 ^ 64) sizes →
  allocs h sizes = Some (ps, h') → Forall (λ p, p ≠ NULLPTR) ps →
  ps = back_to_back (base h + span us + sizeof_HeapBlock)
         (map align8 sizes).
Proof.
  induction sizes as [|n sizes IH]; intros h us r ps h' Hchain Hus Hsizes
    Hrun Hps.
  { by injection Hrun as <- _. }
  apply Forall_cons in Hsizes as [Hn Hsizes]. simpl in Hrun.
  destruct (allocate_chain h _ n Hchain Hn)
    as [[Hnull _]|(l1 & b & l2 & h1 & Hl & _ & _ & Hfit & Halloc
                   & Hchain' & Hself & _)].
  { rewrite Hnull in Hrun. simpl in Hrun.
    destruct (allocs h sizes) as [r'|]; [|done].
    injection Hrun as <- _. by apply Forall_cons in Hps as [? _]. }
  apply skipped_false in Hfit as Hfit'. destruct Hfit' as [Hb Hbig].
  symmetry in Hl.
  destruct (free_after_used _ _ _ _ _ Hl Hus ltac:(by rewrite Hb))
    as (-> & -> & ->).
  rewrite Halloc in Hrun. simpl in Hrun, Hbig, Hchain'.
  destruct (allocs h1 sizes) as [[ps' h'']|] eqn:Hrun'; [|done].
  injection Hrun as <- <-. apply Forall_cons in Hps as [_ Hps].
  simpl. f_equal.
  assert (base h1 = base h) as Hbase by (unfold base; by rewrite Hself).
  rewrite app_nil_r in Hchain'. unfold cut in Hchain'. simpl in Hchain'.
  destruct (Z.leb_spec (align8 n + sizeof_HeapBlock) r) as [Hcut|Hwhole].
  - rewrite (IH h1 (us ++ [ABlock (align8 n) true])
               (r - align8 n - sizeof_HeapBlock) ps' h'');
      try done.
    + rewrite Hbase, span_app. simpl. f_equal. lia.
    + by rewrite <- app_assoc.
    + apply Forall_app. split; [done|]. by repeat constructor.
  - destruct (allocs_full sizes h1 (us ++ [ABlock r true]) ps' h'')
      as [-> ->]; try done.
    apply Forall_app. split; [done|]. by repeat constructor.
Qed.

(** X12.  Whenever nothing is outstanding, on a fresh region as after the
    release of everything that was allocated, allocations that all
    succeed are laid back to back: the first payload follows the header
    of the first block, and each further one follows the aligned size of
    the request before it and one header. *)
Theorem allocations_back_to_back h sizes ps h1 :
  reachable h [] →
  Forall (λ n, 0 ≤ n < 2 ^ 64) sizes →
  allocs h sizes = Some (ps, h1) →
  Forall (λ p, p ≠ NULLPTR) ps →
  ps = back_to_back (getFirstBlock h + sizeof_HeapBlock)
         (map align8 sizes).
Proof.
  intros Hr Hsizes Hrun Hps.
  destruct (inv_reachable _ _ Hr) as (l & Hchain & Hnaf & Hperm).
  apply Permutation_nil_r in Hperm.
  pose proof Hchain
    as (_ & HB & _ & Hb & _ & _ & Hend & Hne & Hok & _).
  pose proof (span_nonneg _ HB Hok).
  destruct (all_free_single _ _ Hnaf Hperm Hne) as [c ->].
  rewrite (allocs_bump sizes h [] c ps h1 Hchain); try done.
  unfold getFirstBlock. fold (base h). rewrite wrap_small by lia.
  simpl. f_equal. lia.
Qed.

(** ** Released memory can be allocated again *)

(** The block that [coalesce] leaves free holds at least what was
    released, and starts no later. *)
Lemma coalesce_shape l1 c l2 :
  0 < sizeof_HeapBlock → Forall ok_block l1 → Forall ok_block l2 →
  ∃ pre c' post,
    coalesce l1 c l2 = pre ++ ABlock c' false :: post ∧
    c ≤ c' ∧ span pre ≤ span l1.
Proof.
  intros HB Hok1 Hok2. unfold coalesce.
  assert (∃ c' l2', absorb_next c l2 = (c', l2') ∧ c ≤ c') as
    (c' & l2' & -> & Hc').
  { destruct l2 as [|[cn []] l2]; simpl; try (by eexists _, _).
    apply Forall_cons in Hok2 as [[Hcn _] _]. simpl in Hcn.
    eexists _, _. split; [done|]. lia. }
  destruct (snoc_cases l1) as [->|(l0 & [cp up] & ->)]; simpl.
  { exists [], c', l2'. simpl. split; [done|]. lia. }
  rewrite last_snoc. apply Forall_app in Hok1 as [Hok0 Hokp].
  apply Forall_cons in Hokp as [[Hcp _] _]. simpl in Hcp.
  pose proof (span_nonneg _ HB Hok0).
  destruct up.
  - eexists (l0 ++ [ABlock cp true]), c', l2'. split; [done|]. lia.
  - rewrite removelast_last. eexists l0, _, l2'. split; [done|].
    rewrite span_app. simpl. lia.
Qed.

Lemma span_skipped_prefix sz k1 : ∀ b k2 pre x post,
  0 < sizeof_HeapBlock → Forall ok_block pre →
  k1 ++ b :: k2 = pre ++ x :: post →
  Forall (λ y, skipped sz y = true) k1 → skipped sz x = false →
  span k1 ≤ span pre.
Proof.
  induction k1 as [|y k1 IH]; intros b k2 pre x post HB Hok Heq Hk1 Hx.
  - simpl. by apply span_nonneg.
  - apply Forall_cons in Hk1 as [Hy Hk1].
    destruct pre as [|z pre]; simpl in Heq; injection Heq as -> Heq.
    + congruence.
    + apply Forall_cons in Hok as [_ Hok]. simpl.
      pose proof (IH _ _ _ _ _ HB Hok Heq Hk1 Hx). lia.
Qed.

(** X13.  After the release of an outstanding allocation, a request that
    is not zero and whose aligned size is at most the capacity of the
    block released is served, at the address released or below it. *)
Theorem freed_memory_is_reusable h outs p b h' n :
  reachable h outs → p ∈ outs →
  blocks h !! heapBlock p = Some b →
  Heap_free h p = Some h' →
  0 < n < 2 ^ 64 → align8 n ≤ size_ b →
  ∃ q h'', Heap_allocate h' n NULLPTR = Some (q, h'') ∧
           q ≠ NULLPTR ∧ q ≤ p.
Proof.
  intros Hr Hp Hlk Hfree Hn Hfit.
  destruct (inv_reachable _ _ Hr) as (l & Hchain & _ & Hperm).
  rewrite <- Hperm in Hp.
  destruct (outstanding_lookup _ _ _ Hchain Hp)
    as (l1 & c & l2 & -> & -> & _ & Hlk' & _).
  rewrite Hlk' in Hlk. injection Hlk as <-. simpl in Hfit.
  destruct (free_chain_ptr _ _ _ _ Hchain)
    as (h1 & Hfree' & Hchain' & Hself & _).
  rewrite Hfree' in Hfree. injection Hfree as <-.
  pose proof Hchain as (_ & HB & _ & Hb & _ & _ & _ & _ & Hok & _).
  apply Forall_app in Hok as [Hok1 Hok2].
  apply Forall_cons in Hok2 as [_ Hok2].
  destruct (coalesce_shape l1 c l2 HB Hok1 Hok2)
    as (pre & c' & post & Hshape & Hc' & Hpre).
  assert (skipped (align8 n) (ABlock c' false) = false) as Hns.
  { unfold skipped. simpl. apply Z.ltb_ge. lia. }
  assert (base h1 = base h) as Hbase by (unfold base; by rewrite Hself).
  destruct (allocate_chain h1 _ n Hchain' ltac:(lia))
    as [[_ [->|Hall]]|(k1 & b' & k2 & h2 & Hl & _ & Hk1 & _ & Halloc & _)].
  - lia.
  - rewrite Hshape in Hall. apply Forall_app in Hall as [_ Hall].
    apply Forall_cons in Hall as [Hs _]. congruence.
  - exists (base h1 + span k1 + sizeof_HeapBlock), h2.
    split; [done|]. rewrite Hbase.
    pose proof Hchain' as (_ & _ & _ & _ & _ & _ & _ & _ & Hok' & _).
    pose proof Hok' as Hok''. rewrite Hl in Hok''.
    apply Forall_app in Hok'' as [Hokk1 _].
    rewrite Hshape in Hok'. apply Forall_app in Hok' as [Hokpre _].
    rewrite Hshape in Hl. symmetry in Hl.
    pose proof (span_skipped_prefix _ _ _ _ _ _ _ HB Hokpre Hl Hk1 Hns).
    pose proof (span_nonneg _ HB Hokk1).
    unfold NULLPTR. split; lia.
Qed.

(** ** The bracket of [disable()] and [enable()] *)

Lemma bracket_world h w :
  vars (enable h (disable h w).1 (disable h w).2) = vars w ∧
  ∀ a, objs (enable h (disable h w).1 (disable h w).2) a
       = if (a =? toggle_of h w) && negb (a =? NULLPTR)
         then bracketed (objs w a) else objs w a.
Proof.
  unfold toggle_of, bracketed.
  destruct (Z.eqb_spec (toggle (data_ h)) NULLPTR) as [E|E].
  { unfold enable, disable. rewrite (proj2 (Z.eqb_eq _ _) E). simpl.
    split; [done|]. intros a. by destruct (Z.eqb_spec a NULLPTR). }
  apply Z.eqb_neq in E. unfold disable. rewrite E. cbv zeta.
  remember (vars w (toggle (data_ h))) as t eqn:Ht.
  destruct (Z.eqb_spec t NULLPTR) as [E'|E']; simpl.
  { unfold enable. rewrite E. cbv zeta. rewrite <- Ht.
    rewrite (proj2 (Z.eqb_eq _ _) E'). simpl.
    split; [done|]. intros a. rewrite E'.
    by destruct (Z.eqb_spec a NULLPTR). }
  apply Z.eqb_neq in E'.
  destruct (toggle_disable (objs w t)) as [status o] eqn:Hdis. simpl.
  unfold enable. rewrite E. cbv zeta. simpl. rewrite <- Ht, E'. simpl.
  rewrite Z.eqb_refl. split; [done|]. intros a.
  destruct (Z.eqb_spec a t) as [->|]; simpl; [|done].
  by rewrite E', Hdis.
Qed.

(** X14.  [allocate] and [free] return what they return without a toggle.
    They reach a toggle only on the path that touches the chain: the heap
    is constructed, and [allocate] is given no pointer, [free] a pointer.
    There they call [disable()] before and [enable()] after, on the
    object that the variable behind [data_.toggle] points to, and hand
    [enable()] the status that [disable()] returned; no other object is
    touched, and none when there is no variable or it holds [NULLPTR].
    So a toggle whose [enable()] undoes its [disable()] is left as it
    was. *)
Theorem calls_bracket_toggle h w :
  let constructed := bool_decide (Heap_isConstructed h = Some true) in
  let after (taken : bool) (w' : World T) :=
    vars w' = vars w ∧
    ∀ a, objs w' a
         = if taken && (a =? toggle_of h w) && negb (a =? NULLPTR)
           then bracketed (objs w a) else objs w a in
  (∀ n p,
     (λ r, (r.1.1, r.1.2)) <$> allocate_guarded w h n p
     = Heap_allocate h n p ∧
     ∀ r, allocate_guarded w h n p = Some r →
          after (constructed && (p =? NULLPTR)) r.2) ∧
  (∀ p,
     fst <$> free_guarded w h p = Heap_free h p ∧
     ∀ r, free_guarded w h p = Some r →
          after (constructed && negb (p =? NULLPTR)) r.2) ∧
  ((∀ o : T, bracketed o = o) →
   (∀ n p r a, allocate_guarded w h n p = Some r →
               vars r.2 = vars w ∧ objs r.2 a = objs w a) ∧
   (∀ p r a, free_guarded w h p = Some r →
             vars r.2 = vars w ∧ objs r.2 a = objs w a)).
Proof.
  intros constructed after.
  pose proof (bracket_world h w) as [Hvars Hobjs].
  assert (∀ n p,
     (λ r, (r.1.1, r.1.2)) <$> allocate_guarded w h n p
     = Heap_allocate h n p ∧
     ∀ r, allocate_guarded w h n p = Some r →
          after (constructed && (p =? NULLPTR)) r.2) as Halloc.
  { intros n p. unfold allocate_guarded, Heap_allocate, after, constructed.
    destruct (Heap_isConstructed h) as [[]|]; simpl; [| |done].
    - destruct (Z.eqb_spec p NULLPTR) as [->|]; simpl.
      + destruct (disable h w) as [st w1] eqn:Hdis.
        simpl in Hvars, Hobjs.
        destruct (HeapBlock_alloc _ _ _) as [r1|]; simpl; [|done].
        split; [by destruct r1|]. intros r [= <-]. simpl.
        split; [done|]. intros a. by rewrite Hobjs.
      + split; [done|]. intros r [= <-]. simpl. split; [done|].
        done.
    - split; [done|]. intros r [= <-]. simpl. split; [done|].
      done. }
  assert (∀ p,
     fst <$> free_guarded w h p = Heap_free h p ∧
     ∀ r, free_guarded w h p = Some r →
          after (constructed && negb (p =? NULLPTR)) r.2) as Hfree.
  { intros p. unfold free_guarded, Heap_free, after, constructed.
    destruct (Z.eqb_spec p NULLPTR) as [->|]; simpl.
    { split; [done|]. intros r [= <-]. simpl. split; [done|].
      intros a. by rewrite andb_false_r. }
    destruct (Heap_isConstructed h) as [[]|]; simpl; [| |done].
    - destruct (disable h w) as [st w1] eqn:Hdis.
      simpl in Hvars, Hobjs.
      destruct (HeapBlock_free _ _) as [h1|]; simpl; [|done].
      split; [done|]. intros r [= <-]. simpl.
      split; [done|]. intros a. by rewrite Hobjs.
    - split; [done|]. intros r [= <-]. simpl. split; [done|].
      done. }
  split; [done|]. split; [done|]. intros Hlaw. split.
  - intros n p r a Hr. destruct (proj2 (Halloc n p) r Hr) as [Hv Ho].
    split; [done|]. rewrite Ho, Hlaw. by destruct (_ && _ && _ && _).
  - intros p r a Hr. destruct (proj2 (Hfree p) r Hr) as [Hv Ho].
    split; [done|]. rewrite Ho, Hlaw. by destruct (_ && _ && _ && _).
Qed.

(** ** The toggle reference *)

Lemma HeapBlock_free_setToggle t h a :
  HeapBlock_free (setToggle t h) a = setToggle t <$> HeapBlock_free h a.
Proof.
  unfold HeapBlock_free, canDelete, Heap_isConstructed, getFirstBlock.
  simpl.
  destruct (blocks h !! a) as [b|]; simpl; [|done].
  destruct (negb (HeapBlock_isConstructed b)); simpl; [done|].
  destruct (heap_ b =? self h); simpl; [|done].
  destruct (negb (key (data_ h) =? HEAP_KEY)); simpl; [done|].
  destruct (blocks h !! wrap (self h + sizeof_Heap)) as [f|]; simpl; [|done].
  destruct (negb (HeapBlock_isConstructed f)); simpl; [done|].
  destruct (neighbour_free (blocks h) (prev_ b)) as [pf|]; simpl; [|done].
  destruct (neighbour_free (blocks h) (next_ b)) as [nf|]; simpl; [|done].
  match goal with
  | |- mbind _ ?x = _ => destruct x as [m|]; simpl; done
  end.
Qed.

(** X15.  [setToggle] and [resetToggle] change the toggle reference and
    nothing else: [isConstructed], [allocate] and [free] give what they
    gave, and the constructor with a toggle builds what the one without
    builds.  After [setToggle] the calls reach the object that the
    variable given points to; after [resetToggle] they reach none and
    leave the world as it is. *)
Theorem setToggle_changes_reference_only t h w :
  Heap_isConstructed (setToggle t h) = Heap_isConstructed h ∧
  (∀ n p, Heap_allocate (setToggle t h) n p
          = (λ r, (r.1, setToggle t r.2)) <$> Heap_allocate h n p) ∧
  (∀ p, Heap_free (setToggle t h) p = setToggle t <$> Heap_free h p) ∧
  (∀ ram m0 this isize,
     Heap_ctor ram m0 this isize t
     = ((Heap_ctor ram m0 this isize NULLPTR).1,
        setToggle t (Heap_ctor ram m0 this isize NULLPTR).2)) ∧
  toggle_of (setToggle t h) w = (if t =? NULLPTR then NULLPTR else vars w t) ∧
  toggle_of (resetToggle h) w = NULLPTR ∧
  (∀ n p r, allocate_guarded w (resetToggle h) n p = Some r → r.2 = w) ∧
  (∀ p r, free_guarded w (resetToggle h) p = Some r → r.2 = w).
Proof.
  split_and!.
  - done.
  - intros n p. unfold Heap_allocate.
    change (Heap_isConstructed (setToggle t h)) with (Heap_isConstructed h).
    destruct (Heap_isConstructed h) as [[]|]; simpl; [|done..].
    destruct (negb (p =? NULLPTR)); simpl; [done|].
    change (getFirstBlock (setToggle t h)) with (getFirstBlock h).
    by destruct (HeapBlock_alloc _ _ _).
  - intros p. unfold Heap_free.
    change (Heap_isConstructed (setToggle t h)) with (Heap_isConstructed h).
    destruct (p =? NULLPTR); [done|].
    destruct (Heap_isConstructed h) as [[]|]; simpl; [|done..].
    apply HeapBlock_free_setToggle.
  - intros ram m0 this isize.
    unfold Heap_ctor, construct, HeapData_ctor, setConstructed. simpl.
    destruct (_ >? _); [done|].
    destruct (negb (Z.land sizeof_Heap 7 =? 0)); [done|].
    destruct (negb (Z.land sizeof_HeapBlock 7 =? 0)); [done|].
    destruct (isMemoryAvailable _ _ _) as [[] ram1]; simpl; [|done].
    destruct (HeapBlock_new _ _ _ _) as [p m1]. simpl.
    by destruct (negb (p =? NULLPTR)).
  - done.
  - done.
  - intros n p r. unfold allocate_guarded.
    change (Heap_isConstructed (resetToggle h)) with (Heap_isConstructed h).
    destruct (Heap_isConstructed h) as [[]|]; simpl; [| |done].
    + destruct (negb (p =? NULLPTR)); simpl; [by intros [= <-]|].
      destruct (HeapBlock_alloc _ _ _); simpl; [|done]. by intros [= <-].
    + by intros [= <-].
  - intros p r. unfold free_guarded.
    change (Heap_isConstructed (resetToggle h)) with (Heap_isConstructed h).
    destruct (p =? NULLPTR); [by intros [= <-]|].
    destruct (Heap_isConstructed h) as [[]|]; simpl; [| |done].
    + destruct (HeapBlock_free _ _); simpl; [|done]. by intros [= <-].
    + by intros [= <-].
Qed.

(** ** [free] of a block that is free *)

(** [HeapBlock::free] does not look at the used flag of its block: on a
    free block between used neighbours it clears the flag once more. *)
Lemma free_free_block h l1 c l2 :
  chain h (l1 ++ ABlock c false :: l2) →
  last_used l1 = true → head_used l2 = true →
  HeapBlock_free h (base h + span l1) = Some h.
Proof.
  intros Hchain Hl1 Hl2. pose proof (constructed_chain _ _ Hchain) as Hcons.
  destruct Hchain
    as (Hkey & HB & HB8 & Hb & Hb8 & Hsize & Hend & Hne & Hok & Hseg).
  set (a0 := base h) in *. set (m := blocks h) in *.
  set (heap := self h) in *.
  unfold HeapBlock_free, canDelete, neighbour_free. fold m heap.
  rewrite Hcons. clear Hsize Hne Hcons Hkey.
  apply Forall_app in Hok as [Hok1 Hok2].
  apply Forall_cons in Hok2 as [[Hc _] Hok2]. simpl in Hc.
  rewrite span_app in Hend. simpl in Hend.
  pose proof (span_nonneg _ HB Hok2) as Hs2.
  assert (∀ k t, m !! k = Some t → mark_free t = t →
                 Some (set_blocks (<[k := mark_free t]> m) h) = Some h)
    as Hdone.
  { intros k t Ht ->. rewrite insert_id by done. unfold m.
    by rewrite set_blocks_id. }
  destruct (snoc_cases l1) as [->|(l1' & [cp up] & ->)].
  - simpl in Hseg, Hend. simpl. rewrite Z.add_0_r.
    destruct Hseg as [Ht Hseg2].
    destruct l2 as [|[cn un] l2].
    + exec_store. by eapply Hdone.
    + simpl in Hl2. subst un.
      simpl in Hseg2, Hend, Hs2. destruct Hseg2 as [Hn Hseg2].
      apply Forall_cons in Hok2 as [[Hcn _] Hok2]. simpl in Hcn.
      pose proof (span_nonneg _ HB Hok2) as Hs2'.
      exec_store. by eapply Hdone.
  - rewrite last_used_snoc in Hl1. simpl in Hl1. subst up.
    apply Forall_app in Hok1 as [Hok1 Hcp].
    apply Forall_cons in Hcp as [[Hcp _] _]. simpl in Hcp.
    pose proof (span_nonneg _ HB Hok1) as Hs1.
    rewrite span_app in Hend |- *. simpl in Hend |- *.
    rewrite <- app_assoc in Hseg. apply seg_app in Hseg as [Hseg1 Hseg].
    simpl in Hseg, Hseg1. destruct Hseg as (Hp & Ht & Hseg2).
    set (pp := last_addr NULLPTR a0 l1') in *.
    set (ap := a0 + span l1') in *.
    assert (ap = a0 + span l1') as Hap by done. clearbody ap.
    destruct l2 as [|[cn un] l2].
    + exec_store. by eapply Hdone.
    + simpl in Hl2. subst un.
      simpl in Hseg2, Hend, Hs2. destruct Hseg2 as [Hn Hseg2].
      apply Forall_cons in Hok2 as [[Hcn _] Hok2]. simpl in Hcn.
      pose proof (span_nonneg _ HB Hok2) as Hs2'.
      exec_store. by eapply Hdone.
Qed.

(** The headers in memory determine the chain. *)
Lemma seg_unique m heap l : ∀ b l' b' prev prev' a,
  0 < sizeof_HeapBlock → 0 < a → Forall ok_block (b :: l) →
  seg m heap prev a (b :: l) false → seg m heap prev' a (b' :: l') false →
  b :: l = b' :: l'.
Proof.
  induction l as [|x l IH]; intros b l' b' prev prev' a HB Ha Hok
    [Hb Hseg] [Hb' Hseg'];
    apply Forall_cons in Hok as [[Hcap _] Hok];
    rewrite Hb in Hb'; injection Hb' as _ Hnext Hattr Hc;
    assert (b = b') as <-
      by (destruct b as [c u], b' as [c' u']; simpl in *; subst;
          by destruct u, u').
  - destruct l' as [|x' l']; [done|]. simpl in Hnext. addr.
  - destruct l' as [|x' l']; [simpl in Hnext; addr|].
    f_equal. eapply (IH x l' x'); [done| |done|exact Hseg|exact Hseg'].
    lia.
Qed.

Lemma chain_unique h l l' : chain h l → chain h l' → l = l'.
Proof.
  intros (_ & HB & _ & Hb & _ & _ & _ & Hne & Hok & Hseg)
         (_ & _ & _ & _ & _ & _ & _ & Hne' & _ & Hseg').
  destruct l as [|b l], l' as [|b' l']; try done.
  by eapply seg_unique.
Qed.

(** X20.  [free] does not tell a block that is free already.  On a heap
    reached by the calls, [free] of the payload address of a free block
    of the chain changes nothing.  So a second [free] of an address
    changes nothing when the first one did not merge the block into its
    predecessor, that is, when the block had no predecessor or a used
    one. *)
Theorem free_of_free_block h outs :
  reachable h outs →
  (∀ l1 c l2, chain h (l1 ++ ABlock c false :: l2) →
     Heap_free h (base h + span l1 + sizeof_HeapBlock) = Some h) ∧
  (∀ p b h', p ∈ outs → blocks h !! heapBlock p = Some b →
     (prev_ b = NULLPTR ∨
      ∃ pb, blocks h !! prev_ b = Some pb ∧ isUsed pb = true) →
     Heap_free h p = Some h' → Heap_free h' p = Some h').
Proof.
  intros Hr. destruct (inv_reachable _ _ Hr) as (l & Hchain & Hnaf & Hperm).
  assert (∀ g l1 c l2, chain g (l1 ++ ABlock c false :: l2) →
            last_used l1 = true → head_used l2 = true →
            Heap_free g (base g + span l1 + sizeof_HeapBlock) = Some g)
    as Hnoop.
  { intros g l1 c l2 Hg Hl1 Hl2.
    pose proof (constructed_chain _ _ Hg) as Hcons.
    pose proof (free_free_block _ _ _ _ Hg Hl1 Hl2) as Hfree.
    destruct (chain_lookup _ _ _ _ Hg) as (_ & Hpos & Hup).
    destruct Hg as (_ & HB & _ & _ & _ & _ & _ & _ & Hok & _).
    apply Forall_app in Hok as [_ Hok].
    apply Forall_cons in Hok as [[Hc _] _]. simpl in Hc, Hup.
    unfold Heap_free.
    destruct (Z.eqb_spec (base g + span l1 + sizeof_HeapBlock) NULLPTR)
      as [E|_]; [addr|].
    rewrite Hcons. simpl. unfold heapBlock.
    replace (base g + span l1 + sizeof_HeapBlock - sizeof_HeapBlock)
      with (base g + span l1) by lia.
    by rewrite wrap_small by lia. }
  split.
  - intros l1 c l2 Hchain'.
    pose proof (chain_unique _ _ _ Hchain Hchain') as ->.
    rewrite no_adj_free_app, no_adj_free_cons in Hnaf.
    apply andb_true_iff in Hnaf
      as [[_ [Hh _]%andb_true_iff]%andb_true_iff Hl].
    simpl in Hh, Hl. rewrite orb_false_r in Hl.
    by apply (Hnoop h l1 c l2).
  - intros p b h' Hp Hlk Hprev Hfree. rewrite <- Hperm in Hp.
    destruct (outstanding_lookup _ _ _ Hchain Hp)
      as (l1 & c & l2 & -> & -> & _ & Hlk' & _).
    rewrite Hlk' in Hlk. injection Hlk as <-. simpl in Hprev.
    assert (last_used l1 = true) as Hl1.
    { destruct (snoc_cases l1) as [->|(l0 & bp & ->)]; [done|].
      rewrite last_used_snoc. rewrite last_addr_snoc in Hprev.
      rewrite <- app_assoc in Hchain. simpl in Hchain.
      destruct (chain_lookup _ _ _ _ Hchain) as (Hp0 & Hpos & _).
      destruct Hprev as [E|(pb & Hpb & Hused)]; [addr|].
      rewrite Hp0 in Hpb. injection Hpb as <-.
      by rewrite isUsed_header in Hused. }
    destruct (free_chain_ptr _ _ _ _ Hchain)
      as (h1 & Hfree' & Hchain' & Hself & _).
    rewrite Hfree' in Hfree. injection Hfree as <-.
    assert (base h1 = base h) as Hbase by (unfold base; by rewrite Hself).
    rewrite no_adj_free_app, no_adj_free_cons in Hnaf.
    apply andb_true_iff in Hnaf
      as [[_ [_ Hnaf2]%andb_true_iff]%andb_true_iff _].
    rewrite <- Hbase.
    destruct l2 as [|[cn []] l3].
    + rewrite coalesce_none in Hchain' by done. by eapply Hnoop.
    + rewrite coalesce_none in Hchain' by done. by eapply Hnoop.
    + rewrite coalesce_next in Hchain' by done.
      rewrite no_adj_free_cons in Hnaf2.
      apply andb_true_iff in Hnaf2 as [Hh3 _]. simpl in Hh3.
      by eapply Hnoop.
Qed.

(** ** The length of the scan *)

Lemma addrs_length a l : length (addrs a l) = length l.
Proof.
  revert a. induction l as [|b l IH]; intros a; simpl; [done|].
  by rewrite IH.
Qed.

(** X21.  On a heap reached by the calls, the loop of [HeapBlock::alloc]
    is done after at most one step more than the chain has blocks,
    whatever the size asked for: it has then stopped at a block of the
    chain, or passed the last one. *)
Theorem scan_is_linear h outs :
  reachable h outs →
  ∃ p, path (blocks h) (getFirstBlock h) p ∧
    ∀ sz, ∃ r, (r = NULLPTR ∨ r ∈ p) ∧
      ∀ k, scan (S (length p) + k) (blocks h) (getFirstBlock h) sz = Some r.
Proof.
  intros Hr. destruct (inv_reachable _ _ Hr) as (l & Hchain & Hnaf & _).
  destruct Hchain
    as (Hkey & HB & HB8 & Hb & Hb8 & Hsize & Hend & Hne & Hok & Hseg).
  pose proof (span_nonneg _ HB Hok) as Hs.
  destruct (seg_well _ _ _ _ _ HB Hb Hok Hnaf Hseg) as (Hpath & _ & _).
  assert (getFirstBlock h = base h) as ->.
  { unfold getFirstBlock. fold (base h). apply wrap_small. lia. }
  exists (addrs (base h) l). split; [by destruct l|].
  rewrite addrs_length. intros sz.
  destruct (first_fit sz l) as [Hall|(l1 & b & l2 & -> & Hl1 & Hfit)].
  - exists NULLPTR. split; [by left|]. intros k.
    replace (S (length l) + k)%nat with (length l + S k)%nat by lia.
    by rewrite (scan_skip _ (self h) sz false l NULLPTR (base h)).
  - exists (base h + span l1). split.
    { right. rewrite addrs_app. apply elem_of_app. right.
      apply list_elem_of_here. }
    intros k. apply seg_app in Hseg as [Hseg1 [Hhd _]].
    apply Forall_app in Hok as [Hok1 _].
    pose proof (span_nonneg _ HB Hok1).
    rewrite length_app. cbn [length].
    replace (S (length l1 + S (length l2)) + k)%nat
      with (length l1 + S (S (length l2) + k))%nat by lia.
    destruct l1 as [|x l1].
    + cbn [length span Nat.add] in *. rewrite Z.add_0_r in *.
      eapply scan_stop; [lia|done|exact Hhd].
    + rewrite (scan_skip _ (self h) sz true (x :: l1) NULLPTR (base h))
        by done.
      eapply scan_stop; [lia|done|done].
Qed.

(** ** Requests that wrap *)

(** X22.  A request within seven of the largest [size_t] is aligned to
    zero.  It fails only when every block of the chain is used;
    otherwise the first free block is handed out for it, whatever its
    capacity, cut down to capacity zero when it holds a header. *)
Theorem oversized_request_is_served h l n :
  chain h l → 2 ^ 64 - 8 < n < 2 ^ 64 →
  align8 n = 0 ∧
  ((Heap_allocate h n NULLPTR = Some (NULLPTR, h) ∧
    Forall (λ x, a_used x = true) l) ∨
   (∃ l1 c l2 h',
      l = l1 ++ ABlock c false :: l2 ∧
      Forall (λ x, a_used x = true) l1 ∧
      Heap_allocate h n NULLPTR
        = Some (base h + span l1 + sizeof_HeapBlock, h') ∧
      chain h'
        (l1 ++ (if sizeof_HeapBlock <=? c
                then [ABlock 0 true; ABlock (c - sizeof_HeapBlock) false]
                else [ABlock c true]) ++ l2))).
Proof.
  intros Hchain Hn. pose proof (align8_wraps n Hn) as Hz.
  split; [done|].
  pose proof Hchain as (_ & _ & _ & _ & _ & _ & _ & _ & Hok & _).
  assert (∀ k, Forall ok_block k →
               Forall (λ x, skipped (align8 n) x = true) k →
               Forall (λ x, a_used x = true) k) as Hused.
  { intros k Hk Hsk. rewrite Hz in Hsk.
    induction Hk as [|x k [Hx _] _ IH]; [constructor|].
    apply Forall_cons in Hsk as [Hs Hsk]. constructor; [|by apply IH].
    unfold skipped in Hs. apply orb_true_iff in Hs as [|Hlt%Z.ltb_lt];
      [done|lia]. }
  destruct (allocate_chain h l n Hchain ltac:(lia))
    as [[Hnull [->|Hall]]|(l1 & b & l2 & h' & -> & _ & Hl1 & Hfit & Halloc
                          & Hchain' & _)].
  - lia.
  - left. split; [done|]. by apply Hused.
  - right. apply skipped_false in Hfit as [Hb _].
    apply Forall_app in Hok as [Hok1 _].
    exists l1, (a_cap b), l2, h'. rewrite <- Hb.
    split; [done|]. split; [by apply Hused|]. split; [done|].
    unfold cut in Hchain'. rewrite Hz in Hchain'. simpl in Hchain'.
    by rewrite Z.sub_0_r in Hchain'.
Qed.

(** ** Regions smaller than the object *)

(** X23.  For a total size below [sizeof(Heap)] the usable size wraps:
    [HeapData] computes one close to [2^64], above the total size.  The
    size guard of [construct()] is false for it, so the size is not
    rejected; and the range of that many cells behind the object, which
    [construct()] goes on to test, does not end within the address
    space, wherever the object is. *)
Theorem undersized_region_passes_guard isize tg :
  0 < sizeof_Heap < 2 ^ 32 → 0 ≤ sizeof_HeapBlock < 2 ^ 32 →
  0 ≤ isize < sizeof_Heap →
  let d := HeapData_ctor isize tg in
  size d = 2 ^ 64 - sizeof_Heap + (isize - isize mod 8) ∧
  isize < size d ∧
  (wrap (sizeof_HeapBlock + 16) >? size d) = false ∧
  ∀ this, 0 ≤ this → 2 ^ 64 ≤ this + sizeof_Heap + size d.
Proof.
  intros HSH HHB Hsmall d.
  pose proof (Z.mod_pos_bound isize 8).
  pose proof (Z.mod_le isize 8 ltac:(lia) ltac:(lia)).
  assert (size d = 2 ^ 64 - sizeof_Heap + (isize - isize mod 8)) as Hsz.
  { subst d. unfold HeapData_ctor. simpl. rewrite land_lnot_7. unfold wrap.
    replace (isize - isize mod 8 - sizeof_Heap)
      with (2 ^ 64 - sizeof_Heap + (isize - isize mod 8) + (-1) * 2 ^ 64)
      by lia.
    rewrite Z.mod_add by lia. apply Z.mod_small. lia. }
  rewrite Hsz. split; [done|]. split; [lia|]. split.
  - rewrite wrap_small by lia.
    destruct (Z.gtb_spec (sizeof_HeapBlock + 16)
                (2 ^ 64 - sizeof_Heap + (isize - isize mod 8))); [lia|done].
  - intros this Hthis. lia.
Qed.

End Model.

(** * Concrete memories and regions *)

(** ** A memory without faults passes the self-test *)

Lemma write_pass_ideal pat addr n : ∀ i (m : Ram) x,
  write_pass pat addr i n m x
  = if (addr + i <=? x) && (x <? addr + i + Z.of_nat n)
    then pat (x - addr) else m x.
Proof.
  induction n as [|n IH]; intros i m x.
  - simpl. destruct (_ && _) eqn:E; [|done].
    apply andb_true_iff in E as [E1%Z.leb_le E2%Z.ltb_lt]. lia.
  - cbn [write_pass]. rewrite IH. cbn [poke ideal_ram].
    repeat match goal with
    | |- context [?a <=? ?b] => destruct (Z.leb_spec a b)
    | |- context [?a <? ?b] => destruct (Z.ltb_spec a b)
    | |- context [?a =? ?b] => destruct (Z.eqb_spec a b)
    end; simpl; try done; try lia.
    subst x. f_equal. lia.
Qed.

Lemma holds_ideal pat addr size (m : Ram) :
  holds pat addr size (write_pass pat addr 0 (Z.to_nat size) m).
Proof.
  intros i Hi. cbn [peek ideal_ram]. rewrite write_pass_ideal.
  repeat match goal with
  | |- context [?a <=? ?b] => destruct (Z.leb_spec a b)
  | |- context [?a <? ?b] => destruct (Z.ltb_spec a b)
  end; simpl; try lia.
  f_equal. lia.
Qed.

Lemma isMemoryAvailable_ideal (m : Ram) addr size :
  (isMemoryAvailable m addr size).1 = true.
Proof.
  unfold isMemoryAvailable. cbv zeta.
  rewrite !(proj2 (read_pass_holds _ _ _ _)) by apply holds_ideal.
  reflexivity.
Qed.

(** ** Construction over a memory without faults *)

Lemma Heap_new_ideal SH HB (ram : Ram) m0 ptr isize :
  let sz := wrap (Z.land isize (Z.lnot 0x7) - SH) in
  ptr ≠ NULLPTR → ptr mod 8 = 0 → SH mod 8 = 0 → HB mod 8 = 0 →
  wrap (HB + 16) ≤ sz →
  wrap (ptr + SH) ≠ NULLPTR → wrap (ptr + SH) mod 8 = 0 →
  (Heap_new SH HB ram m0 ptr isize).2 = Some (fresh_heap SH HB m0 ptr isize).
Proof.
  intros sz Hp0 Hp8 HSH8 HHB8 Hbig Hf0 Hf8.
  unfold Heap_new, Heap_operator_new, create.
  destruct (Z.eqb_spec ptr NULLPTR) as [|_]; [done|].
  rewrite !aligned_test, !bool_decide_eq_true_2 by done. simpl.
  pose proof (isMemoryAvailable_ideal ram ptr SH) as Hok1.
  destruct (isMemoryAvailable ram ptr SH) as [ok1 ram1].
  simpl in Hok1. subst ok1. simpl.
  rewrite aligned_test, bool_decide_eq_true_2 by done. simpl.
  destruct (Z.eqb_spec ptr NULLPTR) as [|_]; [done|].
  unfold Heap_ctor, construct, HeapData_ctor. simpl. fold sz.
  destruct (Z.gtb_spec (wrap (HB + 16)) sz) as [|_]; [lia|].
  rewrite !aligned_test, !bool_decide_eq_true_2 by done. simpl.
  pose proof (isMemoryAvailable_ideal ram1 (wrap (ptr + SH)) sz) as Hok2.
  destruct (isMemoryAvailable ram1 (wrap (ptr + SH)) sz) as [ok2 ram2].
  simpl in Hok2. subst ok2. simpl.
  unfold HeapBlock_new, HeapBlock_operator_new, getFirstBlock. simpl.
  rewrite !aligned_test, !bool_decide_eq_true_2 by done. simpl.
  destruct (Z.eqb_spec (wrap (ptr + SH)) NULLPTR) as [|_]; [done|]. simpl.
  destruct (Z.eqb_spec (wrap (ptr + SH)) NULLPTR) as [|_]; [done|]. simpl.
  reflexivity.
Qed.

(** ** A region of 1024 bytes at 4096, with 48-byte [Heap] and [HeapBlock] *)

Local Abbreviation ram0 := ((λ _ : Z, 0) : Ram).
Local Abbreviation heap0 := (fresh_heap 48 48 ∅ 4096 1024).

Lemma Heap_new_demo :
  Heap_new 48 48 ram0 ∅ 4096 1024
  = ((Heap_new 48 48 ram0 ∅ 4096 1024).1, Some heap0).
Proof.
  assert ((Heap_new 48 48 ram0 ∅ 4096 1024).2 = Some heap0) as E.
  { apply Heap_new_ideal; by vm_compute. }
  destruct (Heap_new 48 48 ram0 ∅ 4096 1024) as [r o].
  simpl in E. by subst o.
Qed.

Lemma reachable_demo : reachable (M := Ram) 48 48 heap0 [].
Proof.
  eapply (reach_new 48 48 ram0 ∅ 4096 1024); try lia.
  - apply Heap_new_demo.
  - reflexivity.
Qed.

(** After [allocate(64)], [allocate(128)] and [free] of the first. *)
Local Abbreviation heap1 :=
  (default heap0
     (calls 48 48 heap0 [Allocate 64 0; Allocate 128 0; Free 4192])).

Lemma reachable_demo_calls : reachable (M := Ram) 48 48 heap1 [4304].
Proof.
  pose proof reachable_demo as H0.
  apply (reach_allocate 48 48 _ _ 64
           (default (0, heap0) (Heap_allocate 48 48 heap0 64 0))) in H0;
    [|lia|by vm_compute].
  apply (reach_allocate 48 48 _ _ 128
           (default (0, heap0)
              (Heap_allocate 48 48
                 (default (0, heap0) (Heap_allocate 48 48 heap0 64 0)).2
                 128 0))) in H0;
    [|lia|by vm_compute].
  apply (reach_free 48 48 _ _ [4304] 4192 heap1) in H0;
    [exact H0|apply perm_swap|by vm_compute].
Qed.

(** ** The theorems at concrete inputs *)

Ltac by_computation :=
  repeat match goal with
  | |- _ ∧ _ => split
  | |- Forall _ _ => constructor
  | |- ok_block _ => split
  end;
  by vm_compute.

(** The chain of four blocks left by three allocations of eight bytes and
    the release of the first; [free] of the second merges it into the
    first, one header and eight bytes more. *)
Lemma free_four_outcomes_witness :
  let h :=
    default heap0
      (calls 48 48 heap0
         [Allocate 8 0; Allocate 8 0; Allocate 8 0; Free 4192]) in
  chain 48 48 h
    ([ABlock 8 false] ++ ABlock 8 true :: [ABlock 8 true; ABlock 760 false]) ∧
  ∃ h', HeapBlock_free 48 48 h 4200 = Some h' ∧
        chain 48 48 h' [ABlock 64 false; ABlock 8 true; ABlock 760 false].
Proof.
  intros h.
  assert (chain 48 48 h
            ([ABlock 8 false] ++
             ABlock 8 true :: [ABlock 8 true; ABlock 760 false])) as Hc.
  { unfold chain. by_computation. }
  split; [exact Hc|].
  destruct (free_four_outcomes 48 48 h [ABlock 8 false] 8
              [ABlock 8 true; ABlock 760 false] Hc)
    as (h' & Hfree & _ & Hprev & _).
  exists h'. split; [exact Hfree|].
  exact (Hprev [] 8 eq_refl eq_refl).
Defined.

Lemma reachable_well_chained_witness :
  reachable (M := Ram) 48 48 heap1 [4304] ∧ well_chained 48 heap1.
Proof.
  split; [exact reachable_demo_calls|].
  exact (reachable_well_chained 48 48 heap1 [4304] reachable_demo_calls).
Defined.

(** Three allocations, released second, third, first. *)
Lemma coalescing_complete_witness :
  let h1 := (default ([], heap0) (allocs 48 48 heap0 [64; 128; 32])).2 in
  allocs 48 48 heap0 [64; 128; 32] = Some ([4192; 4304; 4480], h1) ∧
  ∃ h2, frees 48 48 h1 [4304; 4480; 4192] = Some h2 ∧
        single_free_block 48 h2 (976 - 48).
Proof.
  intros h1.
  assert (allocs 48 48 heap0 [64; 128; 32] = Some ([4192; 4304; 4480], h1))
    as Hallocs by (by vm_compute).
  split; [exact Hallocs|].
  apply (coalescing_complete (M := Ram) 48 48 ram0 ∅ 4096 1024
           (Heap_new 48 48 ram0 ∅ 4096 1024).1 heap0
           [64; 128; 32] [4192; 4304; 4480] h1 [4304; 4480; 4192]).
  - lia.
  - lia.
  - lia.
  - lia.
  - lia.
  - exact Heap_new_demo.
  - reflexivity.
  - repeat constructor; lia.
  - exact Hallocs.
  - repeat constructor; discriminate.
  - exact (Permutation_cons_append [4304; 4480] 4192).
Defined.

(** One byte asked for, eight handed out. *)
Lemma fragmentation_bound_witness :
  let h' := (default (0, heap0) (Heap_allocate 48 48 heap0 1 0)).2 in
  Heap_allocate 48 48 heap0 1 NULLPTR = Some (4192, h') ∧
  ∃ b, blocks h' !! heapBlock 48 4192 = Some b ∧ isUsed b = true ∧
       size_ b - 1 < 48 ∧ (1 ≤ 2 ^ 64 - 8 → 1 ≤ size_ b).
Proof.
  intros h'.
  assert (Heap_allocate 48 48 heap0 1 NULLPTR = Some (4192, h')) as Halloc
    by (by vm_compute).
  split; [exact Halloc|].
  apply (fragmentation_bound (M := Ram) 48 48 heap0 [] 1 4192 h'
           reachable_demo).
  - lia.
  - exact Halloc.
  - discriminate.
Defined.

Lemma payload_and_block_are_inverse_witness :
  let h' := (default (0, heap0) (Heap_allocate 48 48 heap0 64 0)).2 in
  Heap_allocate 48 48 heap0 64 NULLPTR = Some (4192, h') ∧
  ∃ a b, blocks h' !! a = Some b ∧ isUsed b = true ∧
         4192 = a + 48 ∧ data 48 a = 4192 ∧ heapBlock 48 4192 = a ∧
         heapBlock 48 (data 48 a) = a ∧ data 48 (heapBlock 48 4192) = 4192 ∧
         Heap_free 48 48 h' 4192 = HeapBlock_free 48 48 h' a.
Proof.
  intros h'.
  assert (Heap_allocate 48 48 heap0 64 NULLPTR = Some (4192, h')) as Halloc
    by (by vm_compute).
  split; [exact Halloc|].
  apply (payload_and_block_are_inverse (M := Ram) 48 48 heap0 [] 64 4192 h'
           reachable_demo).
  - lia.
  - exact Halloc.
  - discriminate.
Defined.

(** A store whose first block is used and linked to itself: the scan of
    [HeapBlock::alloc] does not end on it, and [allocate] with a pointer
    argument returns all the same; as it does over any other store whose
    first block carries the tag. *)
Lemma allocate_passes_pointer_through_witness :
  let b := mkHeapBlock 4096 NULLPTR 4144 ATTR_USED 928 BLOCK_KEY in
  let h :=
    mkHeap 4096 (mkHeapData 4144 NULLPTR 976 HEAP_KEY) {[ 4144 := b ]} in
  Heap_isConstructed 48 h = Some true ∧
  HeapBlock_alloc 48 (blocks h) 4144 8 = None ∧
  Heap_allocate 48 48 h 8 0x2000 = Some (0x2000, h) ∧
  ∀ m b', m !! getFirstBlock 48 h = Some b' → key_ b' = key_ b →
          Heap_allocate 48 48 (set_blocks m h) 8 0x2000
          = Some (0x2000, set_blocks m h).
Proof.
  intros b h. split; [reflexivity|]. split; [reflexivity|].
  destruct (allocate_passes_pointer_through 48 48 h 8 0x2000)
    as [Hpass Hsame].
  - reflexivity.
  - discriminate.
  - split; [exact Hpass|]. intros m b'. apply (Hsame m b b'). reflexivity.
Defined.

(** ** Where the code departs from the specification *)

(** C8 as stated, with no block read, fails: [allocate] asks
    [isConstructed()] first, which reads the tag of the first block.  Two
    heaps that differ in that tag and in nothing else: over the one the
    pointer is returned, over the other [NULLPTR]. *)
Lemma first_block_tag_is_read :
  let d := mkHeapData 4144 NULLPTR 976 HEAP_KEY in
  let h1 :=
    mkHeap 4096 d
      {[ 4144 := mkHeapBlock 4096 NULLPTR NULLPTR 0 928 BLOCK_KEY ]} in
  let h2 :=
    mkHeap 4096 d {[ 4144 := mkHeapBlock 4096 NULLPTR NULLPTR 0 928 0 ]} in
  Heap_allocate 48 48 h1 8 0x2000 = Some (0x2000, h1) ∧
  Heap_allocate 48 48 h2 8 0x2000 = Some (NULLPTR, h2).
Proof. split; reflexivity. Qed.

(** C4 as stated, over every sequence of calls, fails: [free] does not tell
    a block that is no longer part of the chain.  Three allocations of
    eight bytes at 4192, 4248 and 4304; the first two are released, which
    merges the second block into the first; the second address is
    released once more, which adds its size to the first block a second
    time.  An allocation of 72 bytes then cuts the first block at 4264,
    past the third block at 4256, and links the new block back to it. *)
Lemma double_free_breaks_order :
  (Heap_new 48 48 ram0 ∅ 4096 1024).2 = Some heap0 ∧
  Heap_isConstructed 48 heap0 = Some true ∧
  ∃ h, calls 48 48 heap0
         [Allocate 8 0; Allocate 8 0; Allocate 8 0;
          Free 4192; Free 4248; Free 4248; Allocate 72 0] = Some h ∧
       ¬ well_chained 48 h.
Proof.
  split; [apply Heap_new_ideal; by vm_compute|]. split; [reflexivity|].
  eexists. split; [by vm_compute|].
  intros (p & Hpath & _ & Hall).
  inversion Hpath as [|a b p1 _ Hb Hp1]; subst.
  vm_compute in Hb. injection Hb as <-. simpl in Hp1.
  inversion Hp1 as [|a b p2 _ Hb _]; subst.
  destruct (Hall 4264 _ (list_elem_of_further _ _ _ (list_elem_of_here _ _)) Hb)
    as [Hord _].
  vm_compute in Hb. injection Hb as <-. simpl in Hord.
  destruct Hord as [?|?]; [discriminate|lia].
Qed.

(** C1.  A request within eight of the largest [size_t] is not rounded up:
    the sum wraps to zero, the first free block is cut at capacity zero
    and its payload address is returned as if [2^64 - 1] bytes were
    there. *)
Theorem allocate_rounding_wraps :
  align8 (2 ^ 64 - 1) = 0 ∧
  ∃ h' b, Heap_allocate 48 48 heap0 (2 ^ 64 - 1) NULLPTR = Some (4192, h') ∧
          blocks h' !! 4144 = Some b ∧ isUsed b = true ∧ size_ b = 0.
Proof.
  split; [reflexivity|].
  eexists _, _. split; [by vm_compute|]. by vm_compute.
Qed.

(** C3.  For a total size of 8 bytes, less than the [Heap] object itself,
    the usable size computed in [size_t] wraps to [2^64 - 40]; the guard of
    [construct()] does not reject it, and whether the region ends up
    constructed is the verdict of the self-test over that many cells.  On
    a memory without faults the region is reported constructed, with a
    first block of [2^64 - 88] bytes. *)
Theorem construct_accepts_undersized :
  (∀ (M : Type) (C : CellMemory M) (ram : M) (m0 : gmap Z HeapBlock),
     let h := (Heap_ctor 48 48 ram m0 4096 8 NULLPTR).2 in
     size (data_ h) = 2 ^ 64 - 40 ∧
     Heap_isConstructed 48 h
     = Some (isMemoryAvailable ram 4144 (2 ^ 64 - 40)).1) ∧
  (Heap_new 48 48 ram0 ∅ 4096 8).2 = Some (fresh_heap 48 48 ∅ 4096 8) ∧
  Heap_isConstructed 48 (fresh_heap 48 48 ∅ 4096 8) = Some true ∧
  single_free_block 48 (fresh_heap 48 48 ∅ 4096 8) (2 ^ 64 - 88).
Proof.
  split; [|split; [|split]].
  - intros M C ram m0. unfold Heap_ctor, construct, HeapData_ctor.
    change (wrap (Z.land 8 (Z.lnot 7) - 48)) with (2 ^ 64 - 40).
    change (wrap (48 + 16)) with 64. simpl.
    change (wrap (4096 + 48)) with 4144.
    destruct (isMemoryAvailable ram 4144 _) as [[] ram1]; simpl.
    + split; [reflexivity|]. unfold Heap_isConstructed. simpl.
      by rewrite lookup_insert_eq.
    + split; reflexivity.
  - apply Heap_new_ideal; by vm_compute.
  - reflexivity.
  - eexists. split; [by vm_compute|]. by vm_compute.
Qed.

(** ** The self-test on a memory with a stuck cell *)

(** Cell 5 of the range always reads 0x55: the first pass, which expects
    the index, fails there, and nothing of the later patterns is written;
    a memory without faults passes. *)
Example isMemoryAvailable_stuck_cell :
  let m := mkStuckRam 5 0x55 (λ _, 0xFF) in
  isMemoryAvailable m 0 8 = (false, after_index m 0 8) ∧
  cells (isMemoryAvailable m 0 8).2 7 = 7 ∧
  (isMemoryAvailable ram0 0 8).1 = true.
Proof. by vm_compute. Qed.

(** The first allocation of 64 bytes on the fresh region cuts its one block
    of 928 bytes. *)
Lemma allocate_first_fit_witness :
  chain 48 48 heap0 [ABlock 928 false] ∧
  ∃ h', Heap_allocate 48 48 heap0 64 NULLPTR = Some (4192, h') ∧
        chain 48 48 h' [ABlock 64 true; ABlock 816 false].
Proof.
  assert (chain 48 48 heap0 [ABlock 928 false]) as Hc.
  { unfold chain. by_computation. }
  split; [exact Hc|].
  destruct (allocate_first_fit 48 48 heap0 [ABlock 928 false] 64 Hc
              ltac:(lia))
    as (_ & _ & [[Hnull _]|(l1 & b & l2 & h' & Hl & _ & _ & _ & Halloc
                            & Hchain')]).
  - vm_compute in Hnull. discriminate.
  - destruct l1 as [|x l1]; [|by destruct l1].
    injection Hl as <- <-. exists h'. split; [exact Halloc|exact Hchain'].
Defined.


(** ** What the self-test leaves behind, and what it detects *)

Lemma isMemoryAvailable_ideal_after (m : Ram) addr size :
  isMemoryAvailable m addr size = (true, after_zero m addr size).
Proof.
  unfold isMemoryAvailable. cbv zeta.
  rewrite !(proj2 (read_pass_holds _ _ _ _)) by apply holds_ideal.
  reflexivity.
Qed.

Lemma after_zero_ideal (m : Ram) addr size x :
  after_zero m addr size x
  = if (addr <=? x) && (x <? addr + size) then 0 else m x.
Proof.
  unfold after_zero, after_aa, after_55, after_index.
  rewrite !write_pass_ideal. unfold pat_zero.
  repeat match goal with
  | |- context [?a <=? ?b] => destruct (Z.leb_spec a b)
  | |- context [?a <? ?b] => destruct (Z.ltb_spec a b)
  end; simpl; try done; lia.
Qed.

(** X16.  On a memory without faults the self-test passes for every
    address and size; it leaves zero in every cell of the range and every
    other cell as it was. *)
Theorem self_test_ideal (m : Ram) addr size :
  isMemoryAvailable m addr size = (true, after_zero m addr size) ∧
  ∀ x, after_zero m addr size x
       = if (addr <=? x) && (x <? addr + size) then 0 else m x.
Proof.
  split; [apply isMemoryAvailable_ideal_after|].
  intros x. apply after_zero_ideal.
Qed.

Lemma write_pass_stuck pat addr n : ∀ i (m : StuckRam),
  stuck_at (write_pass pat addr i n m) = stuck_at m ∧
  stuck_val (write_pass pat addr i n m) = stuck_val m ∧
  ∀ x, cells (write_pass pat addr i n m) x
       = if (addr + i <=? x) && (x <? addr + i + Z.of_nat n)
         then pat (x - addr) else cells m x.
Proof.
  induction n as [|n IH]; intros i m.
  - simpl. split; [done|]. split; [done|]. intros x.
    destruct (_ && _) eqn:E; [|done].
    apply andb_true_iff in E as [E1%Z.leb_le E2%Z.ltb_lt]. lia.
  - cbn [write_pass]. destruct (IH (i + 1) (poke m (addr + i) (pat i)))
      as (-> & -> & Hcells).
    split; [done|]. split; [done|]. intros x. rewrite Hcells.
    cbn [poke stuck_ram cells].
    repeat match goal with
    | |- context [?a <=? ?b] => destruct (Z.leb_spec a b)
    | |- context [?a <? ?b] => destruct (Z.ltb_spec a b)
    | |- context [?a =? ?b] => destruct (Z.eqb_spec a b)
    end; simpl; try done; try lia.
    subst x. f_equal. lia.
Qed.

Lemma peek_write_pass_stuck pat addr size (m : StuckRam) j :
  0 ≤ j < size →
  peek (write_pass pat addr 0 (Z.to_nat size) m) (addr + j)
  = if addr + j =? stuck_at m then stuck_val m else pat j.
Proof.
  intros Hj. cbn [peek stuck_ram].
  destruct (write_pass_stuck pat addr (Z.to_nat size) 0 m)
    as (-> & -> & ->).
  destruct (Z.eqb_spec (addr + j) (stuck_at m)); [done|].
  destruct (Z.leb_spec (addr + 0) (addr + j)); [|lia].
  destruct (Z.ltb_spec (addr + j) (addr + 0 + Z.of_nat (Z.to_nat size)));
    [|lia].
  simpl. f_equal. lia.
Qed.

Lemma stuck_at_write_pass pat addr size (m : StuckRam) :
  stuck_at (write_pass pat addr 0 (Z.to_nat size) m) = stuck_at m ∧
  stuck_val (write_pass pat addr 0 (Z.to_nat size) m) = stuck_val m.
Proof.
  destruct (write_pass_stuck pat addr (Z.to_nat size) 0 m) as (? & ? & _).
  done.
Qed.

(** A pass over a range that holds the stuck cell succeeds only when the
    cell is stuck at the value the pass expects there. *)
Lemma read_pass_stuck pat addr size (m : StuckRam) :
  read_pass pat addr 0 (Z.to_nat size)
    (write_pass pat addr 0 (Z.to_nat size) m) = true ↔
  (addr ≤ stuck_at m < addr + size → stuck_val m = pat (stuck_at m - addr)).
Proof.
  rewrite read_pass_holds. unfold holds. split.
  - intros Hall Hin. specialize (Hall (stuck_at m - addr) ltac:(lia)).
    rewrite peek_write_pass_stuck in Hall by lia.
    destruct (Z.eqb_spec (addr + (stuck_at m - addr)) (stuck_at m)); [done|lia].
  - intros Hval j Hj. rewrite peek_write_pass_stuck by done.
    destruct (Z.eqb_spec (addr + j) (stuck_at m)) as [E|]; [|done].
    rewrite Hval by lia. f_equal. lia.
Qed.

(** X17.  On a memory with one cell stuck at some value, whatever the
    value, the self-test fails exactly when the cell lies in the range
    tested. *)
Theorem self_test_detects_stuck (m : StuckRam) addr size :
  (isMemoryAvailable m addr size).1
  = negb ((addr <=? stuck_at m) && (stuck_at m <? addr + size)).
Proof.
  unfold isMemoryAvailable. cbv zeta.
  set (m1 := write_pass pat_index addr 0 (Z.to_nat size) m).
  set (m2 := write_pass pat_55 addr 0 (Z.to_nat size) m1).
  set (m3 := write_pass pat_aa addr 0 (Z.to_nat size) m2).
  set (m4 := write_pass pat_zero addr 0 (Z.to_nat size) m3).
  pose proof (read_pass_stuck pat_index addr size m) as H1.
  pose proof (read_pass_stuck pat_55 addr size m1) as H2.
  pose proof (read_pass_stuck pat_aa addr size m2) as H3.
  pose proof (read_pass_stuck pat_zero addr size m3) as H4.
  fold m1 in H1. fold m2 in H2. fold m3 in H3. fold m4 in H4.
  destruct (stuck_at_write_pass pat_index addr size m) as [Ha1 Hv1].
  destruct (stuck_at_write_pass pat_55 addr size m1) as [Ha2 Hv2].
  destruct (stuck_at_write_pass pat_aa addr size m2) as [Ha3 Hv3].
  fold m1 in Ha1, Hv1. fold m2 in Ha2, Hv2. fold m3 in Ha3, Hv3.
  rewrite Ha1 in H2. rewrite Ha2, Ha1 in H3. rewrite Ha3, Ha2, Ha1 in H4.
  rewrite Hv1 in H2. rewrite Hv2, Hv1 in H3. rewrite Hv3, Hv2, Hv1 in H4.
  rewrite pat_55_val in H2. rewrite pat_aa_val in H3.
  destruct (Z.leb_spec addr (stuck_at m)) as [Hlo|Hlo];
    destruct (Z.ltb_spec (stuck_at m) (addr + size)) as [Hhi|Hhi]; simpl.
  - destruct (read_pass pat_index _ _ _ m1); [|done]. simpl.
    destruct (read_pass pat_55 _ _ _ m2); [|done]. simpl.
    destruct (read_pass pat_aa _ _ _ m3); [|done]. simpl.
    pose proof (proj1 H2 eq_refl ltac:(lia)).
    pose proof (proj1 H3 eq_refl ltac:(lia)). lia.
  - rewrite (proj2 H1), (proj2 H2), (proj2 H3), (proj2 H4) by lia. done.
  - rewrite (proj2 H1), (proj2 H2), (proj2 H3), (proj2 H4) by lia. done.
  - rewrite (proj2 H1), (proj2 H2), (proj2 H3), (proj2 H4) by lia. done.
Qed.

(** ** The padding of [Heap] *)

(** X18.  For a size that [int32_t] holds with eight to spare, [Aligner]
    gets between one and eight cells, as many as take the size to the
    next multiple of eight; eight, not none, for a size that already is a
    multiple of eight.  The sum computed on the way stays within
    [int32_t]. *)
Theorem Aligner_pads_to_eight SIZEOF :
  0 ≤ SIZEOF < 2 ^ 31 - 8 →
  1 ≤ Aligner_SIZE SIZEOF ≤ 8 ∧
  (SIZEOF + Aligner_SIZE SIZEOF) mod 8 = 0 ∧
  (SIZEOF mod 8 = 0 → Aligner_SIZE SIZEOF = 8) ∧
  0 ≤ Z.land SIZEOF (Z.lnot 0x7) + 0x8 < 2 ^ 31.
Proof.
  intros Hs. unfold Aligner_SIZE.
  rewrite land_lnot_7.
  pose proof (Z.mod_pos_bound SIZEOF 8).
  split_and!; try lia.
  replace (SIZEOF + (SIZEOF - SIZEOF mod 8 + 8 - SIZEOF))
    with (SIZEOF - SIZEOF mod 8 + 1 * 8) by lia.
  rewrite Z.mod_add by lia.
  pose proof (Z.div_mod SIZEOF 8).
  replace (SIZEOF - SIZEOF mod 8) with (SIZEOF / 8 * 8) by lia.
  by rewrite Z.mod_mul.
Qed.

Lemma Aligner_pads_to_eight_witness :
  0 ≤ 44 < 2 ^ 31 - 8 ∧ Aligner_SIZE 44 = 4 ∧ Aligner_SIZE 48 = 8 ∧
  (44 + Aligner_SIZE 44) mod 8 = 0.
Proof.
  split; [lia|]. split; [reflexivity|]. split; [reflexivity|].
  apply (Aligner_pads_to_eight 44). lia.
Defined.

(** ** What a refused construction leaves behind *)

(** X19.  [operator new] leaves the memory alone only for the null
    address.  For any other address it runs the self-test over
    [sizeof(Heap)] cells before it looks at the alignment of the
    address: on a memory without faults an address that is not a
    multiple of eight is refused, and its first [sizeof(Heap)] cells are
    zero afterwards.  When [sizeof(Heap)] is not a multiple of eight,
    every address is refused, and the cells tested are those from the
    null address on. *)
Theorem operator_new_overwrites SH (ram : Ram) ptr :
  Heap_operator_new SH ram NULLPTR = (ram, NULLPTR) ∧
  (ptr ≠ NULLPTR →
   let tested := if bool_decide (SH mod 8 = 0) then ptr else NULLPTR in
   (Heap_operator_new SH ram ptr).2
   = (if bool_decide (SH mod 8 = 0 ∧ ptr mod 8 = 0) then ptr else NULLPTR) ∧
   ∀ x, (Heap_operator_new SH ram ptr).1 x
        = if (tested <=? x) && (x <? tested + SH) then 0 else ram x).
Proof.
  split; [done|]. intros Hp tested.
  unfold Heap_operator_new, create.
  destruct (Z.eqb_spec ptr NULLPTR) as [|_]; [done|].
  rewrite aligned_test. fold tested.
  replace (if negb (bool_decide (SH mod 8 = 0)) then NULLPTR else ptr)
    with tested by (unfold tested; by case_bool_decide).
  rewrite isMemoryAvailable_ideal_after. simpl.
  split; [|apply after_zero_ideal].
  rewrite aligned_test. unfold tested.
  destruct (decide (SH mod 8 = 0)) as [HS|HS].
  - rewrite (bool_decide_eq_true_2 _ HS).
    destruct (decide (ptr mod 8 = 0)) as [HP|HP].
    + by rewrite !bool_decide_eq_true_2.
    + rewrite (bool_decide_eq_false_2 (ptr mod 8 = 0)) by done.
      by rewrite bool_decide_eq_false_2 by tauto.
  - rewrite (bool_decide_eq_false_2 (SH mod 8 = 0)) by done.
    rewrite (bool_decide_eq_false_2 (_ ∧ _)) by tauto.
    by destruct (negb _).
Qed.

(** ** The further theorems at concrete inputs *)

(** After [allocate(64)] and [allocate(128)]. *)
Local Abbreviation heap2 :=
  (default heap0 (calls 48 48 heap0 [Allocate 64 0; Allocate 128 0])).

Lemma reachable_demo_two : reachable (M := Ram) 48 48 heap2 [4304; 4192].
Proof.
  pose proof reachable_demo as H0.
  apply (reach_allocate 48 48 _ _ 64
           (default (0, heap0) (Heap_allocate 48 48 heap0 64 0))) in H0;
    [|lia|by vm_compute].
  apply (reach_allocate 48 48 _ _ 128
           (default (0, heap0)
              (Heap_allocate 48 48
                 (default (0, heap0) (Heap_allocate 48 48 heap0 64 0)).2
                 128 0))) in H0;
    [|lia|by vm_compute].
  exact H0.
Qed.

Lemma outstanding_disjoint_witness :
  reachable (M := Ram) 48 48 heap2 [4304; 4192] ∧
  NoDup [4304; 4192] ∧
  (∀ p, p ∈ [4304; 4192] →
     ∃ b, blocks heap2 !! heapBlock 48 p = Some b ∧ isUsed b = true ∧
          p mod 8 = 0 ∧
          getFirstBlock 48 heap2 + 48 ≤ p ∧
          p + size_ b ≤ getFirstBlock 48 heap2 + size (data_ heap2)) ∧
  (∀ p q b, p ∈ [4304; 4192] → q ∈ [4304; 4192] → p < q →
     blocks heap2 !! heapBlock 48 p = Some b →
     p + size_ b ≤ heapBlock 48 q).
Proof.
  split; [exact reachable_demo_two|].
  exact (outstanding_disjoint 48 48 heap2 [4304; 4192] reachable_demo_two).
Defined.

Lemma reachable_tiles_region_witness :
  reachable (M := Ram) 48 48 heap1 [4304] ∧
  ∃ p, path (blocks heap1) (getFirstBlock 48 heap1) p ∧
    (∃ b, blocks heap1 !! getFirstBlock 48 heap1 = Some b ∧
          prev_ b = NULLPTR) ∧
    ∀ a b, a ∈ p → blocks heap1 !! a = Some b →
      key_ b = BLOCK_KEY ∧ heap_ b = self heap1 ∧
      a mod 8 = 0 ∧ 0 ≤ size_ b ∧ size_ b mod 8 = 0 ∧
      getFirstBlock 48 heap1 ≤ a ∧
      data 48 a + size_ b ≤ getFirstBlock 48 heap1 + size (data_ heap1) ∧
      (next_ b ≠ NULLPTR →
       next_ b = data 48 a + size_ b ∧
       ∃ n, blocks heap1 !! next_ b = Some n ∧ prev_ n = a) ∧
      (next_ b = NULLPTR →
       data 48 a + size_ b = getFirstBlock 48 heap1 + size (data_ heap1)).
Proof.
  split; [exact reachable_demo_calls|].
  exact (reachable_tiles_region 48 48 heap1 [4304] reachable_demo_calls).
Defined.

Lemma used_blocks_are_outstanding_witness :
  reachable (M := Ram) 48 48 heap1 [4304] ∧
  ∃ p, path (blocks heap1) (getFirstBlock 48 heap1) p ∧
    (∀ a b, a ∈ p → blocks heap1 !! a = Some b →
       (isUsed b = true ↔ data 48 a ∈ [4304])) ∧
    (∀ q, q ∈ [4304] → heapBlock 48 q ∈ p).
Proof.
  split; [exact reachable_demo_calls|].
  exact (used_blocks_are_outstanding 48 48 heap1 [4304] reachable_demo_calls).
Defined.

(** The allocation at 4192, of 64 bytes, next to the one at 4304. *)
Lemma allocation_kept_witness :
  let b := mkHeapBlock 4096 NULLPTR 4256 ATTR_USED 64 BLOCK_KEY in
  reachable (M := Ram) 48 48 heap2 [4304; 4192] ∧
  4192 ∈ [4304; 4192] ∧
  blocks heap2 !! heapBlock 48 4192 = Some b ∧
  (∀ n r, 0 ≤ n < 2 ^ 64 → Heap_allocate 48 48 heap2 n NULLPTR = Some r →
     r.1 ≠ 4192 ∧
     ∃ b', blocks r.2 !! heapBlock 48 4192 = Some b' ∧
           isUsed b' = true ∧ size_ b' = size_ b) ∧
  (∀ p h', p ∈ [4304; 4192] → p ≠ 4192 → Heap_free 48 48 heap2 p = Some h' →
     ∃ b', blocks h' !! heapBlock 48 4192 = Some b' ∧
           isUsed b' = true ∧ size_ b' = size_ b).
Proof.
  intros b.
  assert (4192 ∈ [4304; 4192]) as Hin
    by (apply list_elem_of_further, list_elem_of_here).
  assert (blocks heap2 !! heapBlock 48 4192 = Some b) as Hb
    by (by vm_compute).
  split; [exact reachable_demo_two|]. split; [exact Hin|].
  split; [exact Hb|].
  exact (allocation_kept 48 48 heap2 [4304; 4192] 4192 b
           reachable_demo_two Hin Hb).
Defined.

Lemma allocate_free_round_trip_witness :
  let h' := (default (0, heap0) (Heap_allocate 48 48 heap0 64 0)).2 in
  Heap_allocate 48 48 heap0 64 NULLPTR = Some (4192, h') ∧
  ∃ h'' l, Heap_free 48 48 h' 4192 = Some h'' ∧
           chain 48 48 heap0 l ∧ chain 48 48 h'' l ∧
           self h'' = self heap0 ∧ data_ h'' = data_ heap0.
Proof.
  intros h'.
  assert (Heap_allocate 48 48 heap0 64 NULLPTR = Some (4192, h')) as Halloc
    by (by vm_compute).
  split; [exact Halloc|].
  apply (allocate_free_round_trip (M := Ram) 48 48 heap0 [] 64 4192 h'
           reachable_demo).
  - lia.
  - exact Halloc.
  - discriminate.
Defined.

Lemma reachable_calls_return_witness :
  reachable (M := Ram) 48 48 heap1 [4304] ∧
  Heap_isConstructed 48 heap1 = Some true ∧
  (∀ n p, 0 ≤ n < 2 ^ 64 → ∃ r, Heap_allocate 48 48 heap1 n p = Some r) ∧
  (∀ p, p = NULLPTR ∨ p ∈ [4304] → ∃ h', Heap_free 48 48 heap1 p = Some h').
Proof.
  split; [exact reachable_demo_calls|].
  exact (reachable_calls_return 48 48 heap1 [4304] reachable_demo_calls).
Defined.

(** A region of 1024 bytes has room for 928: a request of 928 bytes is
    served. *)
Lemma fresh_heap_capacity_witness :
  ∃ p h1, Heap_allocate 48 48 heap0 928 NULLPTR = Some (p, h1) ∧
    if (928 =? 0) || (1024 - 1024 mod 8 - 48 - 48 <? align8 928)
    then p = NULLPTR ∧ h1 = heap0
    else p = 4096 + 48 + 48.
Proof.
  apply (fresh_heap_capacity (M := Ram) 48 48 ram0 ∅ 4096 1024
           (Heap_new 48 48 ram0 ∅ 4096 1024).1 heap0 928).
  - lia.
  - lia.
  - lia.
  - lia.
  - lia.
  - exact Heap_new_demo.
  - reflexivity.
  - lia.
Defined.

(** Three allocations on the fresh region, and three more after the
    first three were released. *)
Lemma allocations_back_to_back_witness :
  let h1 :=
    default heap0
      (calls 48 48 heap0
         [Allocate 60 0; Allocate 128 0; Allocate 32 0;
          Free 4304; Free 4480; Free 4192]) in
  let h2 := (default ([], h1) (allocs 48 48 h1 [8; 16; 24])).2 in
  reachable (M := Ram) 48 48 h1 [] ∧
  allocs 48 48 h1 [8; 16; 24] = Some ([4192; 4248; 4312], h2) ∧
  [4192; 4248; 4312]
  = back_to_back 48 (getFirstBlock 48 h1 + 48) (map align8 [8; 16; 24]).
Proof.
  intros h1 h2.
  assert (reachable (M := Ram) 48 48 h1 []) as Hr.
  { pose proof reachable_demo as H0.
    apply (reach_allocate 48 48 _ _ 60
             (default (0, heap0) (Heap_allocate 48 48 heap0 60 0))) in H0;
      [|lia|by vm_compute].
    apply (reach_allocate 48 48 _ _ 128
             (default (0, heap0)
                (Heap_allocate 48 48
                   (default (0, heap0) (Heap_allocate 48 48 heap0 60 0)).2
                   128 0))) in H0;
      [|lia|by vm_compute].
    apply (reach_allocate 48 48 _ _ 32
             (default (0, heap0)
                (Heap_allocate 48 48
                   (default heap0
                      (calls 48 48 heap0 [Allocate 60 0; Allocate 128 0]))
                   32 0))) in H0;
      [|lia|by vm_compute].
    vm_compute in H0.
    apply (reach_free 48 48 _ _ [4480; 4192] 4304
             (default heap0
                (calls 48 48 heap0
                   [Allocate 60 0; Allocate 128 0; Allocate 32 0;
                    Free 4304]))) in H0;
      [|apply perm_swap|by vm_compute].
    apply (reach_free 48 48 _ _ [4192] 4480
             (default heap0
                (calls 48 48 heap0
                   [Allocate 60 0; Allocate 128 0; Allocate 32 0;
                    Free 4304; Free 4480]))) in H0;
      [|reflexivity|by vm_compute].
    apply (reach_free 48 48 _ _ [] 4192 h1) in H0;
      [|reflexivity|by vm_compute].
    exact H0. }
  assert (allocs 48 48 h1 [8; 16; 24] = Some ([4192; 4248; 4312], h2))
    as Hallocs by (by vm_compute).
  split; [exact Hr|]. split; [exact Hallocs|].
  apply (allocations_back_to_back (M := Ram) 48 48 h1 [8; 16; 24]
           [4192; 4248; 4312] h2 Hr).
  - repeat constructor; lia.
  - exact Hallocs.
  - repeat constructor; discriminate.
Defined.

(** The 64 bytes at 4192 are released; a request of 60 bytes is served
    there. *)
Lemma freed_memory_is_reusable_witness :
  let b := mkHeapBlock 4096 NULLPTR 4256 ATTR_USED 64 BLOCK_KEY in
  let h' := default heap0 (Heap_free 48 48 heap2 4192) in
  reachable (M := Ram) 48 48 heap2 [4304; 4192] ∧
  4192 ∈ [4304; 4192] ∧
  blocks heap2 !! heapBlock 48 4192 = Some b ∧
  Heap_free 48 48 heap2 4192 = Some h' ∧
  ∃ q h'', Heap_allocate 48 48 h' 60 NULLPTR = Some (q, h'') ∧
           q ≠ NULLPTR ∧ q ≤ 4192.
Proof.
  intros b h'.
  assert (4192 ∈ [4304; 4192]) as Hin
    by (apply list_elem_of_further, list_elem_of_here).
  assert (blocks heap2 !! heapBlock 48 4192 = Some b) as Hb
    by (by vm_compute).
  assert (Heap_free 48 48 heap2 4192 = Some h') as Hfree
    by (by vm_compute).
  split; [exact reachable_demo_two|]. split; [exact Hin|].
  split; [exact Hb|]. split; [exact Hfree|].
  apply (freed_memory_is_reusable (M := Ram) 48 48 heap2 [4304; 4192]
           4192 b h' 60 reachable_demo_two Hin Hb Hfree).
  - lia.
  - by vm_compute.
Defined.

(** The allocation at 4304 follows a used block: its second release
    changes nothing. *)
Lemma free_of_free_block_witness :
  let b := mkHeapBlock 4096 4144 4432 ATTR_USED 128 BLOCK_KEY in
  let h' := default heap0 (Heap_free 48 48 heap2 4304) in
  reachable (M := Ram) 48 48 heap2 [4304; 4192] ∧
  4304 ∈ [4304; 4192] ∧
  blocks heap2 !! heapBlock 48 4304 = Some b ∧
  (∃ pb, blocks heap2 !! prev_ b = Some pb ∧ isUsed pb = true) ∧
  Heap_free 48 48 heap2 4304 = Some h' ∧
  Heap_free 48 48 h' 4304 = Some h'.
Proof.
  intros b h'.
  assert (4304 ∈ [4304; 4192]) as Hin by apply list_elem_of_here.
  assert (blocks heap2 !! heapBlock 48 4304 = Some b) as Hb
    by (by vm_compute).
  assert (∃ pb, blocks heap2 !! prev_ b = Some pb ∧ isUsed pb = true)
    as Hprev by (eexists; split; [by vm_compute|reflexivity]).
  assert (Heap_free 48 48 heap2 4304 = Some h') as Hfree
    by (by vm_compute).
  split; [exact reachable_demo_two|]. split; [exact Hin|].
  split; [exact Hb|]. split; [exact Hprev|]. split; [exact Hfree|].
  exact (proj2 (free_of_free_block 48 48 heap2 [4304; 4192]
                  reachable_demo_two)
           4304 b h' Hin Hb (or_intror Hprev) Hfree).
Defined.

(** The heap refers to the pointer variable at 512, which holds the
    address 768 of a toggle that an outer caller has disabled already:
    the allocation is served and the toggle stays disabled. *)
Lemma calls_bracket_toggle_witness :
  let h := setToggle 512 heap0 in
  let w := mkWorld (λ _, 768) (λ _, false) in
  let r := default (0, h, w) (allocate_guarded 48 48 w h 64 NULLPTR) in
  (∀ o : bool, bracketed o = o) ∧
  allocate_guarded 48 48 w h 64 NULLPTR = Some r ∧
  r.1.1 = 4192 ∧ vars r.2 = vars w ∧ objs r.2 768 = objs w 768.
Proof.
  intros h w r.
  assert (∀ o : bool, bracketed o = o) as Hlaw by (by intros []).
  assert (allocate_guarded 48 48 w h 64 NULLPTR = Some r) as Hr
    by (by vm_compute).
  split; [exact Hlaw|]. split; [exact Hr|]. split; [by vm_compute|].
  exact (proj1 (proj2 (proj2 (calls_bracket_toggle 48 48 h w)) Hlaw)
           64 NULLPTR r 768 Hr).
Defined.

Lemma scan_is_linear_witness :
  reachable (M := Ram) 48 48 heap1 [4304] ∧
  ∃ p, path (blocks heap1) (getFirstBlock 48 heap1) p ∧
    ∀ sz, ∃ r, (r = NULLPTR ∨ r ∈ p) ∧
      ∀ k, scan (S (length p) + k) (blocks heap1) (getFirstBlock 48 heap1) sz
           = Some r.
Proof.
  split; [exact reachable_demo_calls|].
  exact (scan_is_linear 48 48 heap1 [4304] reachable_demo_calls).
Defined.

(** Every size from [2^64 - 7] on is served from the fresh region, with a
    block of capacity zero. *)
Lemma oversized_request_is_served_witness :
  chain 48 48 heap0 [ABlock 928 false] ∧
  2 ^ 64 - 8 < 2 ^ 64 - 7 < 2 ^ 64 ∧
  ∃ h', Heap_allocate 48 48 heap0 (2 ^ 64 - 7) NULLPTR = Some (4192, h') ∧
        chain 48 48 h' [ABlock 0 true; ABlock 880 false].
Proof.
  assert (chain 48 48 heap0 [ABlock 928 false]) as Hc.
  { unfold chain. by_computation. }
  split; [exact Hc|]. split; [lia|].
  destruct (oversized_request_is_served 48 48 heap0 [ABlock 928 false]
              (2 ^ 64 - 7) Hc ltac:(lia))
    as (_ & [[_ Hall]|(l1 & c & l2 & h' & Hl & _ & Halloc & Hchain')]).
  - apply Forall_cons in Hall as [Hu _]. discriminate.
  - destruct l1 as [|x l1]; [|destruct l1; discriminate Hl].
    injection Hl as <- <-. exists h'. split; [exact Halloc|exact Hchain'].
Defined.

(** A total size of 8 bytes for an object of 48: the usable size comes
    out as [2^64 - 40]. *)
Lemma undersized_region_passes_guard_witness :
  let d := HeapData_ctor 48 8 NULLPTR in
  size d = 2 ^ 64 - 48 + (8 - 8 mod 8) ∧
  8 < size d ∧
  (wrap (48 + 16) >? size d) = false ∧
  ∀ this, 0 ≤ this → 2 ^ 64 ≤ this + 48 + size d.
Proof.
  apply (undersized_region_passes_guard 48 48 8 NULLPTR); lia.
Defined.

(** The self-test of sixteen cells of a memory without faults: loads
    return what was stored last, so every pass reads back its pattern. *)
Lemma isMemoryAvailable_four_passes_witness :
  isMemoryAvailable ram0 4144 16 = (true, after_zero ram0 4144 16) ∧
  holds pat_index 4144 16 (after_index ram0 4144 16) ∧
  holds pat_zero 4144 16 (after_zero ram0 4144 16) ∧
  after_index ram0 4144 16
  = fold_left (λ m' k, poke m' (4144 + Z.of_nat k) (Z.of_nat k mod 256))
      (seq 0 (Z.to_nat 16)) ram0.
Proof.
  destruct (isMemoryAvailable_four_passes ram0 4144 16)
    as (_ & _ & _ & _ & _ & Hall & _ & (Hstores & _) & Hlaw).
  destruct Hlaw as (P1 & P2 & P3 & P4 & _).
  - intros m a v. cbn [peek poke ideal_ram]. by rewrite Z.eqb_refl.
  - intros m a b v Hab. cbn [peek poke ideal_ram].
    destruct (Z.eqb_spec b a) as [E|_]; [by destruct Hab|reflexivity].
  - split; [exact (Hall P1 P2 P3 P4)|]. split; [exact P1|].
    split; [exact P4|exact Hstores].
Defined.
